From Stdlib Require Import String Ascii.
From Stdlib Require Import List ZArith NArith Lia Bool.
From Stdlib Require Import Sorting.Sorted Sorting.Permutation.
From Stdlib Require DecimalNat DecimalFacts.
From Stdlib.Strings Require Import Byte.
Import ListNotations.

Set Implicit Arguments.
Set Warnings "-register-all".

Local Open Scope N_scope.

(** * Python values used by [mo_convert.py] and [missing_translations.py]

    A [str] is a sequence of Unicode code points, a [bytes] object a
    sequence of octets.  Python integers are unbounded: they are [Z]. *)

Definition str := list N.
Definition bytes := list byte.

(** Code points of the source's string constants that cannot be written
    inside a literal here. *)
Definition NUL : N := 0.     (* U+0000 *)
Definition EOT : N := 4.     (* U+0004, the context separator *)
Definition TAB : N := 9.     (* tab *)
Definition LF : N := 10.     (* newline *)
Definition CR : N := 13.     (* carriage return *)
Definition DQ : N := 34.     (* the double quote *)
Definition BSL : N := 92.    (* the backslash *)

(** An ASCII literal as a [str]. *)
Definition str_of (s : string) : str :=
  map N_of_ascii (list_ascii_of_string s).

Fixpoint str_eqb (a b : str) : bool :=
  match a, b with
  | [], [] => true
  | x :: a', y :: b' => (x =? y)%N && str_eqb a' b'
  | _, _ => false
  end.

(** Exceptions the modelled functions can raise. *)
Inductive exn : Type :=
| ValueError_too_small              (* Invalid .mo: too small *)
| ValueError_bad_magic              (* Invalid .mo: bad magic *)
| ValueError_revision (revision : Z) (* Unsupported .mo revision *)
| struct_error                      (* struct.error, from pack and unpack *)
| TypeError
| UnicodeEncodeError
| AttributeError.                   (* a method the object does not have *)

Inductive result (A : Type) : Type :=
| Ok (a : A)
| Raise (e : exn).
Arguments Ok {A} a.
Arguments Raise {A} e.

Definition bind {A B} (r : result A) (k : A -> result B) : result B :=
  match r with
  | Ok a => k a
  | Raise e => Raise e
  end.

Notation "x <- r ;; k" := (bind r (fun x => k))
  (at level 61, r at next level, right associativity).
Notation "' p <- r ;; k" := (bind r (fun x => let p := x in k))
  (at level 61, p pattern, r at next level, right associativity).

(** ** [str] methods *)

(** [s.startswith(p)] *)
Fixpoint startswith (s p : str) {struct p} : bool :=
  match p, s with
  | [], _ => true
  | a :: p', b :: s' => (a =? b)%N && startswith s' p'
  | _ :: _, [] => false
  end.

Definition mem (c : N) (l : list N) : bool := existsb (N.eqb c) l.

(** The code points [str.strip()] removes: CPython's
    [_PyUnicode_IsWhitespace]. *)
Definition isspace (c : N) : bool :=
  ((9 <=? c) && (c <=? 13) || (28 <=? c) && (c <=? 32)
   || (8192 <=? c) && (c <=? 8202)
   || mem c [133; 160; 5760; 8232; 8233; 8239; 8287; 12288])%N.

Fixpoint lstrip_by (f : N -> bool) (s : str) : str :=
  match s with
  | c :: s' => if f c then lstrip_by f s' else s
  | [] => []
  end.

Definition rstrip_by (f : N -> bool) (s : str) : str :=
  rev (lstrip_by f (rev s)).

Definition strip_by (f : N -> bool) (s : str) : str :=
  rstrip_by f (lstrip_by f s).

(** [s.strip()] *)
Definition strip (s : str) : str := strip_by isspace s.

(** [s.strip(chars)] *)
Definition strip_chars (chars : str) (s : str) : str :=
  strip_by (fun c => mem c chars) s.

(** [s.replace(old, new)] for a one-character [old]. *)
Definition replace (old : N) (new : str) (s : str) : str :=
  flat_map (fun c => if (c =? old)%N then new else [c]) s.

(** [s.split(sep)] for a one-character [sep]: never empty. *)
Fixpoint split (sep : N) (s : str) : list str :=
  match s with
  | [] => [[]]
  | c :: s' =>
      if (c =? sep)%N then [] :: split sep s'
      else match split sep s' with
           | p :: ps => (c :: p) :: ps
           | [] => [[c]]
           end
  end.

(** [sep in s] together with [s.split(sep, 1)], which the source only
    calls under that test: [None] when [sep] does not occur. *)
Fixpoint split1 (sep : N) (s : str) : option (str * str) :=
  match s with
  | [] => None
  | c :: s' =>
      if (c =? sep)%N then Some ([], s')
      else match split1 sep s' with
           | Some (a, b) => Some (c :: a, b)
           | None => None
           end
  end.

(** [sep.join(l)] *)
Fixpoint join (sep : str) (l : list str) : str :=
  match l with
  | [] => []
  | [x] => x
  | x :: l' => x ++ sep ++ join sep l'
  end.

(** The line boundaries of [str.splitlines()]. *)
Definition is_linebreak (c : N) : bool :=
  mem c [10; 11; 12; 13; 28; 29; 30; 133; 8232; 8233].

(** [splitlines_from line s]: [line] is the current line, reversed. *)
Fixpoint splitlines_from (line : str) (s : str) : list str :=
  match s with
  | [] => match line with [] => [] | _ => [rev line] end
  | c :: s' =>
      if (c =? CR)%N then
        rev line :: match s' with
                    | d :: s'' =>
                        if (d =? LF)%N then splitlines_from [] s''
                        else splitlines_from [] s'
                    | [] => []
                    end
      else if is_linebreak c then rev line :: splitlines_from [] s'
      else splitlines_from (c :: line) s'
  end.

(** [s.splitlines()] *)
Definition splitlines (s : str) : list str := splitlines_from [] s.

(** * mo_convert.py *)

(** ** [_detect_charset_from_header]

    The pattern is the raw string [charset=([^\\s;]+)]: its class
    excludes the backslash, the letter s and the semicolon.  Under
    [re.IGNORECASE] a letter of the pattern matches both cases, and s
    also U+017F. *)

Definition ci_letter (lower c : N) : bool :=
  ((c =? lower) || (c =? lower - 32)
   || (lower =? 115) && (c =? 383))%N.

(** The class [[^\\s;]] under [re.IGNORECASE]. *)
Definition class_not_bsl_s_semi (c : N) : bool :=
  negb (mem c [92; 59; 115; 83; 383]).

(** The literal part [charset=], case-insensitively: the rest of the
    subject after it. *)
Fixpoint ci_prefix (p : str) (s : str) : option str :=
  match p with
  | [] => Some s
  | a :: p' =>
      match s with
      | c :: s' =>
          if (if (a =? 61)%N then (c =? 61)%N else ci_letter a c)
          then ci_prefix p' s' else None
      | [] => None
      end
  end.

Fixpoint take_while (f : N -> bool) (s : str) : str :=
  match s with
  | c :: s' => if f c then c :: take_while f s' else []
  | [] => []
  end.

(** A match of the pattern at the start of [s]: group 1. *)
Definition charset_match_here (s : str) : option str :=
  match ci_prefix (str_of "charset=") s with
  | Some rest =>
      match take_while class_not_bsl_s_semi rest with
      | [] => None
      | g => Some g
      end
  | None => None
  end.

(** [re.search]: the leftmost position with a match. *)
Fixpoint charset_search (s : str) : option str :=
  match s with
  | [] => None
  | _ :: s' =>
      match charset_match_here s with
      | Some g => Some g
      | None => charset_search s'
      end
  end.

Definition _detect_charset_from_header (header_msgstr : str) : str :=
  match charset_search header_msgstr with
  | None => str_of "utf-8"
  | Some g => strip_chars [DQ] (strip g)
  end.

(** ** [_po_escape] and [_po_quote] *)

Definition _po_escape (s : str) : str :=
  let s := replace BSL [BSL; BSL] s in
  let s := replace DQ [BSL; DQ] s in
  let s := replace TAB [BSL; 116%N] s in
  let s := replace CR [BSL; 114%N] s in
  let s := replace LF [BSL; 110%N] s in
  s.

Definition quoted (body : str) : str := DQ :: body ++ [DQ].

(** The loop of [_po_quote] over [parts]: every part but the last keeps
    its newline. *)
Fixpoint quote_parts (parts : list str) : list str :=
  match parts with
  | [] => []
  | [part] => [quoted (_po_escape part)]
  | part :: rest => quoted (_po_escape (part ++ [LF])) :: quote_parts rest
  end.

Definition _po_quote (s : str) : list str :=
  match s with
  | [] => [[DQ; DQ]]
  | _ => quote_parts (split LF s)
  end.

Local Open Scope N_scope.

(** ** The entry record

    The dataclass declares [str] fields, and [write_po], [write_mo] and
    the report work on [PoEntry str].  [read_po] stores whatever
    [ast.literal_eval] returns, which for a source that starts with a
    double quote is a [str] or a tuple: there the fields are [pyval]. *)

Inductive pyval : Type :=
| VStr (s : str)
| VTuple (elts : list pyval).

Record PoEntry (V : Type) : Type := mkPoEntry {
  msgctxt : option V;
  msgid : V;
  msgid_plural : option V;
  msgstr : list V
}.
Arguments mkPoEntry {V} msgctxt msgid msgid_plural msgstr.

Definition entry_map {V W} (f : V -> W) (e : PoEntry V) : PoEntry W :=
  mkPoEntry (option_map f (msgctxt e)) (f (msgid e))
            (option_map f (msgid_plural e)) (map f (msgstr e)).

(** ** What the code takes from the Python library *)

(** The value of the body of a short double-quoted string literal, for
    bodies made of ordinary characters and one-letter escapes; [None]
    for any other body. *)
Definition is_surrogate (c : N) : bool := (55296 <=? c) && (c <=? 57343).

Definition plain_char (c : N) : bool :=
  negb (mem c [NUL; LF; CR; DQ; BSL]) && negb (is_surrogate c).

Definition simple_escape (e : N) : option N :=
  if e =? 92 then Some 92          (* backslash *)
  else if e =? 39 then Some 39     (* single quote *)
  else if e =? 34 then Some 34     (* double quote *)
  else if e =? 97 then Some 7      (* a: bell *)
  else if e =? 98 then Some 8      (* b: backspace *)
  else if e =? 102 then Some 12    (* f: form feed *)
  else if e =? 110 then Some 10    (* n: newline *)
  else if e =? 114 then Some 13    (* r: carriage return *)
  else if e =? 116 then Some 9     (* t: tab *)
  else if e =? 118 then Some 11    (* v: vertical tab *)
  else None.

Fixpoint short_string_value (body : str) : option str :=
  match body with
  | [] => Some []
  | c :: rest =>
      if c =? BSL then
        match rest with
        | e :: rest' =>
            match simple_escape e, short_string_value rest' with
            | Some v, Some val => Some (v :: val)
            | _, _ => None
            end
        | [] => None
        end
      else if plain_char c then option_map (cons c) (short_string_value rest)
      else None
  end.

(** [ast.literal_eval] on a source that starts with a double quote:
    [None] when it raises.  The one law is Python's reading of a single
    short string literal. *)
Class LiteralEval : Type := {
  literal_eval : str -> option pyval;
  literal_eval_short :
    forall body v, short_string_value body = Some v ->
                   literal_eval (quoted body) = Some (VStr v)
}.

(** The decimal digits of the Unicode database, which [\d] matches and
    [int] reads; below U+0080 they are the ten ASCII digits. *)
Class UnicodeDigits : Type := {
  decimal_value : N -> option N;
  decimal_value_ascii :
    forall c, c < 128 ->
      decimal_value c
      = if (48 <=? c) && (c <=? 57) then Some (c - 48) else None
}.

(** *** A literal evaluator to run examples with

    It reads one short double-quoted literal, or several separated by
    commas (a tuple), with blanks between the tokens, and rejects a
    source that holds a NUL or a surrogate, as the compiler does.  Every
    other source it rejects too; CPython accepts more of them. *)

Fixpoint lex_short (s : str) : option (str * str) :=
  match s with
  | [] => None
  | c :: rest =>
      if c =? DQ then Some ([], rest)
      else if c =? BSL then
        match rest with
        | e :: rest' =>
            match simple_escape e, lex_short rest' with
            | Some v, Some (val, r) => Some (v :: val, r)
            | _, _ => None
            end
        | [] => None
        end
      else if plain_char c then
        match lex_short rest with
        | Some (val, r) => Some (c :: val, r)
        | None => None
        end
      else None
  end.

Definition skip_blank (s : str) : str := lstrip_by (fun c => mem c [32; 9]) s.

Fixpoint tuple_items (fuel : nat) (s : str) : option (list str * bool) :=
  match fuel with
  | O => None
  | S fuel' =>
      match skip_blank s with
      | c :: s1 =>
          if c =? DQ then
            match lex_short s1 with
            | Some (v, r) =>
                match skip_blank r with
                | [] => Some ([v], false)
                | d :: r' =>
                    if d =? 44 then
                      match skip_blank r' with
                      | [] => Some ([v], true)
                      | _ =>
                          match tuple_items fuel' r' with
                          | Some (vs, _) => Some (v :: vs, true)
                          | None => None
                          end
                      end
                    else None
                end
            | None => None
            end
          else None
      | [] => None
      end
  end.

Definition py_literal_eval (src : str) : option pyval :=
  if existsb (fun c => (c =? NUL) || is_surrogate c) src then None
  else match tuple_items (length src) src with
       | Some ([v], false) => Some (VStr v)
       | Some (vs, true) => Some (VTuple (map VStr vs))
       | _ => None
       end.

Definition ascii_decimal_value (c : N) : option N :=
  if (48 <=? c) && (c <=? 57) then Some (c - 48) else None.

(** ** [_parse_po_string_literal] *)

Section ReadPo.
Context {LE : LiteralEval} {UD : UnicodeDigits}.

Definition _parse_po_string_literal (s : str) : pyval :=
  let s := strip s in
  if negb (startswith s [DQ]) then VStr []
  else match literal_eval s with
       | Some v => v
       | None => VStr []
       end.

(** ** [read_po] *)

(** [active_key]: the field a continuation line is appended to. *)
Inductive active : Type :=
| A_msgctxt
| A_msgid
| A_msgid_plural
| A_msgstr (idx : nat).

Record po_state : Type := mkPoState {
  entries : list (PoEntry pyval);
  cur : option (PoEntry pyval);
  active_key : option active;
  nonlocal_header : str
}.

(** [v] compared with the empty string. *)
Definition is_empty_str (v : pyval) : bool :=
  match v with
  | VStr [] => true
  | _ => false
  end.

(** Truth value of a [str] or tuple. *)
Definition truthy (v : pyval) : bool :=
  match v with
  | VStr [] | VTuple [] => false
  | _ => true
  end.

(** [x or e] with [e] the empty string. *)
Definition or_empty (x : option pyval) : pyval :=
  match x with
  | Some v => if truthy v then v else VStr []
  | None => VStr []
  end.

(** [a + b]: defined on two [str] and on two tuples. *)
Definition py_add (a b : pyval) : result pyval :=
  match a, b with
  | VStr x, VStr y => Ok (VStr (x ++ y))
  | VTuple x, VTuple y => Ok (VTuple (x ++ y))
  | _, _ => Raise TypeError
  end.

(** [re.search] of [_detect_charset_from_header] wants a [str]. *)
Definition detect_charset_dyn (v : pyval) : result str :=
  match v with
  | VStr s => Ok (_detect_charset_from_header s)
  | VTuple _ => Raise TypeError
  end.

Definition flush (st : po_state) : result po_state :=
  match cur st with
  | None => Ok st
  | Some c =>
      h <- (match msgstr c with
            | first :: _ =>
                if is_empty_str (msgid c) then detect_charset_dyn first
                else Ok (nonlocal_header st)
            | [] => Ok (nonlocal_header st)
            end) ;;
      Ok (mkPoState (entries st ++ [c]) None (active_key st) h)
  end.

(** [cur], or the fresh entry the source makes when [cur is None]. *)
Definition cur_or_new (st : po_state) : PoEntry pyval :=
  match cur st with
  | Some c => c
  | None => mkPoEntry None (VStr []) None []
  end.

(** [while len(l) <= idx:] append the empty string. *)
Definition pad_to (idx : nat) (l : list pyval) : list pyval :=
  l ++ repeat (VStr []) (S idx - length l).

(** [l[idx] = v], for [idx < len(l)]. *)
Fixpoint list_set {A} (idx : nat) (v : A) (l : list A) : list A :=
  match l, idx with
  | [], _ => []
  | _ :: l', O => v :: l'
  | x :: l', S i => x :: list_set i v l'
  end.

(** [re.match] of [^msgstr\[(\d+)\]] on the line: the digit values of group 1
    and the line from [m.end()]. *)
Fixpoint span_digits (s : str) : list N * str :=
  match s with
  | c :: s' =>
      match decimal_value c with
      | Some d => let (ds, r) := span_digits s' in (d :: ds, r)
      | None => ([], s)
      end
  | [] => ([], [])
  end.

Definition match_msgstr_index (line : str) : option (list N * str) :=
  if startswith line (str_of "msgstr[") then
    match span_digits (skipn 7 line) with
    | (d :: ds, c :: rest) => if c =? 93 then Some (d :: ds, rest) else None
    | _ => None
    end
  else None.

(** [int(m.group(1))] *)
Definition int_of_digits (ds : list N) : N :=
  fold_left (fun a d => 10 * a + d) ds 0.

Definition with_cur (st : po_state) (c : PoEntry pyval) (k : active)
  : po_state :=
  mkPoState (entries st) (Some c) (Some k) (nonlocal_header st).

(** A continuation line: [frag] is appended to the active field. *)
Definition continuation (c : PoEntry pyval) (k : active) (frag : pyval)
  : result (PoEntry pyval) :=
  match k with
  | A_msgctxt =>
      v <- py_add (or_empty (msgctxt c)) frag ;;
      Ok (mkPoEntry (Some v) (msgid c) (msgid_plural c) (msgstr c))
  | A_msgid =>
      v <- py_add (msgid c) frag ;;
      Ok (mkPoEntry (msgctxt c) v (msgid_plural c) (msgstr c))
  | A_msgid_plural =>
      v <- py_add (or_empty (msgid_plural c)) frag ;;
      Ok (mkPoEntry (msgctxt c) (msgid c) (Some v) (msgstr c))
  | A_msgstr idx =>
      let l := pad_to idx (msgstr c) in
      v <- py_add (nth idx l (VStr [])) frag ;;
      Ok (mkPoEntry (msgctxt c) (msgid c) (msgid_plural c) (list_set idx v l))
  end.

(** The body of the loop over the lines and a final empty line. *)
Definition po_line (st : po_state) (raw : str) : result po_state :=
  let line := strip raw in
  match line with
  | [] =>
      st' <- flush st ;;
      Ok (mkPoState (entries st') (cur st') None (nonlocal_header st'))
  | _ =>
  if startswith line (str_of "#") then Ok st
  else if startswith line (str_of "msgctxt") then
    let c := cur_or_new st in
    let v := _parse_po_string_literal (strip (skipn 7 line)) in
    Ok (with_cur st (mkPoEntry (Some v) (msgid c) (msgid_plural c) (msgstr c))
                 A_msgctxt)
  else if startswith line (str_of "msgid_plural") then
    let c := cur_or_new st in
    let v := _parse_po_string_literal (strip (skipn 12 line)) in
    Ok (with_cur st (mkPoEntry (msgctxt c) (msgid c) (Some v) (msgstr c))
                 A_msgid_plural)
  else if startswith line (str_of "msgid") then
    let c := cur_or_new st in
    let v := _parse_po_string_literal (strip (skipn 5 line)) in
    Ok (with_cur st (mkPoEntry (msgctxt c) v (msgid_plural c) (msgstr c))
                 A_msgid)
  else
  match match_msgstr_index line with
  | Some (ds, rest) =>
      let c := cur_or_new st in
      let idx := N.to_nat (int_of_digits ds) in
      let s := _parse_po_string_literal (strip rest) in
      Ok (with_cur st
            (mkPoEntry (msgctxt c) (msgid c) (msgid_plural c)
                       (list_set idx s (pad_to idx (msgstr c))))
            (A_msgstr idx))
  | None =>
  if startswith line (str_of "msgstr") then
    let c := cur_or_new st in
    let s := _parse_po_string_literal (strip (skipn 6 line)) in
    Ok (with_cur st
          (mkPoEntry (msgctxt c) (msgid c) (msgid_plural c)
                     (match msgstr c with
                      | _ :: l => s :: l
                      | [] => [s]
                      end))
          (A_msgstr 0))
  else if startswith line [DQ] then
    match active_key st, cur st with
    | Some k, Some c =>
        c' <- continuation c k (_parse_po_string_literal line) ;;
        Ok (mkPoState (entries st) (Some c') (active_key st)
                      (nonlocal_header st))
    | _, _ => Ok st
    end
  else Ok st
  end
  end.

Fixpoint po_lines (st : po_state) (lines : list str) : result po_state :=
  match lines with
  | [] => Ok st
  | raw :: lines' => st' <- po_line st raw ;; po_lines st' lines'
  end.

(** [read_po] on the text that [path.read_text] returns. *)
Definition read_po (text : str) : result (str * list (PoEntry pyval)) :=
  st <- po_lines (mkPoState [] None None (str_of "utf-8"))
                 (splitlines text ++ [[]]) ;;
  Ok (nonlocal_header st, entries st).

End ReadPo.

(** ** [write_po] *)

Fixpoint digits_of_uint (d : Decimal.uint) : str :=
  match d with
  | Decimal.Nil => []
  | Decimal.D0 d => 48 :: digits_of_uint d
  | Decimal.D1 d => 49 :: digits_of_uint d
  | Decimal.D2 d => 50 :: digits_of_uint d
  | Decimal.D3 d => 51 :: digits_of_uint d
  | Decimal.D4 d => 52 :: digits_of_uint d
  | Decimal.D5 d => 53 :: digits_of_uint d
  | Decimal.D6 d => 54 :: digits_of_uint d
  | Decimal.D7 d => 55 :: digits_of_uint d
  | Decimal.D8 d => 56 :: digits_of_uint d
  | Decimal.D9 d => 57 :: digits_of_uint d
  end.

(** The decimal numeral of [i], as an f-string formats it. *)
Definition decimal (i : nat) : str := digits_of_uint (Nat.to_uint i).

(** [out_lines.append(kw + q[0])] and then the lines of [q[1:]]. *)
Definition emit (kw : str) (q : list str) : list str :=
  (kw ++ hd [] q) :: tl q.

(** The loop [for i, s in enumerate(e.msgstr)], from index [i]. *)
Fixpoint msgstr_lines (i : nat) (l : list str) : list str :=
  match l with
  | [] => []
  | s :: l' =>
      emit (str_of "msgstr[" ++ decimal i ++ str_of "] ") (_po_quote s)
      ++ msgstr_lines (S i) l'
  end.

Definition entry_lines (e : PoEntry str) : list str :=
  (match msgctxt e with
   | Some c => emit (str_of "msgctxt ") (_po_quote c)
   | None => []
   end)
  ++ emit (str_of "msgid ") (_po_quote (msgid e))
  ++ (match msgid_plural e with
      | Some p =>
          emit (str_of "msgid_plural ") (_po_quote p)
          ++ msgstr_lines 0 (msgstr e)
      | None => emit (str_of "msgstr ") (_po_quote (hd [] (msgstr e)))
      end)
  ++ [[]].

(** The text [write_po] hands to [path.write_text]. *)
Definition write_po (entries : list (PoEntry str)) : str :=
  join [LF] (flat_map entry_lines entries).

Local Open Scope Z_scope.

(** ** Bytes, [struct] and dictionaries *)

(** [len(x)] as a Python integer. *)
Definition len {A} (l : list A) : Z := Z.of_nat (List.length l).

(** [data[a:b]] for non-negative [a] and [b]: clipped at the end of
    [data], empty when [b <= a]. *)
Definition slice {A} (data : list A) (a b : Z) : list A :=
  firstn (Z.to_nat (b - a)) (skipn (Z.to_nat a) data).

Definition byte_val (b : byte) : Z := Z.of_N (Byte.to_N b).

Definition byte_of_Z (z : Z) : byte :=
  match Byte.of_N (Z.to_N (z mod 256)) with
  | Some b => b
  | None => x00
  end.

Fixpoint bytes_eqb (a b : bytes) : bool :=
  match a, b with
  | [], [] => true
  | x :: a', y :: b' => Byte.eqb x y && bytes_eqb a' b'
  | _, _ => false
  end.

(** [a <= b] on [bytes]: lexicographic on the octet values. *)
Fixpoint bytes_leb (a b : bytes) : bool :=
  match a, b with
  | [], _ => true
  | _ :: _, [] => false
  | x :: a', y :: b' =>
      if byte_val x <? byte_val y then true
      else if byte_val x =? byte_val y then bytes_leb a' b'
      else false
  end.

Definition bytes_ltb (a b : bytes) : bool := negb (bytes_leb b a).

(** The byte order character of a [struct] format. *)
Inductive endian : Type :=
| LittleEndian   (* < *)
| BigEndian.     (* > *)

Definition word_of_bytes (e : endian) (b0 b1 b2 b3 : byte) : Z :=
  match e with
  | LittleEndian =>
      byte_val b0 + 256 * (byte_val b1 + 256 * (byte_val b2 + 256 * byte_val b3))
  | BigEndian =>
      byte_val b3 + 256 * (byte_val b2 + 256 * (byte_val b1 + 256 * byte_val b0))
  end.

(** [struct.unpack] of [count] unsigned 32-bit integers in byte order
    [e]: [struct.error] unless [bs] has exactly [4 * count] bytes. *)
Fixpoint unpack (e : endian) (count : nat) (bs : bytes) : result (list Z) :=
  match count, bs with
  | O, [] => Ok []
  | S k, b0 :: b1 :: b2 :: b3 :: rest =>
      ws <- unpack e k rest ;;
      Ok (word_of_bytes e b0 b1 b2 b3 :: ws)
  | _, _ => Raise struct_error
  end.

(** [struct.pack] of one little-endian unsigned 32-bit integer:
    [struct.error] unless [0 <= v < 2**32]. *)
Definition pack_I (v : Z) : result bytes :=
  if (0 <=? v) && (v <? 4294967296) then
    Ok [byte_of_Z v; byte_of_Z (v / 256); byte_of_Z (v / 65536);
        byte_of_Z (v / 16777216)]
  else Raise struct_error.

(** [struct.pack] of two of them. *)
Definition pack_II (l o : Z) : result bytes :=
  a <- pack_I l ;; b <- pack_I o ;; Ok (a ++ b).

(** A [dict]: the items in insertion order; assigning to a key that is
    present keeps its place. *)
Section Dict.
Variables (K V : Type) (eqb : K -> K -> bool).

Fixpoint dict_set (k : K) (v : V) (d : list (K * V)) : list (K * V) :=
  match d with
  | [] => [(k, v)]
  | (k', v') :: d' =>
      if eqb k k' then (k, v) :: d' else (k', v') :: dict_set k v d'
  end.

Fixpoint dict_get (k : K) (d : list (K * V)) : option V :=
  match d with
  | [] => None
  | (k', v') :: d' => if eqb k k' then Some v' else dict_get k d'
  end.

Definition dict_keys (d : list (K * V)) : list K := map fst d.
End Dict.

(** [sorted] on [bytes] keys. *)
Fixpoint insert_sorted (k : bytes) (l : list bytes) : list bytes :=
  match l with
  | [] => [k]
  | x :: l' => if bytes_leb k x then k :: l else x :: insert_sorted k l'
  end.

Definition sorted (l : list bytes) : list bytes :=
  fold_right insert_sorted [] l.

(** The codecs of the Python library: [s.encode(charset)] and
    [b.decode(charset)], [None] when they raise (an unknown charset
    included), and the UTF-8 decoder with [errors=replace]. *)
Class Codecs : Type := {
  str_encode : str -> str -> option bytes;
  bytes_decode : str -> bytes -> option str;
  decode_utf8_replace : bytes -> str
}.

Section MoCodec.
Context {CD : Codecs}.

(** ** [read_mo] *)

(** [read_table(off)], from index [i] for [count] more entries. *)
Fixpoint read_table_loop (e : endian) (data : bytes) (off i : Z)
  (count : nat) : result (list (Z * Z)) :=
  match count with
  | O => Ok []
  | S c =>
      lo <- unpack e 2 (slice data (off + i * 8) (off + i * 8 + 8)) ;;
      match lo with
      | [l; o] =>
          out <- read_table_loop e data off (i + 1) c ;;
          Ok ((l, o) :: out)
      | _ => Raise struct_error
      end
  end.

Definition read_table (e : endian) (data : bytes) (n off : Z)
  : result (list (Z * Z)) :=
  read_table_loop e data off 0 (Z.to_nat n).

(** The loop over [zip(orig_table, trans_table)]. *)
Definition raw_pairs_of (data : bytes) (orig_table trans_table : list (Z * Z))
  : list (bytes * bytes) :=
  map (fun p : (Z * Z) * (Z * Z) =>
         let '((ol, oo), (tl, to)) := p in
         (slice data oo (oo + ol), slice data to (to + tl)))
      (combine orig_table trans_table).

(** The translated bytes of the first pair whose original is empty. *)
Fixpoint find_header (raw_pairs : list (bytes * bytes)) : option bytes :=
  match raw_pairs with
  | [] => None
  | (o, t) :: rest =>
      match o with
      | [] => Some t
      | _ => find_header rest
      end
  end.

(** The inner [decode]. *)
Definition decode (header_charset : str) (b : bytes) : str :=
  match bytes_decode header_charset b with
  | Some s => s
  | None => decode_utf8_replace b
  end.

(** The entry built from one decoded pair. *)
Definition entry_of_strings (msgid_raw msgstr_raw : str) : PoEntry str :=
  let '(msgctxt, msgid) :=
    match split1 EOT msgid_raw with
    | Some (c, i) => (Some c, i)
    | None => (None, msgid_raw)
    end in
  let '(msgid, msgid_plural) :=
    match split1 NUL msgid with
    | Some (i, p) => (i, Some p)
    | None => (msgid, None)
    end in
  let msgstr_parts :=
    if mem NUL msgstr_raw then split NUL msgstr_raw else [msgstr_raw] in
  mkPoEntry msgctxt msgid msgid_plural msgstr_parts.

(** The start of [read_mo]: the checks on the 28-byte header, which
    give the byte order, [n], [off_orig] and [off_trans]. *)
Definition read_header (data : bytes) : result (endian * Z * Z * Z) :=
  if len data <? 28 then Raise ValueError_too_small
  else
    magic_le <- unpack LittleEndian 1 (slice data 0 4) ;;
    magic_be <- unpack BigEndian 1 (slice data 0 4) ;;
    e <- (if hd 0 magic_le =? 2500072158 then Ok LittleEndian
          else if hd 0 magic_be =? 2500072158 then Ok BigEndian
          else Raise ValueError_bad_magic) ;;
    fields <- unpack e 6 (slice data 4 28) ;;
    match fields with
    | [revision; n; off_orig; off_trans; _hash_size; _hash_off] =>
        if negb (revision =? 0) then Raise (ValueError_revision revision)
        else Ok (e, n, off_orig, off_trans)
    | _ => Raise struct_error
    end.

(** [read_mo] up to [raw_pairs]. *)
Definition read_raw_pairs (data : bytes) : result (list (bytes * bytes)) :=
  h <- read_header data ;;
  let '(e, n, off_orig, off_trans) := h in
  orig_table <- read_table e data n off_orig ;;
  trans_table <- read_table e data n off_trans ;;
  Ok (raw_pairs_of data orig_table trans_table).

(** The part of [read_mo] after [raw_pairs]. *)
Definition entries_of_raw_pairs (raw_pairs : list (bytes * bytes))
  : str * list (PoEntry str) :=
  let header_charset :=
    match find_header raw_pairs with
    | Some header_msgstr_bytes =>
        _detect_charset_from_header (decode_utf8_replace header_msgstr_bytes)
    | None => str_of "utf-8"
    end in
  (header_charset,
   map (fun p : bytes * bytes =>
          entry_of_strings (decode header_charset (fst p))
                           (decode header_charset (snd p)))
       raw_pairs).

(** [read_mo] on the bytes that [path.read_bytes] returns. *)
Definition read_mo (data : bytes) : result (str * list (PoEntry str)) :=
  raw_pairs <- read_raw_pairs data ;;
  Ok (entries_of_raw_pairs raw_pairs).

(** ** [write_mo] *)

(** The inner [enc]. *)
Definition enc (charset : str) (s : str) : result bytes :=
  match str_encode charset s with
  | Some b => Ok b
  | None =>
      match str_encode (str_of "utf-8") s with
      | Some b => Ok b
      | None => Raise UnicodeEncodeError
      end
  end.

Definition has_header (entries : list (PoEntry str)) : bool :=
  existsb (fun e => str_eqb (msgid e) []) entries.

Definition synthetic_header : PoEntry str :=
  mkPoEntry None [] None
    [str_of "Content-Type: text/plain; charset=UTF-8" ++ [LF]].

(** The string [key] of an entry. *)
Definition key_string (e : PoEntry str) : str :=
  let key :=
    match msgctxt e with
    | Some c => c ++ [EOT] ++ msgid e
    | None => msgid e
    end in
  match msgid_plural e with
  | Some p => key ++ [NUL] ++ p
  | None => key
  end.

(** The string [val] of an entry. *)
Definition val_string (e : PoEntry str) : str :=
  match msgid_plural e with
  | Some _ => join [NUL] (msgstr e)
  | None => hd [] (msgstr e)
  end.

(** The loop that fills [by_key]. *)
Fixpoint fill_by_key (charset : str) (entries : list (PoEntry str))
  (by_key : list (bytes * bytes)) : result (list (bytes * bytes)) :=
  match entries with
  | [] => Ok by_key
  | e :: rest =>
      k <- enc charset (key_string e) ;;
      v <- enc charset (val_string e) ;;
      fill_by_key charset rest (dict_set bytes_eqb k v by_key)
  end.

Definition align4 (x : Z) : Z := Z.land (x + 3) (Z.lnot 3).

(** The state of the two layout loops. *)
Record layout : Type := mkLayout {
  pool : bytes;
  cur_off : Z;
  offsets : list (Z * Z)
}.

(** One iteration: pad to the aligned offset, record [(len, offset)],
    append the string and its terminator. *)
Definition place (string_pool_off : Z) (st : layout) (k : bytes) : layout :=
  let cur_off := align4 (cur_off st) in
  let pool :=
    if len (pool st) <? cur_off - string_pool_off
    then pool st
         ++ repeat x00 (Z.to_nat (cur_off - string_pool_off - len (pool st)))
    else pool st in
  mkLayout (pool ++ k ++ [x00]) (cur_off + len k + 1)
           (offsets st ++ [(len k, cur_off)]).

(** The loops that pack the pairs of [offsets] into [out]. *)
Fixpoint pack_table (offsets : list (Z * Z)) : result bytes :=
  match offsets with
  | [] => Ok []
  | (l, o) :: rest =>
      b <- pack_II l o ;; bs <- pack_table rest ;; Ok (b ++ bs)
  end.

(** [by_key[k]]; every [k] asked for is a key of [by_key]. *)
Definition by_key_get (by_key : list (bytes * bytes)) (k : bytes) : bytes :=
  match dict_get bytes_eqb k by_key with
  | Some v => v
  | None => []
  end.

(** [write_mo] from [keys = sorted(by_key.keys())] on: the layout of
    the tables and the pool, and the packing. *)
Definition write_mo_bytes (by_key : list (bytes * bytes)) : result bytes :=
  let keys := sorted (dict_keys by_key) in
  let values := map (by_key_get by_key) keys in
  let n := len keys in
  let header_size := 28 in
  let orig_table_off := header_size in
  let trans_table_off := orig_table_off + n * 8 in
  let string_pool_off := trans_table_off + n * 8 in
  let st_o :=
    fold_left (place string_pool_off) keys (mkLayout [] string_pool_off []) in
  let st_t :=
    fold_left (place string_pool_off) values
              (mkLayout (pool st_o) (cur_off st_o) []) in
  h0 <- pack_I 2500072158 ;;
  h1 <- pack_I 0 ;;
  h2 <- pack_I n ;;
  h3 <- pack_I orig_table_off ;;
  h4 <- pack_I trans_table_off ;;
  h5 <- pack_I 0 ;;
  h6 <- pack_I 0 ;;
  table_o <- pack_table (offsets st_o) ;;
  table_t <- pack_table (offsets st_t) ;;
  Ok (h0 ++ h1 ++ h2 ++ h3 ++ h4 ++ h5 ++ h6 ++ table_o ++ table_t
      ++ pool st_t).

(** The entries [write_mo] encodes: a header entry is put in front
    when none has an empty [msgid]. *)
Definition with_header (entries : list (PoEntry str)) : list (PoEntry str) :=
  if has_header entries then entries else synthetic_header :: entries.

(** The bytes [write_mo] hands to [path.write_bytes]. *)
Definition write_mo (entries : list (PoEntry str)) (charset : str)
  : result bytes :=
  by_key <- fill_by_key charset (with_header entries) [] ;;
  write_mo_bytes by_key.

End MoCodec.

(** * missing_translations.py *)

Definition entry_key : Type := option str * str * option str.

Definition _entry_key (entry : PoEntry str) : entry_key :=
  (msgctxt entry, msgid entry, msgid_plural entry).

Definition opt_str_eqb (a b : option str) : bool :=
  match a, b with
  | None, None => true
  | Some x, Some y => str_eqb x y
  | _, _ => false
  end.

(** Equality of two keys, as the dictionary compares them. *)
Definition entry_key_eqb (a b : entry_key) : bool :=
  let '(c1, i1, p1) := a in
  let '(c2, i2, p2) := b in
  opt_str_eqb c1 c2 && str_eqb i1 i2 && opt_str_eqb p1 p2.

(** [[p or e for p in parts]] with [e] the empty string. *)
Definition _normalize_msgstr (parts : list str) : list str :=
  map (fun p : str => match p with [] => [] | _ => p end) parts.

Definition _is_missing_translation (en_entry pt_entry : PoEntry str) : bool :=
  if str_eqb (msgid pt_entry) [] then false
  else
    let en_msgstr := _normalize_msgstr (msgstr en_entry) in
    let pt_msgstr := _normalize_msgstr (msgstr pt_entry) in
    if match pt_msgstr with [] => true | _ => false end
       || forallb (fun s => str_eqb (strip s) []) pt_msgstr
    then true
    else
      let max_len := Nat.max (List.length en_msgstr) (List.length pt_msgstr) in
      let en_msgstr :=
        en_msgstr ++ repeat [] (max_len - List.length en_msgstr) in
      let pt_msgstr :=
        pt_msgstr ++ repeat [] (max_len - List.length pt_msgstr) in
      forallb (fun p : str * str => str_eqb (fst p) (snd p))
              (combine pt_msgstr en_msgstr).

(** The dictionary [en_by_key] of [main]. *)
Definition en_by_key (en_entries : list (PoEntry str))
  : list (entry_key * PoEntry str) :=
  fold_left
    (fun d e =>
       if str_eqb (msgid e) [] then d
       else dict_set entry_key_eqb (_entry_key e) e d)
    en_entries [].

(** The loop of [main] over [pt_entries]: the pairs a block is written
    for, in order; [missing_count] is their number. *)
Definition missing_pairs (en_entries pt_entries : list (PoEntry str))
  : list (PoEntry str * PoEntry str) :=
  let d := en_by_key en_entries in
  flat_map
    (fun pt_entry =>
       if str_eqb (msgid pt_entry) [] then []
       else match dict_get entry_key_eqb (_entry_key pt_entry) d with
            | None => []
            | Some en_entry =>
                if _is_missing_translation en_entry pt_entry
                then [(en_entry, pt_entry)] else []
            end)
    pt_entries.

(** * Codecs to run examples with

    A 7-bit stand-in for the library codecs: it knows utf-8 and ascii
    by a few spellings, and on 7-bit data both are the identity, as in
    CPython.  Outside 7 bits its strict operations raise and its
    replacing decoder writes U+FFFD for each byte; the examples stay
    inside. *)

Definition charset_known (name : str) : bool :=
  existsb (str_eqb name)
    [str_of "utf-8"; str_of "UTF-8"; str_of "utf8"; str_of "ascii";
     str_of "ASCII"; str_of "us-ascii"].

Definition ascii_encode (s : str) : option bytes :=
  if forallb (fun c => (c <? 128)%N) s
  then Some (map (fun c => byte_of_Z (Z.of_N c)) s)
  else None.

Definition ascii_decode (b : bytes) : option str :=
  if forallb (fun x => byte_val x <? 128) b
  then Some (map Byte.to_N b)
  else None.

Definition example_codecs : Codecs :=
  {| str_encode := fun charset s =>
       if charset_known charset then ascii_encode s else None;
     bytes_decode := fun charset b =>
       if charset_known charset then ascii_decode b else None;
     decode_utf8_replace :=
       map (fun x => if byte_val x <? 128 then Byte.to_N x else 65533%N) |}.

Local Open Scope N_scope.

(** * Files and the commands

    ** [path.read_text]

    A file opened for reading in text mode has its line ends
    translated: a carriage return, with the newline that follows it if
    there is one, is read as one newline. *)

Fixpoint universal_newlines (s : str) : str :=
  match s with
  | [] => []
  | c :: s' =>
      if c =? CR then
        LF :: match s' with
              | d :: s'' =>
                  if d =? LF then universal_newlines s''
                  else universal_newlines s'
              | [] => []
              end
      else c :: universal_newlines s'
  end.

(** [path.read_text(encoding=utf-8, errors=replace)] on the bytes of
    the file. *)
Definition read_text {CD : Codecs} (data : bytes) : str :=
  universal_newlines (decode_utf8_replace data).

(** ** [path.write_text(text, encoding=utf-8)]: the bytes written *)
Definition write_text {CD : Codecs} (text : str) : result bytes :=
  match str_encode (str_of "utf-8") text with
  | Some b => Ok b
  | None => Raise UnicodeEncodeError
  end.

(** ** [main] of mo_convert.py

    The parser admits the two commands only; each reads one file and
    writes one. *)

(** [to-po]: the bytes written to [output_po] from those of
    [input_mo]. *)
Definition main_to_po {CD : Codecs} (input_mo : bytes) : result bytes :=
  r <- read_mo input_mo ;;
  let '(_charset, entries) := r in
  write_text (write_po entries).

(** The entries [read_po] returns as the [PoEntry] of [str] fields that
    [write_mo] is written for: [None] when a field holds a tuple. *)
Definition as_str (v : pyval) : option str :=
  match v with
  | VStr s => Some s
  | VTuple _ => None
  end.

Definition opt_as_str (x : option pyval) : option (option str) :=
  match x with
  | None => Some None
  | Some v => option_map Some (as_str v)
  end.

Fixpoint all_as_str (l : list pyval) : option (list str) :=
  match l with
  | [] => Some []
  | v :: l' =>
      match as_str v, all_as_str l' with
      | Some s, Some ss => Some (s :: ss)
      | _, _ => None
      end
  end.

Definition entry_as_str (e : PoEntry pyval) : option (PoEntry str) :=
  match opt_as_str (msgctxt e), as_str (msgid e),
        opt_as_str (msgid_plural e), all_as_str (msgstr e) with
  | Some c, Some i, Some p, Some m => Some (mkPoEntry c i p m)
  | _, _, _, _ => None
  end.

Fixpoint entries_as_str (es : list (PoEntry pyval))
  : option (list (PoEntry str)) :=
  match es with
  | [] => Some []
  | e :: es' =>
      match entry_as_str e, entries_as_str es' with
      | Some e', Some l => Some (e' :: l)
      | _, _ => None
      end
  end.

(** [to-mo]: the bytes written to [output_mo] from those of [input_po],
    for the runs in which every field that [read_po] returns is a
    [str]; [None] stands for the other runs, which are not modelled. *)
Definition main_to_mo {LE : LiteralEval} {UD : UnicodeDigits} {CD : Codecs}
  (input_po : bytes) : option (result bytes) :=
  match read_po (read_text input_po) with
  | Raise e => Some (Raise e)
  | Ok (charset, entries) =>
      match entries_as_str entries with
      | Some typed => Some (write_mo typed charset)
      | None => None
      end
  end.

(** * The report of missing_translations.py *)

(** The lines of the loop over [zip(en_msgstr, pt_msgstr)], from index
    [i]. *)
Fixpoint plural_lines (i : nat) (pairs : list (str * str)) : list str :=
  match pairs with
  | [] => []
  | (en_s, pt_s) :: rest =>
      (str_of "en.msgstr[" ++ decimal i ++ str_of "]: " ++ en_s)
      :: (str_of "pt.msgstr[" ++ decimal i ++ str_of "]: " ++ pt_s)
      :: plural_lines (S i) rest
  end.

Definition _format_missing (en_entry pt_entry : PoEntry str) : str :=
  let lines := [str_of "msgid: " ++ msgid en_entry] in
  let lines :=
    match msgctxt en_entry with
    | Some c => lines ++ [str_of "msgctxt: " ++ c]
    | None => lines
    end in
  let lines :=
    match msgid_plural en_entry with
    | Some p => lines ++ [str_of "msgid_plural: " ++ p]
    | None => lines
    end in
  let en_msgstr := _normalize_msgstr (msgstr en_entry) in
  let pt_msgstr := _normalize_msgstr (msgstr pt_entry) in
  let lines :=
    match msgid_plural en_entry with
    | Some _ => lines ++ plural_lines 0 (combine en_msgstr pt_msgstr)
    | None =>
        lines ++ [str_of "en.msgstr: " ++ hd [] en_msgstr;
                  str_of "pt.msgstr: " ++ hd [] pt_msgstr]
    end in
  join [LF] lines.

(** [main] from the two entry lists on: the text written to [out] and
    [missing_count]. *)
Definition report (en_entries pt_entries : list (PoEntry str)) : str * nat :=
  let pairs := missing_pairs en_entries pt_entries in
  let missing_blocks :=
    map (fun p : PoEntry str * PoEntry str => _format_missing (fst p) (snd p))
        pairs in
  (join [LF; LF] missing_blocks
   ++ (match missing_blocks with [] => [] | _ => [LF] end),
   List.length pairs).

(** ** The report on the entries as [read_po] returns them

    [main] hands the entries of [read_po] to the loop as they are: a
    field is a [str] or a tuple.  Both are hashable and both compare
    with anything, so the dictionary and the comparisons work on them;
    [strip] is a method of [str] only. *)
















(** * Vocabulary of the statements *)

Local Open Scope N_scope.

(** ** Escaping *)

(** What [_po_escape] writes for one character. *)
Definition escape_char (c : N) : str :=
  if c =? BSL then [BSL; BSL]
  else if c =? DQ then [BSL; DQ]
  else if c =? TAB then [BSL; 116]
  else if c =? CR then [BSL; 114]
  else if c =? LF then [BSL; 110]
  else [c].

(** The characters a Python source can hold inside a literal once
    escaped: all but NUL and the surrogates. *)
Definition clean_char (c : N) : bool := negb ((c =? NUL) || is_surrogate c).

Definition clean (s : str) : Prop := Forall (fun c => clean_char c = true) s.

(** ** The report *)

(** A blank string, and padding with empty strings up to a length. *)
Definition blank (s : str) : Prop := strip s = [].

Definition pad (n : nat) (l : list str) : list str :=
  l ++ repeat [] (n - List.length l).

Local Open Scope Z_scope.

(** ** Reading an MO file *)

(** The header fields as the statements below name them: the
    32-bit word at a byte position, bytes past the end read as zero. *)
Definition word_at (e : endian) (data : bytes) (i : nat) : Z :=
  word_of_bytes e (nth i data x00) (nth (i + 1) data x00)
                (nth (i + 2) data x00) (nth (i + 3) data x00).

Definition mo_endian (data : bytes) : option endian :=
  if word_at LittleEndian data 0 =? 2500072158 then Some LittleEndian
  else if word_at BigEndian data 0 =? 2500072158 then Some BigEndian
  else None.

Definition too_small (data : bytes) : Prop := len data < 28.

Definition bad_magic (data : bytes) : Prop := mo_endian data = None.

Definition revision_nonzero (data : bytes) : Prop :=
  exists e, mo_endian data = Some e /\ word_at e data 4 <> 0.

(** Both tables lie inside the buffer. *)
Definition tables_fit (data : bytes) : Prop :=
  exists e, mo_endian data = Some e
    /\ (word_at e data 8 = 0
        \/ (word_at e data 12 + 8 * word_at e data 8 <= len data
            /\ word_at e data 16 + 8 * word_at e data 8 <= len data)).

Definition is_ValueError (e : exn) : bool :=
  match e with
  | ValueError_too_small | ValueError_bad_magic | ValueError_revision _ => true
  | _ => false
  end.

(** ** The layout of an MO file *)

(** [pool] holds the bytes from [string_pool_off] up to [cur_off]. *)
Definition pool_inv (string_pool_off : Z) (st : layout) : Prop :=
  len (pool st) = cur_off st - string_pool_off.

(** The pair [(l, o)] of a table locates the string [k] in the pool, at
    an aligned offset. *)
Definition placed (string_pool_off : Z) (pool : bytes) (k : bytes)
  (lo : Z * Z) : Prop :=
  fst lo = len k /\ snd lo mod 4 = 0 /\ string_pool_off <= snd lo
  /\ slice pool (snd lo - string_pool_off) (snd lo - string_pool_off + fst lo)
     = k.

(** ** The order of the keys *)

(** Strictly less in the byte-lexicographic order. *)
Definition bytes_lt (a b : bytes) : Prop := bytes_leb a b = true /\ a <> b.

Definition bytes_le (a b : bytes) : Prop := bytes_leb a b = true.

Local Open Scope N_scope.

(** ** The MO round trip *)

(** The entries that the key and value strings determine: the context
    holds no U+0004; without a context neither the id nor the plural id
    does; the id holds no U+0000; no translation holds U+0000; a
    singular entry has one translation and a plural entry at least
    one. *)
Definition wf_entry (e : PoEntry str) : Prop :=
  match msgctxt e with
  | Some c => ~ In EOT c
  | None =>
      ~ In EOT (msgid e)
      /\ match msgid_plural e with
         | Some p => ~ In EOT p
         | None => True
         end
  end
  /\ ~ In NUL (msgid e)
  /\ Forall (fun s => ~ In NUL s) (msgstr e)
  /\ match msgid_plural e with
     | Some _ => msgstr e <> []
     | None => exists s, msgstr e = [s]
     end.

Section MoWords.
Context {CD : Codecs}.

(** The charset [read_mo] resolves in a file made from [by_key]: what
    the Charset Resolver reads in the bytes stored under the empty key,
    decoded as UTF-8 with replacement. *)
Definition declared_charset (by_key : list (bytes * bytes)) : str :=
  match dict_get bytes_eqb [] by_key with
  | Some header_msgstr_bytes =>
      _detect_charset_from_header (decode_utf8_replace header_msgstr_bytes)
  | None => str_of "utf-8"
  end.

Definition header_charset_of (charset : str) (entries : list (PoEntry str))
  : str :=
  match fill_by_key charset (with_header entries) [] with
  | Ok by_key => declared_charset by_key
  | Raise _ => str_of "utf-8"
  end.

(** The bytes [enc] gives for [s] under [charset] decode back to [s]
    under [header_charset]. *)
Definition codec_roundtrip (charset header_charset : str) (s : str) : Prop :=
  forall b, enc charset s = Ok b -> decode header_charset b = s.

(** An entry and the dictionary item made from it. *)
Definition encodes (charset : str) (e : PoEntry str) (kv : bytes * bytes)
  : Prop :=
  enc charset (key_string e) = Ok (fst kv)
  /\ enc charset (val_string e) = Ok (snd kv).

End MoWords.

(** ** The PO round trip *)

(** The characters [write_po] writes so that [read_po] reads them back:
    no NUL and no surrogate, which the literal evaluator refuses, and
    none of the line boundaries of [splitlines] that [_po_escape]
    leaves as they are. *)
Definition po_char (c : N) : bool :=
  clean_char c && negb (mem c [11; 12; 28; 29; 30; 133; 8232; 8233]).

Definition po_str (s : str) : Prop := Forall (fun c => po_char c = true) s.

(** The entries [write_po] writes in full: a singular entry has exactly
    one translation. *)
Definition po_wf (e : PoEntry str) : Prop :=
  match msgctxt e with
  | Some c => po_str c
  | None => True
  end
  /\ po_str (msgid e)
  /\ match msgid_plural e with
     | Some p => po_str p
     | None => exists s, msgstr e = [s]
     end
  /\ Forall po_str (msgstr e).

Definition no_break (s : str) : Prop :=
  Forall (fun c => is_linebreak c = false) s.

Ltac eval_startswith :=
  repeat match goal with
         | |- context [startswith ?a ?b] =>
             let v := eval vm_compute in (startswith a b) in
             change (startswith a b) with v
         end.

(** The strings whose quoted forms [_po_quote] returns: the parts of
    [s.split(LF)], each but the last with its newline. *)
Fixpoint pieces (parts : list str) : list str :=
  match parts with
  | [] => []
  | [part] => [part]
  | part :: rest => (part ++ [LF]) :: pieces rest
  end.

Definition po_pieces (s : str) : list str :=
  match s with
  | [] => [[]]
  | _ => pieces (split LF s)
  end.

Definition lit (p : str) : str := quoted (_po_escape p).

(** The assignment a directive line makes to [cur]. *)
Definition assign (k : active) (v : pyval) (c : PoEntry pyval)
  : PoEntry pyval :=
  match k with
  | A_msgctxt => mkPoEntry (Some v) (msgid c) (msgid_plural c) (msgstr c)
  | A_msgid => mkPoEntry (msgctxt c) v (msgid_plural c) (msgstr c)
  | A_msgid_plural => mkPoEntry (msgctxt c) (msgid c) (Some v) (msgstr c)
  | A_msgstr idx =>
      mkPoEntry (msgctxt c) (msgid c) (msgid_plural c)
                (list_set idx v (pad_to idx (msgstr c)))
  end.

(** The directive text that makes [k] the active key. *)
Inductive kw_for : active -> str -> Prop :=
| kw_msgctxt : kw_for A_msgctxt (str_of "msgctxt ")
| kw_msgid : kw_for A_msgid (str_of "msgid ")
| kw_msgid_plural : kw_for A_msgid_plural (str_of "msgid_plural ")
| kw_msgstr : kw_for (A_msgstr 0) (str_of "msgstr ")
| kw_msgstr_index i :
    kw_for (A_msgstr i) (str_of "msgstr[" ++ decimal i ++ str_of "] ").

(** ** Values of type str *)

(** The fields of an entry are all of type [str]. *)
Definition is_str (v : pyval) : Prop := exists s, v = VStr s.

Definition str_fields (c : PoEntry pyval) : Prop :=
  (forall v, msgctxt c = Some v -> is_str v)
  /\ is_str (msgid c)
  /\ (forall v, msgid_plural c = Some v -> is_str v)
  /\ Forall is_str (msgstr c).

Definition str_cur (st : po_state) : Prop :=
  forall c, cur st = Some c -> str_fields c.

(** ** Entries of str fields as values *)




(** ** Example data *)

(** The header of a catalog as gettext tools write it. *)
Definition standard_header : str :=
  str_of "Content-Type: text/plain; charset=UTF-8" ++ [LF]
  ++ str_of "Content-Transfer-Encoding: 8bit" ++ [LF].

(** A [msgid] line whose literal is a tuple, and a continuation line. *)
Definition tuple_text : str :=
  str_of "msgid " ++ quoted (str_of "a") ++ str_of ", " ++ quoted (str_of "b")
  ++ [LF] ++ quoted (str_of "c") ++ [LF].

Definition entry_without_msgstr : PoEntry str :=
  mkPoEntry None (str_of "a") None [].

Definition po_example : list (PoEntry str) :=
  [ mkPoEntry None [] None
      [str_of "Content-Type: text/plain; charset=utf-8" ++ [LF]];
    mkPoEntry (Some (str_of "menu")) (str_of "Open" ++ [TAB; DQ; BSL])
              None [str_of "Abrir"];
    mkPoEntry None (str_of "%d cat") (Some (str_of "%d cats"))
              [str_of "%d gato"; str_of "%d gatos" ++ [LF] ++ str_of "x"; []] ].

(** A 28-byte file: the magic, revision 0 and one entry, whose tables
    would start where the file ends. *)
Definition header_only_mo : bytes :=
  map byte_of_Z [222; 18; 4; 149;  0; 0; 0; 0;  1; 0; 0; 0;
                 28; 0; 0; 0;  36; 0; 0; 0;  0; 0; 0; 0;  0; 0; 0; 0]%Z.

(** A file of one entry whose original string lies past the end of the
    buffer and whose translation reaches past it. *)
Definition out_of_range_mo : bytes :=
  map byte_of_Z [222; 18; 4; 149;  0; 0; 0; 0;  1; 0; 0; 0;
                 28; 0; 0; 0;  36; 0; 0; 0;  0; 0; 0; 0;  0; 0; 0; 0;
                 5; 0; 0; 0;  100; 0; 0; 0;
                 10; 0; 0; 0;  44; 0; 0; 0;
                 104; 105]%Z.

Definition mo_example : list (PoEntry str) :=
  [ mkPoEntry (Some (str_of "menu")) (str_of "Open") None [str_of "Abrir"];
    mkPoEntry None [] None
      [str_of "Content-Type: text/plain; charset=utf-8" ++ [LF]];
    mkPoEntry None (str_of "%d cat") (Some (str_of "%d cats"))
              [str_of "%d gato"; str_of "%d gatos"] ].

Definition en_example : list (PoEntry str) :=
  [ mkPoEntry None (str_of "cat") (Some (str_of "cats"))
              [str_of "cat"; str_of "cats"];
    mkPoEntry None (str_of "Open") None [str_of "Open"] ].




(** * Vocabulary of the further properties *)

Local Open Scope N_scope.

(** ** Escaped characters *)

(** The five characters [_po_escape] rewrites. *)
Definition special (c : N) : bool := mem c [BSL; DQ; TAB; CR; LF].

(** ** Lines, charsets and written entries *)

(** A line [read_po] passes over: a comment, or a line that starts
    with none of the keywords and not with a double quote. *)
Definition passed_over (raw : str) : Prop :=
  startswith (strip raw) (str_of "#") = true
  \/ (strip raw <> []
      /\ startswith (strip raw) (str_of "msgctxt") = false
      /\ startswith (strip raw) (str_of "msgid") = false
      /\ startswith (strip raw) (str_of "msgstr") = false
      /\ startswith (strip raw) [DQ] = false).

(** The charset [flush] keeps when it stores entry [e]. *)
Definition header_step (h : str) (e : PoEntry pyval) : str :=
  match msgstr e with
  | VStr s :: _ =>
      if is_empty_str (msgid e) then _detect_charset_from_header s else h
  | _ => h
  end.

(** The charset of a sequence of entries: that of the last entry with
    an empty [msgid] and a first translation, utf-8 when there is
    none. *)
Definition po_charset (es : list (PoEntry pyval)) : str :=
  fold_left header_step es (str_of "utf-8").

(** The entry [write_po] writes for [e]: of an entry without
    [msgid_plural] only the first translation is written, the empty
    string when there is none. *)
Definition written_entry (e : PoEntry str) : PoEntry str :=
  match msgid_plural e with
  | Some _ => e
  | None => mkPoEntry (msgctxt e) (msgid e) None [hd [] (msgstr e)]
  end.

(** All the strings of an entry are free of NUL, surrogates and the
    line boundaries that are written as they are. *)
Definition po_strs (e : PoEntry str) : Prop :=
  match msgctxt e with
  | Some c => po_str c
  | None => True
  end
  /\ po_str (msgid e)
  /\ match msgid_plural e with
     | Some p => po_str p
     | None => True
     end
  /\ Forall po_str (msgstr e).

Definition no_tab_cr (s : str) : Prop :=
  Forall (fun c => c <> TAB /\ c <> CR) s.

Local Open Scope Z_scope.

(** ** The terminator of a string *)

(** The byte after the string that the pair [(l, o)] locates in the
    pool is a zero byte. *)
Definition terminated (P : Z) (pool : bytes) (lo : Z * Z) : Prop :=
  0 <= fst lo /\ P <= snd lo
  /\ slice pool (snd lo - P + fst lo) (snd lo - P + fst lo + 1) = [x00].

Local Open Scope N_scope.

(** ** Entries and keys of an MO file *)

(** The shape of an entry made from two strings of an MO file: it has
    a translation, no translation and no [msgid] holds U+0000, a
    context holds no U+0004, and without a context neither [msgid] nor
    [msgid_plural] holds one. *)
Definition mo_shaped (e : PoEntry str) : Prop :=
  msgstr e <> []
  /\ Forall (fun s => ~ In NUL s) (msgstr e)
  /\ ~ In NUL (msgid e)
  /\ match msgctxt e with
     | Some c => ~ In EOT c
     | None =>
         ~ In EOT (msgid e)
         /\ match msgid_plural e with
            | Some p => ~ In EOT p
            | None => True
            end
     end.

(** The text before the first U+0000. *)
Definition before_NUL (s : str) : str :=
  take_while (fun c => negb (c =? NUL)) s.

Section StoredPairs.
Context {CD : Codecs}.

(** Entry [e] does not have the encoded key [k]. *)
Definition other_key (charset : str) (k : bytes) (e : PoEntry str) : Prop :=
  enc charset (key_string e) <> Ok k.

(** [k] and [v] are the encoded key and value of an entry of [es] after
    which no entry of [es] has the key [k]. *)
Definition last_with_key (charset : str) (es : list (PoEntry str))
  (k v : bytes) : Prop :=
  exists l1 e l2,
    es = l1 ++ e :: l2
    /\ enc charset (key_string e) = Ok k
    /\ enc charset (val_string e) = Ok v
    /\ Forall (other_key charset k) l2.

End StoredPairs.

(** ** The loop of the report *)

Definition is_header (e : PoEntry str) : bool := str_eqb (msgid e) [].

(** What the loop of [main] decides for one target entry. *)
Definition reported (en_entries : list (PoEntry str)) (pt_entry : PoEntry str)
  : bool :=
  negb (is_header pt_entry)
  && match dict_get entry_key_eqb (_entry_key pt_entry)
                    (en_by_key en_entries) with
     | Some en_entry => _is_missing_translation en_entry pt_entry
     | None => false
     end.

(** [e] with one more translation, the empty string. *)
Definition with_empty_translation (e : PoEntry str) : PoEntry str :=
  mkPoEntry (msgctxt e) (msgid e) (msgid_plural e) (msgstr e ++ [[]]).

(** ** Entries that can be encoded *)

Section Encodable.
Context {CD : Codecs}.

(** Both strings of the entry can be encoded. *)
Definition encodable (charset : str) (e : PoEntry str) : Prop :=
  (exists k, enc charset (key_string e) = Ok k)
  /\ (exists v, enc charset (val_string e) = Ok v).

End Encodable.

(** ** Literals of a line *)

(** The entries stored and the entry under construction hold only
    [str] fields. *)
Definition str_state (st : po_state) : Prop :=
  str_cur st /\ Forall str_fields (entries st).

(** A check of [literals_are_str] by evaluation. *)
Definition is_strb (v : pyval) : bool :=
  match v with
  | VStr _ => true
  | VTuple _ => false
  end.

Section LineLiterals.
Context {LE : LiteralEval} {UD : UnicodeDigits}.

(** No text that [read_po] can take for a literal on the line [raw]
    evaluates to a tuple: neither the stripped line, nor what follows a
    start of it. *)
Definition literals_are_str (raw : str) : Prop :=
  forall n, is_str (_parse_po_string_literal (strip (skipn n (strip raw))))
            /\ is_str (_parse_po_string_literal (skipn n (strip raw))).

(** The index of a [msgstr[N]] line has no more digits than [int]
    converts: 4300. *)
Definition index_within_limit (raw : str) : Prop :=
  match match_msgstr_index (strip raw) with
  | Some (ds, _) => (List.length ds <= 4300)%nat
  | None => True
  end.

Definition literals_are_strb (raw : str) : bool :=
  forallb
    (fun n =>
       is_strb (_parse_po_string_literal (strip (skipn n (strip raw))))
       && is_strb (_parse_po_string_literal (skipn n (strip raw))))
    (seq 0 (S (List.length (strip raw)))).

Definition index_within_limitb (raw : str) : bool :=
  match match_msgstr_index (strip raw) with
  | Some (ds, _) => (List.length ds <=? 4300)%nat
  | None => true
  end.

End LineLiterals.

(** ** More example data *)

Definition two_lines : str := str_of "a" ++ [LF] ++ str_of "b".

Definition content_type_prefix : str := str_of "Content-Type: text/plain; ".

(** A comment between a keyword line and its continuation line. *)
Definition commented_text : str :=
  str_of "msgid " ++ quoted (str_of "a") ++ [LF] ++ str_of "# note" ++ [LF]
  ++ quoted (str_of "b") ++ [LF].

Definition uncommented_text : str :=
  str_of "msgid " ++ quoted (str_of "a") ++ [LF] ++ quoted (str_of "b")
  ++ [LF].

(** A catalog with an entry without translation and an entry without
    [msgid_plural] that has two. *)
Definition uneven_catalog : list (PoEntry str) :=
  [ mkPoEntry None (str_of "a") None [];
    mkPoEntry None (str_of "b") None [str_of "x"; str_of "y"] ].

(** A catalog with two entries of the same key. *)
Definition twice_catalog : list (PoEntry str) :=
  [ mkPoEntry None (str_of "Open") None [str_of "Abrir"];
    mkPoEntry None (str_of "Open") None [str_of "Aberto"] ].

Definition swapped_catalog : list (PoEntry str) :=
  [ mkPoEntry None (str_of "b") None [str_of "y"];
    mkPoEntry None (str_of "a") None [str_of "x"] ].

Definition straight_catalog : list (PoEntry str) :=
  [ mkPoEntry None (str_of "a") None [str_of "x"];
    mkPoEntry None (str_of "b") None [str_of "y"] ].

Local Open Scope N_scope.

(** * The example evaluator obeys the law of [LiteralEval] *)

Lemma simple_escape_clean e v :
  simple_escape e = Some v -> ((e =? NUL) || is_surrogate e) = false.
Proof.
  unfold simple_escape.
  repeat match goal with
         | |- context [if ?b then _ else _] =>
             let E := fresh "E" in destruct b eqn:E;
             [apply N.eqb_eq in E; subst; reflexivity|]
         end.
  discriminate.
Qed.

Lemma plain_char_clean c :
  plain_char c = true -> ((c =? NUL) || is_surrogate c) = false.
Proof.
  unfold plain_char, mem. cbn [existsb].
  intros H. apply andb_true_iff in H as [H1 H2].
  apply negb_true_iff in H1, H2. rewrite H2.
  apply orb_false_iff in H1 as [H1 _]. now rewrite H1.
Qed.

Lemma short_string_value_lex body : forall v r,
  short_string_value body = Some v ->
  lex_short (body ++ DQ :: r) = Some (v, r)
  /\ existsb (fun c => (c =? NUL) || is_surrogate c) body = false.
Proof.
  assert (Hgen : forall n body, (List.length body <= n)%nat -> forall v r,
    short_string_value body = Some v ->
    lex_short (body ++ DQ :: r) = Some (v, r)
    /\ existsb (fun c => (c =? NUL) || is_surrogate c) body = false).
  { clear body. induction n as [|n IH]; intros body Hlen v r Hv.
    - destruct body; [|cbn in Hlen; lia]. cbn in *. now inversion Hv.
    - destruct body as [|c rest]; [cbn in *; now inversion Hv|].
      cbn [short_string_value] in Hv. cbn [app lex_short existsb].
      destruct (c =? DQ) eqn:Edq.
      { apply N.eqb_eq in Edq; subst c. cbn in Hv. discriminate. }
      destruct (c =? BSL) eqn:Ebs.
      + apply N.eqb_eq in Ebs; subst c.
        destruct rest as [|e rest']; [discriminate|].
        destruct (simple_escape e) as [w|] eqn:Ee; [|discriminate].
        destruct (short_string_value rest') as [val|] eqn:Er; [|discriminate].
        inversion Hv; subst v.
        destruct (IH rest' ltac:(cbn in Hlen; lia) val r Er) as [IH1 IH2].
        cbn [app existsb]. rewrite Ee, IH1, IH2.
        rewrite (simple_escape_clean _ Ee). split; reflexivity.
      + destruct (plain_char c) eqn:Ep; [|discriminate].
        destruct (short_string_value rest) as [val|] eqn:Er; [|discriminate].
        cbn in Hv. inversion Hv; subst v.
        destruct (IH rest ltac:(cbn in Hlen; lia) val r Er) as [IH1 IH2].
        rewrite IH1, IH2, (plain_char_clean _ Ep). split; reflexivity. }
  intros v r. apply (Hgen (List.length body)). lia.
Qed.

Lemma py_literal_eval_short body v :
  short_string_value body = Some v ->
  py_literal_eval (quoted body) = Some (VStr v).
Proof.
  intros Hv. unfold py_literal_eval, quoted.
  destruct (short_string_value_lex body [] Hv) as [Hlex Hclean].
  cbn [existsb]. change ((DQ =? NUL) || is_surrogate DQ) with false.
  cbn [orb]. rewrite existsb_app, Hclean. cbn [existsb orb].
  change ((DQ =? NUL) || is_surrogate DQ) with false. cbn [orb].
  cbn [List.length tuple_items skip_blank lstrip_by mem existsb].
  change (DQ =? 32) with false. change (DQ =? 9) with false. cbn [orb].
  change (DQ =? DQ) with true. cbv iota.
  rewrite Hlex. reflexivity.
Qed.

Lemma ascii_decimal_value_ascii c :
  c < 128 ->
  ascii_decimal_value c
  = if (48 <=? c) && (c <=? 57) then Some (c - 48) else None.
Proof. reflexivity. Qed.

(** The instances used to run examples. *)
Definition example_literal_eval : LiteralEval :=
  {| literal_eval := py_literal_eval;
     literal_eval_short := py_literal_eval_short |}.

Definition example_digits : UnicodeDigits :=
  {| decimal_value := ascii_decimal_value;
     decimal_value_ascii := ascii_decimal_value_ascii |}.

Local Open Scope N_scope.

(** * Strings: stripping, escaping, quoting *)

Lemma str_eqb_eq a b : str_eqb a b = true <-> a = b.
Proof.
  revert b. induction a as [|x a IH]; destruct b as [|y b]; cbn;
    try (split; [discriminate|discriminate]); try tauto.
  rewrite andb_true_iff, N.eqb_eq, IH. split.
  - now intros [-> ->].
  - intros H. now inversion H.
Qed.

Lemma str_eqb_refl a : str_eqb a a = true.
Proof. now apply str_eqb_eq. Qed.

Lemma lstrip_by_keep f c s : f c = false -> lstrip_by f (c :: s) = c :: s.
Proof. intros H. cbn. now rewrite H. Qed.

Lemma rstrip_by_keep f s d : f d = false -> rstrip_by f (s ++ [d]) = s ++ [d].
Proof.
  intros H. unfold rstrip_by. rewrite rev_app_distr. cbn [rev app].
  rewrite lstrip_by_keep by assumption.
  change (d :: rev s) with ([d] ++ rev s).
  now rewrite rev_app_distr, rev_involutive.
Qed.

(** Stripping leaves a string alone whose first and last characters are
    not stripped. *)
Lemma strip_by_keep f c s d :
  f c = false -> f d = false -> strip_by f (c :: s ++ [d]) = c :: s ++ [d].
Proof.
  intros Hc Hd. unfold strip_by. rewrite lstrip_by_keep by assumption.
  change (c :: s ++ [d]) with ((c :: s) ++ [d]).
  now apply rstrip_by_keep.
Qed.

Lemma strip_quoted body : strip (quoted body) = quoted body.
Proof. apply strip_by_keep; reflexivity. Qed.

Lemma replace_app old new a b :
  replace old new (a ++ b) = replace old new a ++ replace old new b.
Proof. apply flat_map_app. Qed.

Lemma _po_escape_app a b : _po_escape (a ++ b) = _po_escape a ++ _po_escape b.
Proof. unfold _po_escape. now rewrite !replace_app. Qed.

Lemma _po_escape_char c : _po_escape [c] = escape_char c.
Proof.
  unfold _po_escape, escape_char, replace. cbn [flat_map app].
  destruct (c =? BSL) eqn:E1; [reflexivity|].
  cbn [flat_map app]. destruct (c =? DQ) eqn:E2; [reflexivity|].
  cbn [flat_map app]. destruct (c =? TAB) eqn:E3; [reflexivity|].
  cbn [flat_map app]. destruct (c =? CR) eqn:E4; [reflexivity|].
  cbn [flat_map app]. destruct (c =? LF) eqn:E5; reflexivity.
Qed.

Lemma _po_escape_cons c s : _po_escape (c :: s) = escape_char c ++ _po_escape s.
Proof.
  change (c :: s) with ([c] ++ s).
  now rewrite _po_escape_app, _po_escape_char.
Qed.

Lemma short_string_value_escape s :
  clean s -> short_string_value (_po_escape s) = Some s.
Proof.
  induction 1 as [|c s Hc Hs IH]; [reflexivity|].
  rewrite _po_escape_cons. unfold escape_char.
  destruct (c =? BSL) eqn:E1.
  { apply N.eqb_eq in E1; subst c. cbn [app short_string_value].
    change (BSL =? BSL) with true. cbv iota.
    change (simple_escape BSL) with (Some BSL). now rewrite IH. }
  destruct (c =? DQ) eqn:E2.
  { apply N.eqb_eq in E2; subst c. cbn [app short_string_value].
    change (BSL =? BSL) with true. cbv iota.
    change (simple_escape DQ) with (Some DQ). now rewrite IH. }
  destruct (c =? TAB) eqn:E3.
  { apply N.eqb_eq in E3; subst c. cbn [app short_string_value].
    change (BSL =? BSL) with true. cbv iota.
    change (simple_escape 116) with (Some TAB). now rewrite IH. }
  destruct (c =? CR) eqn:E4.
  { apply N.eqb_eq in E4; subst c. cbn [app short_string_value].
    change (BSL =? BSL) with true. cbv iota.
    change (simple_escape 114) with (Some CR). now rewrite IH. }
  destruct (c =? LF) eqn:E5.
  { apply N.eqb_eq in E5; subst c. cbn [app short_string_value].
    change (BSL =? BSL) with true. cbv iota.
    change (simple_escape 110) with (Some LF). now rewrite IH. }
  cbn [app short_string_value]. rewrite E1.
  assert (Hp : plain_char c = true).
  { unfold plain_char, mem. cbn [existsb]. rewrite E1, E2, E4, E5.
    unfold clean_char in Hc. apply negb_true_iff in Hc.
    apply orb_false_iff in Hc as [Hn Hsur]. rewrite Hn, Hsur. reflexivity. }
  rewrite Hp, IH. reflexivity.
Qed.

Section Literal.
Context {LE : LiteralEval}.

Lemma parse_quoted body v :
  short_string_value body = Some v ->
  _parse_po_string_literal (quoted body) = VStr v.
Proof.
  intros H. unfold _parse_po_string_literal. rewrite strip_quoted.
  rewrite (literal_eval_short _ H). reflexivity.
Qed.

(** C8, as amended: for every string [s] that holds no NUL and no
    surrogate code point (so any mix of backslashes, double quotes,
    tabs, carriage returns and newlines), parsing the quoted output of
    the escaper gives [s] back. *)
Theorem escape_roundtrip (s : str) :
  clean s -> _parse_po_string_literal (quoted (_po_escape s)) = VStr s.
Proof. intros H. apply parse_quoted. now apply short_string_value_escape. Qed.

End Literal.

Local Open Scope N_scope.

(** * The report of missing_translations.py *)

Section DictFacts.
Variables (K V : Type) (eqb : K -> K -> bool).
Hypothesis eqb_eq : forall a b, eqb a b = true <-> a = b.

Lemma eqb_refl_true k : eqb k k = true.
Proof. now apply eqb_eq. Qed.

Lemma eqb_neq_false a b : a <> b -> eqb a b = false.
Proof.
  intros H. destruct (eqb a b) eqn:E; [|reflexivity].
  apply eqb_eq in E. contradiction.
Qed.

Lemma dict_get_set_same k (v : V) d : dict_get eqb k (dict_set eqb k v d) = Some v.
Proof.
  induction d as [|[k' v'] d IH]; cbn.
  - now rewrite eqb_refl_true.
  - destruct (eqb k k') eqn:E; cbn.
    + now rewrite eqb_refl_true.
    + now rewrite E.
Qed.

Lemma dict_get_set_other k k' (v : V) d :
  k <> k' -> dict_get eqb k (dict_set eqb k' v d) = dict_get eqb k d.
Proof.
  intros Hne. induction d as [|[k2 v2] d IH]; cbn.
  - now rewrite eqb_neq_false.
  - destruct (eqb k' k2) eqn:E; cbn.
    + apply eqb_eq in E; subst k2. now rewrite eqb_neq_false.
    + now rewrite IH.
Qed.

Lemma dict_get_In k (v : V) d : dict_get eqb k d = Some v -> In (k, v) d.
Proof.
  induction d as [|[k' v'] d IH]; cbn; [discriminate|].
  destruct (eqb k k') eqn:E.
  - apply eqb_eq in E; subst k'. intros H; inversion H. now left.
  - intros H. right. now apply IH.
Qed.

Lemma dict_get_keys k d :
  In k (dict_keys d) <-> exists v : V, dict_get eqb k d = Some v.
Proof.
  unfold dict_keys. induction d as [|[k' v'] d IH]; cbn.
  - split; [tauto|]. intros [v H]. discriminate.
  - destruct (eqb k k') eqn:E.
    + apply eqb_eq in E; subst k'. split; [eauto|auto].
    + rewrite IH. split; [|tauto]. intros [H|H]; [|assumption].
      subst k'. rewrite eqb_refl_true in E. discriminate.
Qed.

End DictFacts.

Lemma opt_str_eqb_eq a b : opt_str_eqb a b = true <-> a = b.
Proof.
  destruct a, b; cbn; try (split; discriminate); [|tauto].
  rewrite str_eqb_eq. split; [now intros ->|now intros [= ->]].
Qed.

Lemma entry_key_eqb_eq a b : entry_key_eqb a b = true <-> a = b.
Proof.
  destruct a as [[c1 i1] p1], b as [[c2 i2] p2]. cbn.
  rewrite !andb_true_iff, !opt_str_eqb_eq, str_eqb_eq. split.
  - now intros [[-> ->] ->].
  - now intros [= -> -> ->].
Qed.

Lemma _normalize_msgstr_id parts : _normalize_msgstr parts = parts.
Proof.
  unfold _normalize_msgstr. induction parts as [|p parts IH]; cbn;
    [reflexivity|]. rewrite IH. now destruct p.
Qed.

Lemma forallb_combine_eq (a b : list str) :
  List.length a = List.length b ->
  forallb (fun p : str * str => str_eqb (fst p) (snd p)) (combine a b) = true
  <-> a = b.
Proof.
  revert b. induction a as [|x a IH]; destruct b as [|y b]; cbn;
    try discriminate; [tauto|].
  intros [= Hlen]. rewrite andb_true_iff, str_eqb_eq, (IH _ Hlen). split.
  - now intros [-> ->].
  - now intros [= -> ->].
Qed.

Lemma pad_length n l : (List.length l <= n)%nat -> List.length (pad n l) = n.
Proof. intros H. unfold pad. rewrite length_app, repeat_length. lia. Qed.

Lemma _is_missing_translation_spec (en pt : PoEntry str) :
  msgid pt <> [] ->
  let n := Nat.max (List.length (msgstr en)) (List.length (msgstr pt)) in
  _is_missing_translation en pt = true
  <-> Forall blank (msgstr pt) \/ pad n (msgstr pt) = pad n (msgstr en).
Proof.
  intros Hid n. unfold _is_missing_translation.
  destruct (str_eqb (msgid pt) []) eqn:E.
  { apply str_eqb_eq in E. contradiction. }
  rewrite !_normalize_msgstr_id.
  assert (Hb : forallb (fun s => str_eqb (strip s) []) (msgstr pt) = true
               <-> Forall blank (msgstr pt)).
  { rewrite forallb_forall, Forall_forall. unfold blank.
    split; intros H x Hx; apply str_eqb_eq; now apply H. }
  destruct (msgstr pt) as [|p ps] eqn:Ept.
  { cbn [orb]. split; [|reflexivity]. intros _. left. constructor. }
  cbv iota. cbn [orb].
  destruct (forallb (fun s => str_eqb (strip s) []) (p :: ps)) eqn:Eb.
  { split; [|reflexivity]. intros _. left. now apply Hb. }
  rewrite forallb_combine_eq.
  2:{ rewrite !length_app, !repeat_length. lia. }
  unfold pad. subst n.
  split; [now right|]. intros [H|H]; [|assumption].
  apply Hb in H. discriminate.
Qed.

(** The reference entry the dictionary holds for a key: the last
    non-header entry of the reference with that key. *)
Lemma en_by_key_get_In (ens : list (PoEntry str)) k en :
  dict_get entry_key_eqb k (en_by_key ens) = Some en ->
  In en ens /\ _entry_key en = k.
Proof.
  unfold en_by_key.
  assert (H : forall (l : list (PoEntry str)) d0 es,
    (forall k v, dict_get entry_key_eqb k d0 = Some v ->
                 In v es /\ _entry_key v = k) ->
    forall k v,
      dict_get entry_key_eqb k
        (fold_left (fun d (e : PoEntry str) => if str_eqb (msgid e) [] then d
                               else dict_set entry_key_eqb (_entry_key e) e d)
                   l d0) = Some v ->
      In v (es ++ l) /\ _entry_key v = k).
  { induction l as [|e l IH]; intros d0 es Hd k0 v Hget; cbn in Hget.
    - rewrite app_nil_r. now apply Hd.
    - replace (es ++ e :: l) with ((es ++ [e]) ++ l)
        by now rewrite <- app_assoc.
      eapply IH; [|exact Hget].
      intros k1 v1 H1. destruct (str_eqb (msgid e) []).
      + destruct (Hd _ _ H1) as [Hin Hk]. split; [|assumption].
        apply in_or_app. now left.
      + destruct (entry_key_eqb k1 (_entry_key e)) eqn:Ek.
        * apply entry_key_eqb_eq in Ek; subst k1.
          rewrite (dict_get_set_same _ entry_key_eqb_eq) in H1.
          inversion H1; subst v1. split; [|reflexivity].
          apply in_or_app. right. now left.
        * rewrite (dict_get_set_other _ entry_key_eqb_eq) in H1.
          2:{ intros ->. rewrite (eqb_refl_true _ entry_key_eqb_eq) in Ek.
              discriminate. }
          destruct (Hd _ _ H1) as [Hin Hk]. split; [|assumption].
          apply in_or_app. now left. }
  intros Hget. apply (H ens [] []) in Hget; [assumption|].
  intros k0 v0 H0. discriminate.
Qed.

Lemma en_by_key_get_some (ens : list (PoEntry str)) (e : PoEntry str) :
  In e ens -> msgid e <> [] ->
  exists en, dict_get entry_key_eqb (_entry_key e) (en_by_key ens) = Some en.
Proof.
  unfold en_by_key.
  assert (H : forall (l : list (PoEntry str)) d0 k,
    (In k (dict_keys d0)
     \/ exists e : PoEntry str, In e l /\ msgid e <> [] /\ _entry_key e = k) ->
    In k (dict_keys
            (fold_left (fun d (e : PoEntry str) => if str_eqb (msgid e) [] then d
                                   else dict_set entry_key_eqb (_entry_key e) e d)
                       l d0))).
  { induction l as [|x l IH]; intros d0 k Hk; cbn.
    - destruct Hk as [Hk|[e0 [[] _]]]. exact Hk.
    - apply IH. destruct Hk as [Hk|[e0 [[->|Hin] [Hne Hkey]]]].
      + left. destruct (str_eqb (msgid x) []); [assumption|].
        apply (dict_get_keys _ entry_key_eqb_eq) in Hk as [v Hv].
        apply (dict_get_keys _ entry_key_eqb_eq).
        destruct (entry_key_eqb k (_entry_key x)) eqn:Ek.
        * apply entry_key_eqb_eq in Ek; subst k.
          rewrite (dict_get_set_same _ entry_key_eqb_eq). eauto.
        * rewrite (dict_get_set_other _ entry_key_eqb_eq); [eauto|].
          intros ->. rewrite (eqb_refl_true _ entry_key_eqb_eq) in Ek.
          discriminate.
      + left. destruct (str_eqb (msgid e0) []) eqn:E.
        { apply str_eqb_eq in E. contradiction. }
        subst k. apply (dict_get_keys _ entry_key_eqb_eq).
        rewrite (dict_get_set_same _ entry_key_eqb_eq). eauto.
      + right. eauto. }
  intros Hin Hne. apply (dict_get_keys _ entry_key_eqb_eq). apply H.
  right. eauto.
Qed.


Local Open Scope Z_scope.

(** * Reading an MO file: when it fails *)

Lemma byte_val_range b : 0 <= byte_val b < 256.
Proof.
  unfold byte_val. pose proof (Byte.to_N_bounded b). lia.
Qed.

Lemma word_of_bytes_range e b0 b1 b2 b3 :
  0 <= word_of_bytes e b0 b1 b2 b3 < 4294967296.
Proof.
  pose proof (byte_val_range b0). pose proof (byte_val_range b1).
  pose proof (byte_val_range b2). pose proof (byte_val_range b3).
  destruct e; cbn [word_of_bytes]; lia.
Qed.

Lemma word_at_range e data i : 0 <= word_at e data i < 4294967296.
Proof. apply word_of_bytes_range. Qed.

Lemma len_nonneg {A} (l : list A) : 0 <= len l.
Proof. unfold len. lia. Qed.

Lemma len_cons {A} (x : A) l : len (x :: l) = 1 + len l.
Proof. unfold len. cbn [List.length]. lia. Qed.

Lemma len_app {A} (a b : list A) : len (a ++ b) = len a + len b.
Proof. unfold len. rewrite length_app. lia. Qed.

Lemma slice_length {A} (data : list A) a b :
  0 <= a ->
  len (slice data a b) = Z.max 0 (Z.min (b - a) (len data - a)).
Proof.
  intros Ha. unfold slice, len. rewrite length_firstn, length_skipn. lia.
Qed.

(** The header checks, read off the fields. *)
Lemma read_header_fields data :
  read_header data =
  if len data <? 28 then Raise ValueError_too_small
  else match mo_endian data with
       | None => Raise ValueError_bad_magic
       | Some e =>
           if negb (word_at e data 4 =? 0)
           then Raise (ValueError_revision (word_at e data 4))
           else Ok (e, word_at e data 8, word_at e data 12, word_at e data 16)
       end.
Proof.
  unfold read_header. destruct (len data <? 28) eqn:Hlen; [reflexivity|].
  apply Z.ltb_ge in Hlen.
  do 28 (destruct data as [|? data];
         [exfalso; unfold len in Hlen; cbn [List.length] in Hlen; lia|]).
  clear Hlen. unfold mo_endian, word_at, slice.
  change (Z.to_nat (4 - 0)) with 4%nat. change (Z.to_nat 0) with 0%nat.
  change (Z.to_nat (28 - 4)) with 24%nat. change (Z.to_nat 4) with 4%nat.
  cbn [firstn skipn unpack bind hd nth Nat.add].
  destruct (word_of_bytes LittleEndian b b0 b1 b2 =? 2500072158);
    [cbn [bind unpack]; reflexivity|].
  destruct (word_of_bytes BigEndian b b0 b1 b2 =? 2500072158);
    cbn [bind unpack]; reflexivity.
Qed.

Lemma unpack_2 e bs :
  unpack e 2 bs =
  match bs with
  | [a0; a1; a2; a3; c0; c1; c2; c3] =>
      Ok [word_of_bytes e a0 a1 a2 a3; word_of_bytes e c0 c1 c2 c3]
  | _ => Raise struct_error
  end.
Proof.
  do 9 (destruct bs as [|? bs]; [reflexivity|]). reflexivity.
Qed.

Lemma unpack_2_ok e bs :
  List.length bs = 8%nat -> exists l o, unpack e 2 bs = Ok [l; o].
Proof.
  intros H. rewrite unpack_2.
  do 8 (destruct bs as [|? bs]; [discriminate|]).
  destruct bs; [eauto|discriminate].
Qed.

Lemma unpack_2_err e bs :
  List.length bs <> 8%nat -> unpack e 2 bs = Raise struct_error.
Proof.
  intros H. rewrite unpack_2.
  do 8 (destruct bs as [|? bs]; [reflexivity|]).
  destruct bs; [now contradiction H|reflexivity].
Qed.

(** A table of [count] entries from index [i] is read when it lies
    inside the buffer, and raises [struct.error] when it does not. *)
Lemma read_table_loop_spec e data off count : forall i,
  0 <= off -> 0 <= i ->
  (count = 0%nat \/ off + (i + Z.of_nat count) * 8 <= len data ->
   exists t, read_table_loop e data off i count = Ok t
             /\ List.length t = count)
  /\ (~ (count = 0%nat \/ off + (i + Z.of_nat count) * 8 <= len data) ->
      read_table_loop e data off i count = Raise struct_error).
Proof.
  induction count as [|c IH]; intros i Hoff Hi.
  - split; [intros _; now exists []|]. intros H. exfalso. apply H. now left.
  - cbn [read_table_loop].
    assert (Hsl : len (slice data (off + i * 8) (off + i * 8 + 8))
                  = Z.max 0 (Z.min 8 (len data - (off + i * 8)))).
    { rewrite slice_length. 2:{ lia. }
      now replace (off + i * 8 + 8 - (off + i * 8)) with 8 by lia. }
    destruct (IH (i + 1) Hoff ltac:(lia)) as [IHok IHerr].
    split.
    + intros [H|H]; [discriminate|].
      destruct (@unpack_2_ok e (slice data (off + i * 8) (off + i * 8 + 8)))
        as [l [o Hu]].
      { unfold len in *. lia. }
      rewrite Hu. cbn [bind].
      destruct IHok as [t [Ht Hlen]].
      { destruct c; [now left|right]. unfold len in *. lia. }
      rewrite Ht. cbn [bind]. eexists. split; [reflexivity|].
      cbn [List.length]. now rewrite Hlen.
    + intros H.
      destruct (Z_le_gt_dec (off + i * 8 + 8) (len data)) as [Hfit|Hfit].
      * destruct (@unpack_2_ok e (slice data (off + i * 8) (off + i * 8 + 8)))
          as [l [o Hu]].
        { unfold len in *. lia. }
        rewrite Hu. cbn [bind]. rewrite IHerr; [reflexivity|].
        intros [Hc|Hc]; apply H; right; [subst c|]; unfold len in *; lia.
      * rewrite unpack_2_err; [reflexivity|].
        unfold len in *. lia.
Qed.

Lemma read_table_spec e data n off :
  0 <= n -> 0 <= off ->
  (n = 0 \/ off + 8 * n <= len data ->
   exists t, read_table e data n off = Ok t /\ len t = n)
  /\ (~ (n = 0 \/ off + 8 * n <= len data) ->
      read_table e data n off = Raise struct_error).
Proof.
  intros Hn Hoff. unfold read_table.
  destruct (read_table_loop_spec e data (Z.to_nat n) Hoff (Z.le_refl 0))
    as [Hok Herr].
  split.
  - intros H. destruct Hok as [t [Ht Hlen]].
    { destruct H as [H|H]; [left; subst n; reflexivity|right; lia]. }
    exists t. split; [assumption|]. unfold len. lia.
  - intros H. apply Herr. intros [Hc|Hc]; apply H; [left|right]; lia.
Qed.

Section ReadMoOutcome.
Context {CD : Codecs}.

(** Every outcome of [read_mo], with the condition it comes from. *)
Lemma read_mo_outcome (data : bytes) :
  match read_mo data with
  | Raise ValueError_too_small => too_small data
  | Raise ValueError_bad_magic => ~ too_small data /\ bad_magic data
  | Raise (ValueError_revision _) =>
      ~ too_small data /\ ~ bad_magic data /\ revision_nonzero data
  | Raise struct_error =>
      ~ too_small data /\ ~ bad_magic data /\ ~ revision_nonzero data
      /\ ~ tables_fit data
  | Raise _ => False
  | Ok _ =>
      ~ too_small data /\ ~ bad_magic data /\ ~ revision_nonzero data
      /\ tables_fit data
  end.
Proof.
  unfold read_mo, read_raw_pairs. rewrite read_header_fields.
  unfold too_small, bad_magic, revision_nonzero, tables_fit.
  destruct (len data <? 28) eqn:Hlen; cbn [bind].
  { now apply Z.ltb_lt in Hlen. }
  apply Z.ltb_ge in Hlen.
  destruct (mo_endian data) as [e|] eqn:He; cbn [bind].
  2:{ split; [lia|reflexivity]. }
  destruct (word_at e data 4 =? 0) eqn:Hrev; cbn [negb bind].
  2:{ apply Z.eqb_neq in Hrev. split; [lia|]. split; [discriminate|].
      exists e. now split. }
  apply Z.eqb_eq in Hrev.
  assert (Hnorev : ~ (exists e0, Some e = Some e0 /\ word_at e0 data 4 <> 0)).
  { intros [e0 [[= <-] Hne]]. contradiction. }
  pose proof (word_at_range e data 8) as Hn.
  pose proof (word_at_range e data 12) as Hoo.
  pose proof (word_at_range e data 16) as Hot.
  destruct (@read_table_spec e data (word_at e data 8) (word_at e data 12))
    as [Hok1 Herr1]; [lia|lia|].
  destruct (@read_table_spec e data (word_at e data 8) (word_at e data 16))
    as [Hok2 Herr2]; [lia|lia|].
  destruct (Z.eq_dec (word_at e data 8) 0) as [Hz|Hnz].
  { destruct Hok1 as [t1 [Ht1 _]]; [now left|].
    destruct Hok2 as [t2 [Ht2 _]]; [now left|].
    rewrite Ht1; cbn [bind]. rewrite Ht2; cbn [bind].
    repeat split; [lia|discriminate|assumption|].
    exists e. split; [reflexivity|now left]. }
  destruct (Z_le_gt_dec (word_at e data 12 + 8 * word_at e data 8) (len data))
    as [Hf1|Hf1].
  2:{ rewrite Herr1 by (intros [?|?]; lia). cbn [bind].
      repeat split; [lia|discriminate|assumption|].
      intros [e0 [[= <-] [?|[? ?]]]]; lia. }
  destruct Hok1 as [t1 [Ht1 _]]; [now right|]. rewrite Ht1; cbn [bind].
  destruct (Z_le_gt_dec (word_at e data 16 + 8 * word_at e data 8) (len data))
    as [Hf2|Hf2].
  2:{ rewrite Herr2 by (intros [?|?]; lia). cbn [bind].
      repeat split; [lia|discriminate|assumption|].
      intros [e0 [[= <-] [?|[? ?]]]]; lia. }
  destruct Hok2 as [t2 [Ht2 _]]; [now right|]. rewrite Ht2; cbn [bind].
  repeat split; [lia|discriminate|assumption|].
  exists e. split; [reflexivity|right; now split].
Qed.

(** C4, as amended: decoding raises a [ValueError] exactly when the
    buffer is smaller than the 28-byte header, or the magic matches in
    neither byte order, or the revision is not zero; it raises
    [struct.error] exactly when none of these holds and a table does
    not lie inside the buffer; for every other input it returns a
    charset and an entry list.  The result is either an exception or
    the whole result, never a part of it. *)
Theorem read_mo_failure_conditions (data : bytes) :
  ((exists e, read_mo data = Raise e /\ is_ValueError e = true)
   <-> too_small data \/ bad_magic data \/ revision_nonzero data)
  /\ (read_mo data = Raise struct_error
      <-> ~ too_small data /\ ~ bad_magic data /\ ~ revision_nonzero data
          /\ ~ tables_fit data)
  /\ ((exists charset entries, read_mo data = Ok (charset, entries))
      <-> ~ too_small data /\ ~ bad_magic data /\ ~ revision_nonzero data
          /\ tables_fit data).
Proof.
  pose proof (read_mo_outcome data) as H.
  destruct (read_mo data) as [[cs es]|e]; [|destruct e].
  all: repeat split; intros; repeat match goal with
       | H0 : exists _, _ |- _ => destruct H0
       | H0 : _ /\ _ |- _ => destruct H0
       end;
       try discriminate; try tauto; try (now eauto).
  all: try (match goal with
            | H0 : Raise _ = Raise _ |- _ => inversion H0; subst
            end; first [discriminate|tauto]).
Qed.

End ReadMoOutcome.

(** * Reading an MO file: the strings *)

Lemma read_table_loop_nonneg e data off count : forall i t,
  read_table_loop e data off i count = Ok t ->
  List.length t = count /\ Forall (fun p : Z * Z => 0 <= fst p /\ 0 <= snd p) t.
Proof.
  induction count as [|c IH]; intros i t; cbn [read_table_loop].
  - intros [= <-]. split; [reflexivity|constructor].
  - rewrite unpack_2.
    destruct (slice data (off + i * 8) (off + i * 8 + 8))
      as [|a0 [|a1 [|a2 [|a3 [|c0 [|c1 [|c2 [|c3 [|? ?]]]]]]]]];
      cbn [bind]; try discriminate.
    destruct (read_table_loop e data off (i + 1) c) as [t'|] eqn:Ht;
      cbn [bind]; [|discriminate].
    intros [= <-]. destruct (IH _ _ Ht) as [Hlen Hall].
    split; [cbn [List.length]; now rewrite Hlen|].
    constructor; [|assumption]. cbn [fst snd].
    pose proof (word_of_bytes_range e a0 a1 a2 a3).
    pose proof (word_of_bytes_range e c0 c1 c2 c3). lia.
Qed.

Section ReadMoStrings.
Context {CD : Codecs}.

(** The strings cut out for the pairs of two tables: the bytes of the
    buffer from the offset on, at most length of them and none past the
    end of the buffer. *)
Lemma raw_pairs_of_clipped (data : bytes) : forall orig_table trans_table,
  Forall (fun p : Z * Z => 0 <= fst p /\ 0 <= snd p) orig_table ->
  Forall (fun p : Z * Z => 0 <= fst p /\ 0 <= snd p) trans_table ->
  Forall2 (fun (p : (Z * Z) * (Z * Z)) (r : bytes * bytes) =>
             let '((ol, oo), (tl, to)) := p in
             r = (firstn (Z.to_nat ol) (skipn (Z.to_nat oo) data),
                  firstn (Z.to_nat tl) (skipn (Z.to_nat to) data))
             /\ len (fst r) = Z.max 0 (Z.min ol (len data - oo))
             /\ len (snd r) = Z.max 0 (Z.min tl (len data - to)))
          (combine orig_table trans_table)
          (raw_pairs_of data orig_table trans_table).
Proof.
  unfold raw_pairs_of.
  induction orig_table as [|[ol oo] ot IH]; intros [|[tl to] tt] Ho Ht;
    cbn [combine map]; try constructor.
  - inversion Ho as [|? ? [Hol Hoo] Ho']; subst.
    inversion Ht as [|? ? [Htl Hto] Ht']; subst. cbn [fst snd] in *.
    split; [|split].
    + unfold slice. now replace (oo + ol - oo) with ol by lia;
        replace (to + tl - to) with tl by lia.
    + rewrite slice_length by assumption.
      now replace (oo + ol - oo) with ol by lia.
    + rewrite slice_length by assumption.
      now replace (to + tl - to) with tl by lia.
  - inversion Ho; subst. inversion Ht; subst. now apply IH.
Qed.

(** C9: once the header and the two tables are read, [read_mo] returns,
    wherever the pairs of the tables point.  The two raw strings of a
    pair are the bytes of the buffer from the offset on, at most length
    of them and none past the end of the buffer, so none at all when
    the offset lies past the end; and every pair gives one entry,
    decoded from its two strings in the same way whether they were
    clipped or not. *)
Theorem mo_string_extraction_total (data : bytes) (e : endian)
  (n off_orig off_trans : Z) (orig_table trans_table : list (Z * Z)) :
  read_header data = Ok (e, n, off_orig, off_trans) ->
  read_table e data n off_orig = Ok orig_table ->
  read_table e data n off_trans = Ok trans_table ->
  exists (raw_pairs : list (bytes * bytes)) (charset : str),
    read_raw_pairs data = Ok raw_pairs
    /\ read_mo data
       = Ok (charset,
             map (fun r : bytes * bytes =>
                    entry_of_strings (decode charset (fst r))
                                     (decode charset (snd r)))
                 raw_pairs)
    /\ List.length orig_table = Z.to_nat n
    /\ List.length trans_table = Z.to_nat n
    /\ List.length raw_pairs = Z.to_nat n
    /\ Forall2 (fun (p : (Z * Z) * (Z * Z)) (r : bytes * bytes) =>
                  let '((ol, oo), (tl, to)) := p in
                  r = (firstn (Z.to_nat ol) (skipn (Z.to_nat oo) data),
                       firstn (Z.to_nat tl) (skipn (Z.to_nat to) data))
                  /\ len (fst r) = Z.max 0 (Z.min ol (len data - oo))
                  /\ len (snd r) = Z.max 0 (Z.min tl (len data - to)))
               (combine orig_table trans_table) raw_pairs.
Proof.
  intros Hh Ho Ht.
  destruct (read_table_loop_nonneg _ _ _ _ _ Ho) as [Hlo Hno].
  destruct (read_table_loop_nonneg _ _ _ _ _ Ht) as [Hlt Hnt].
  assert (Hr : read_raw_pairs data
               = Ok (raw_pairs_of data orig_table trans_table)).
  { unfold read_raw_pairs. rewrite Hh. cbn [bind].
    rewrite Ho. cbn [bind]. rewrite Ht. reflexivity. }
  exists (raw_pairs_of data orig_table trans_table),
         (fst (entries_of_raw_pairs
                 (raw_pairs_of data orig_table trans_table))).
  split; [exact Hr|]. split.
  { unfold read_mo. rewrite Hr. reflexivity. }
  split; [exact Hlo|]. split; [exact Hlt|]. split.
  - unfold raw_pairs_of.
    rewrite length_map, length_combine, Hlo, Hlt. apply Nat.min_id.
  - now apply raw_pairs_of_clipped.
Qed.

End ReadMoStrings.

Local Open Scope Z_scope.

(** * Writing an MO file: the layout *)

(** ** Alignment *)

Lemma align4_div x : align4 x = 4 * ((x + 3) / 4).
Proof.
  unfold align4. change 3 with (Z.ones 2) at 2.
  rewrite <- Z.ldiff_land, Z.ldiff_ones_r by lia.
  rewrite Z.shiftr_div_pow2, Z.shiftl_mul_pow2 by lia.
  change (2 ^ 2) with 4. lia.
Qed.

Lemma align4_mod x : align4 x mod 4 = 0.
Proof.
  rewrite align4_div, Z.mul_comm. apply Z.mod_mul. lia.
Qed.

Lemma align4_bounds x : x <= align4 x < x + 4.
Proof.
  rewrite align4_div.
  pose proof (Z.div_mod (x + 3) 4 ltac:(lia)).
  pose proof (Z.mod_pos_bound (x + 3) 4 ltac:(lia)). lia.
Qed.

(** ** Packing and unpacking words *)

Lemma byte_val_of_Z z : byte_val (byte_of_Z z) = z mod 256.
Proof.
  unfold byte_val, byte_of_Z.
  pose proof (Z.mod_pos_bound z 256 ltac:(lia)) as Hm.
  pose proof (Byte.to_of_N_option_map (Z.to_N (z mod 256))) as H.
  destruct (Byte.of_N (Z.to_N (z mod 256))) as [b|] eqn:E; cbn in H.
  - destruct (Z.to_N (z mod 256) <=? 255)%N eqn:Hle; [|discriminate].
    inversion H as [H1]. rewrite H1. lia.
  - destruct (Z.to_N (z mod 256) <=? 255)%N eqn:Hle; [discriminate|].
    apply N.leb_gt in Hle. lia.
Qed.

Lemma byte_val_inj a b : byte_val a = byte_val b -> a = b.
Proof.
  unfold byte_val. intros H. apply N2Z.inj in H.
  pose proof (Byte.of_to_N a) as Ha. rewrite H, Byte.of_to_N in Ha.
  now inversion Ha.
Qed.

Lemma word_of_pack v :
  0 <= v < 4294967296 ->
  word_of_bytes LittleEndian (byte_of_Z v) (byte_of_Z (v / 256))
                (byte_of_Z (v / 65536)) (byte_of_Z (v / 16777216)) = v.
Proof.
  intros Hv. cbn [word_of_bytes]. rewrite !byte_val_of_Z.
  change 65536 with (256 * 256). change 16777216 with (256 * 256 * 256).
  rewrite <- !Z.div_div by lia.
  pose proof (Z.div_mod v 256 ltac:(lia)).
  pose proof (Z.div_mod (v / 256) 256 ltac:(lia)).
  pose proof (Z.div_mod (v / 256 / 256) 256 ltac:(lia)).
  pose proof (Z.mod_pos_bound v 256 ltac:(lia)).
  pose proof (Z.mod_pos_bound (v / 256) 256 ltac:(lia)).
  pose proof (Z.mod_pos_bound (v / 256 / 256) 256 ltac:(lia)).
  assert (0 <= v / 256 / 256 / 256 < 256).
  { split; [repeat apply Z.div_pos; lia|].
    repeat (apply Z.div_lt_upper_bound; [lia|]). lia. }
  rewrite (Z.mod_small (v / 256 / 256 / 256)) by lia. lia.
Qed.

Lemma pack_I_ok v bs :
  pack_I v = Ok bs ->
  0 <= v < 4294967296
  /\ bs = [byte_of_Z v; byte_of_Z (v / 256); byte_of_Z (v / 65536);
           byte_of_Z (v / 16777216)].
Proof.
  unfold pack_I. destruct ((0 <=? v) && (v <? 4294967296)) eqn:E;
    [|discriminate].
  apply andb_true_iff in E as [H1 H2].
  apply Z.leb_le in H1. apply Z.ltb_lt in H2.
  intros [= <-]. split; [lia|reflexivity].
Qed.

Lemma pack_I_len v bs : pack_I v = Ok bs -> len bs = 4.
Proof. intros H. apply pack_I_ok in H as [_ ->]. reflexivity. Qed.

Lemma pack_II_ok l o bs :
  pack_II l o = Ok bs ->
  0 <= l < 4294967296 /\ 0 <= o < 4294967296
  /\ len bs = 8
  /\ unpack LittleEndian 2 bs = Ok [l; o].
Proof.
  unfold pack_II. destruct (pack_I l) as [a|] eqn:Ea; cbn [bind];
    [|discriminate].
  destruct (pack_I o) as [b|] eqn:Eb; cbn [bind]; [|discriminate].
  intros [= <-].
  apply pack_I_ok in Ea as [Hl ->]. apply pack_I_ok in Eb as [Ho ->].
  repeat split; try lia. cbn [app unpack bind].
  now rewrite !word_of_pack.
Qed.

(** ** Slices of a concatenation *)

Lemma slice_app_r {A} (a b : list A) x y :
  0 <= x -> slice (a ++ b) (len a + x) (len a + y) = slice b x y.
Proof.
  intros Hx. unfold slice, len.
  replace (Z.of_nat (List.length a) + y - (Z.of_nat (List.length a) + x))
    with (y - x) by lia.
  replace (Z.to_nat (Z.of_nat (List.length a) + x))
    with (List.length a + Z.to_nat x)%nat by lia.
  now rewrite skipn_app, skipn_all2, Nat.add_comm, Nat.add_sub by lia.
Qed.

Lemma slice_app_l {A} (a b : list A) x y :
  0 <= x -> y <= len a -> slice (a ++ b) x y = slice a x y.
Proof.
  intros Hx Hy. unfold slice, len in *.
  rewrite skipn_app, firstn_app, length_skipn.
  replace (Z.to_nat (y - x) - (List.length a - Z.to_nat x))%nat with 0%nat
    by lia.
  now rewrite firstn_O, app_nil_r.
Qed.

Lemma slice_all {A} (a : list A) : slice a 0 (len a) = a.
Proof.
  unfold slice, len. rewrite Z.sub_0_r, Nat2Z.id. cbn [Z.to_nat skipn].
  apply firstn_all.
Qed.

(** The slice that is exactly the middle of three parts. *)
Lemma slice_middle {A} (a b c : list A) x y :
  x = len a -> y = len a + len b -> slice (a ++ b ++ c) x y = b.
Proof.
  intros -> ->.
  replace (len a) with (len a + 0) at 1 by lia.
  rewrite slice_app_r by lia. rewrite slice_app_l by lia. apply slice_all.
Qed.

(** ** The layout loops *)

Lemma placed_app P pool ext k lo :
  placed P pool k lo -> placed P (pool ++ ext) k lo.
Proof.
  intros (Hl & Hm & Hp & Hs). repeat split; try assumption.
  destruct (Z_le_gt_dec (snd lo - P + fst lo) (len pool)) as [Hle|Hgt].
  - rewrite slice_app_l by lia. assumption.
  - assert (Hlen : len (slice pool (snd lo - P) (snd lo - P + fst lo))
                   = len k) by now rewrite Hs.
    rewrite slice_length in Hlen by lia.
    pose proof (len_nonneg k). pose proof (len_nonneg pool).
    assert (Hk : len k = 0) by lia.
    destruct k; [|rewrite len_cons in Hk; pose proof (len_nonneg k); lia].
    unfold slice. replace (snd lo - P + fst lo - (snd lo - P)) with 0 by lia.
    reflexivity.
Qed.

Lemma repeat_len {A} (x : A) n : len (repeat x n) = Z.of_nat n.
Proof. unfold len. now rewrite repeat_length. Qed.

Lemma place_spec P st k :
  pool_inv P st ->
  let st' := place P st k in
  pool_inv P st'
  /\ cur_off st <= cur_off st'
  /\ (exists ext, pool st' = pool st ++ ext)
  /\ offsets st' = offsets st ++ [(len k, align4 (cur_off st))]
  /\ (P <= cur_off st ->
      placed P (pool st') k (len k, align4 (cur_off st))).
Proof.
  intros Hinv st'. subst st'. unfold pool_inv in *. unfold place.
  pose proof (align4_bounds (cur_off st)) as Hb.
  pose proof (align4_mod (cur_off st)) as Hm.
  pose proof (len_nonneg k) as Hk.
  set (c := align4 (cur_off st)) in *.
  set (padded :=
         if len (pool st) <? c - P
         then pool st ++ repeat x00 (Z.to_nat (c - P - len (pool st)))
         else pool st).
  assert (Hpad : len padded = c - P /\ exists ext, padded = pool st ++ ext).
  { subst padded. destruct (len (pool st) <? c - P) eqn:E.
    - apply Z.ltb_lt in E. rewrite len_app, repeat_len.
      split; [lia|eauto].
    - apply Z.ltb_ge in E. split; [lia|]. exists []. now rewrite app_nil_r. }
  destruct Hpad as [Hplen [ext Hext]].
  cbn [pool cur_off offsets].
  split; [|split; [|split; [|split]]].
  - rewrite !len_app, Hplen, len_cons. unfold len at 2. cbn. lia.
  - lia.
  - exists (ext ++ k ++ [x00]). rewrite Hext. now rewrite <- app_assoc.
  - reflexivity.
  - intros HP. unfold placed. cbn [fst snd]. repeat split; try assumption.
    + lia.
    + apply slice_middle; lia.
Qed.

Lemma fold_place_spec P ks : forall st,
  pool_inv P st -> P <= cur_off st ->
  let st' := fold_left (place P) ks st in
  pool_inv P st'
  /\ cur_off st <= cur_off st'
  /\ (exists ext, pool st' = pool st ++ ext)
  /\ exists offs, offsets st' = offsets st ++ offs
                  /\ Forall2 (placed P (pool st')) ks offs.
Proof.
  induction ks as [|k ks IH]; intros st Hinv HP; cbn [fold_left].
  - split; [assumption|]. split; [lia|].
    split; [exists []; now rewrite app_nil_r|].
    exists []. split; [now rewrite app_nil_r|constructor].
  - destruct (place_spec k Hinv) as (Hinv1 & Hc1 & [ext1 Hp1] & Ho1 & Hpl1).
    destruct (IH (place P st k) Hinv1 ltac:(lia))
      as (Hinv2 & Hc2 & [ext2 Hp2] & offs & Ho2 & Hpl2).
    split; [assumption|]. split; [lia|]. split.
    + exists (ext1 ++ ext2). rewrite Hp2, Hp1. now rewrite <- app_assoc.
    + exists ((len k, align4 (cur_off st)) :: offs). split.
      * rewrite Ho2, Ho1. now rewrite <- app_assoc.
      * constructor; [|assumption]. rewrite Hp2. apply placed_app.
        now apply Hpl1.
Qed.

(** ** Reading back a packed table *)

Lemma read_table_loop_shift e data off c : forall i,
  read_table_loop e data off (i + 1) c = read_table_loop e data (off + 8) i c.
Proof.
  induction c as [|c IH]; intros i; cbn [read_table_loop]; [reflexivity|].
  replace (off + (i + 1) * 8) with (off + 8 + i * 8) by lia.
  destruct (unpack e 2 (slice data (off + 8 + i * 8) (off + 8 + i * 8 + 8)))
    as [[|l [|o [|? ?]]]|]; cbn [bind]; try reflexivity.
  now rewrite IH.
Qed.

Lemma pack_table_len offs table : pack_table offs = Ok table ->
  len table = 8 * len offs.
Proof.
  revert table. induction offs as [|[l o] offs IH]; intros table;
    cbn [pack_table].
  - intros [= <-]. reflexivity.
  - destruct (pack_II l o) as [b|] eqn:Eb; cbn [bind]; [|discriminate].
    destruct (pack_table offs) as [bs|] eqn:Ebs; cbn [bind]; [|discriminate].
    intros [= <-]. apply pack_II_ok in Eb as (_ & _ & Hb & _).
    rewrite len_app, len_cons, Hb, (IH bs eq_refl). lia.
Qed.

Lemma read_table_loop_packed offs : forall table pre post,
  pack_table offs = Ok table ->
  read_table_loop LittleEndian (pre ++ table ++ post) (len pre) 0
                  (List.length offs) = Ok offs.
Proof.
  induction offs as [|[l o] offs IH]; intros table pre post;
    cbn [pack_table List.length read_table_loop]; [reflexivity|].
  destruct (pack_II l o) as [b|] eqn:Eb; cbn [bind]; [|discriminate].
  destruct (pack_table offs) as [bs|] eqn:Ebs; cbn [bind]; [|discriminate].
  intros [= <-]. apply pack_II_ok in Eb as (_ & _ & Hb & Hu).
  rewrite <- app_assoc.
  rewrite (@slice_middle _ pre b (bs ++ post)) by lia.
  rewrite Hu. cbn [bind].
  rewrite (read_table_loop_shift LittleEndian _ (len pre) (List.length offs) 0).
  replace (len pre + 8) with (len (pre ++ b)) by (rewrite len_app; lia).
  replace (pre ++ b ++ bs ++ post) with ((pre ++ b) ++ bs ++ post)
    by now rewrite <- app_assoc.
  rewrite (IH bs (pre ++ b) post eq_refl). reflexivity.
Qed.

Lemma pack_table_bounds offs table : pack_table offs = Ok table ->
  Forall (fun lo : Z * Z => 0 <= fst lo < 4294967296
                            /\ 0 <= snd lo < 4294967296) offs.
Proof.
  revert table. induction offs as [|[l o] offs IH]; intros table;
    cbn [pack_table]; [constructor|].
  destruct (pack_II l o) as [b|] eqn:Eb; cbn [bind]; [|discriminate].
  destruct (pack_table offs) as [bs|] eqn:Ebs; cbn [bind]; [|discriminate].
  intros _. apply pack_II_ok in Eb as (Hl & Ho & _ & _).
  constructor; [now split|]. now apply (IH bs).
Qed.

(** ** The file [write_mo_bytes] builds, read back *)

Lemma raw_pairs_placed P hdr pool : forall ks vs offs_o offs_t,
  len hdr = P ->
  Forall2 (placed P pool) ks offs_o ->
  Forall2 (placed P pool) vs offs_t ->
  raw_pairs_of (hdr ++ pool) offs_o offs_t = combine ks vs.
Proof.
  intros ks vs offs_o offs_t HP Hk. revert vs offs_t.
  induction Hk as [|k [l o] ks offs_o Hp Hk IH]; intros vs offs_t Hv;
    [reflexivity|].
  destruct Hv as [|v [tl to] vs offs_t Hq Hv]; [reflexivity|].
  unfold raw_pairs_of in *. cbn [combine map]. rewrite (IH _ _ Hv).
  destruct Hp as (Hl1 & _ & Ho1 & Hs1). destruct Hq as (Hl2 & _ & Ho2 & Hs2).
  cbn [fst snd] in *. f_equal. f_equal.
  - replace o with (len hdr + (o - P)) at 1 by lia.
    replace (o + l) with (len hdr + (o - P + l)) by lia.
    rewrite slice_app_r by lia. assumption.
  - replace to with (len hdr + (to - P)) at 1 by lia.
    replace (to + tl) with (len hdr + (to - P + tl)) by lia.
    rewrite slice_app_r by lia. assumption.
Qed.

Lemma Forall2_length_len {A B} (R : A -> B -> Prop) l1 l2 :
  Forall2 R l1 l2 -> len l1 = len l2.
Proof. intros H. unfold len. now rewrite (Forall2_length H). Qed.

Lemma Forall2_placed_aligned P pool ks offs :
  Forall2 (placed P pool) ks offs ->
  Forall (fun lo : Z * Z => snd lo mod 4 = 0) offs.
Proof.
  induction 1 as [|k lo ks offs (_ & Hm & _) _ IH]; constructor; assumption.
Qed.

Lemma Forall2_placed_lengths P pool ks offs :
  Forall2 (placed P pool) ks offs -> map fst offs = map len ks.
Proof.
  induction 1 as [|k lo ks offs (Hl & _) _ IH]; cbn [map]; [reflexivity|].
  now rewrite Hl, IH.
Qed.

(** What [read_mo] finds in the bytes [write_mo_bytes] returns: the
    little-endian header, the two tables with aligned offsets, and the
    sorted keys with their values as the raw pairs. *)
Lemma write_mo_bytes_read_back (by_key : list (bytes * bytes)) (out : bytes) :
  write_mo_bytes by_key = Ok out ->
  let keys := sorted (dict_keys by_key) in
  let values := map (by_key_get by_key) keys in
  let n := len keys in
  exists offs_o offs_t,
    read_header out = Ok (LittleEndian, n, 28, 28 + n * 8)
    /\ read_table LittleEndian out n 28 = Ok offs_o
    /\ read_table LittleEndian out n (28 + n * 8) = Ok offs_t
    /\ Forall (fun lo : Z * Z => snd lo mod 4 = 0) (offs_o ++ offs_t)
    /\ map fst offs_o = map len keys
    /\ map fst offs_t = map len values
    /\ raw_pairs_of out offs_o offs_t = combine keys values.
Proof.
  intros Hw keys values n. unfold write_mo_bytes in Hw.
  fold keys in Hw. fold values in Hw. fold n in Hw.
  set (P := 28 + n * 8 + n * 8) in *.
  assert (Hn0 : 0 <= n) by apply len_nonneg.
  assert (Hinv0 : pool_inv P (mkLayout [] P [])).
  { unfold pool_inv. cbn [pool cur_off]. unfold len. cbn. lia. }
  destruct (@fold_place_spec P keys _ Hinv0 ltac:(cbn; lia))
    as (Hinv1 & Hc1 & [ext1 Hp1] & offs_o & Ho1 & Hpl1).
  set (st_o := fold_left (place P) keys (mkLayout [] P [])) in *.
  assert (Hinv1' : pool_inv P (mkLayout (pool st_o) (cur_off st_o) [])).
  { exact Hinv1. }
  destruct (@fold_place_spec P values _ Hinv1' ltac:(cbn in *; lia))
    as (Hinv2 & Hc2 & [ext2 Hp2] & offs_t & Ho2 & Hpl2).
  set (st_t := fold_left (place P) values
                         (mkLayout (pool st_o) (cur_off st_o) [])) in *.
  cbn [pool cur_off offsets app] in Ho1, Ho2, Hp1, Hp2, Hc1, Hc2.
  rewrite Ho1, Ho2 in Hw.
  assert (Hpl1' : Forall2 (placed P (pool st_t)) keys offs_o).
  { rewrite Hp2. eapply Forall2_impl; [|exact Hpl1].
    intros k lo H. now apply placed_app. }
  destruct (pack_I 2500072158) as [h0|] eqn:E0; cbn [bind] in Hw;
    [|discriminate].
  destruct (pack_I 0) as [h1|] eqn:E1; cbn [bind] in Hw; [|discriminate].
  destruct (pack_I n) as [h2|] eqn:E2; cbn [bind] in Hw; [|discriminate].
  destruct (pack_I 28) as [h3|] eqn:E3; cbn [bind] in Hw; [|discriminate].
  destruct (pack_I (28 + n * 8)) as [h4|] eqn:E4; cbn [bind] in Hw;
    [|discriminate].
  destruct (pack_table offs_o) as [table_o|] eqn:Eo; cbn [bind] in Hw;
    [|discriminate].
  destruct (pack_table offs_t) as [table_t|] eqn:Et; cbn [bind] in Hw;
    [|discriminate].
  inversion Hw as [Hout]. clear Hw.
  apply pack_I_ok in E0 as [_ ->]. apply pack_I_ok in E1 as [_ ->].
  apply pack_I_ok in E2 as [Hn ->]. apply pack_I_ok in E3 as [_ ->].
  apply pack_I_ok in E4 as [Hn4 ->].
  pose proof (pack_table_len _ Eo) as Hlo.
  pose proof (pack_table_len _ Et) as Hlt.
  pose proof (Forall2_length_len Hpl1) as Hko.
  pose proof (Forall2_length_len Hpl2) as Hvt.
  assert (Hvn : len values = n).
  { unfold values, len. now rewrite length_map. }
  exists offs_o, offs_t.
  split; [|split; [|split; [|split; [|split; [|split]]]]].
  - rewrite read_header_fields. subst out. cbn [app].
    match goal with
    | |- context [len ?l <? 28] =>
        assert (Hlen : (len l <? 28) = false)
    end.
    { apply Z.ltb_ge. rewrite !len_cons.
      match goal with |- context [len ?r] => pose proof (len_nonneg r) end.
      lia. }
    rewrite Hlen. clear Hlen.
    unfold mo_endian, word_at. cbn [nth Nat.add].
    rewrite (@word_of_pack 2500072158) by lia. cbn [Z.eqb Pos.eqb].
    rewrite (@word_of_pack 0) by lia. cbn [Z.eqb negb].
    rewrite (@word_of_pack n) by lia. rewrite (@word_of_pack 28) by lia.
    rewrite (@word_of_pack (28 + n * 8)) by lia. reflexivity.
  - unfold read_table. replace (Z.to_nat n) with (List.length offs_o).
    2:{ clear - Hko. unfold n, len in *. lia. }
    subst out.
    match goal with
    | |- read_table_loop _ (?a ++ ?b ++ ?c ++ ?d ++ ?e ++ ?f ++ ?g ++ ?rest)
                         _ _ _ = _ =>
        replace (a ++ b ++ c ++ d ++ e ++ f ++ g ++ rest)
          with ((a ++ b ++ c ++ d ++ e ++ f ++ g) ++ rest)
          by (now rewrite <- !app_assoc);
        change 28 with (len (a ++ b ++ c ++ d ++ e ++ f ++ g)) at 1
    end.
    now apply read_table_loop_packed.
  - unfold read_table. replace (Z.to_nat n) with (List.length offs_t).
    2:{ clear - Hvt Hvn. unfold len in *. lia. }
    subst out.
    match goal with
    | |- read_table_loop _ (?a ++ ?b ++ ?c ++ ?d ++ ?e ++ ?f ++ ?g ++ ?t
                            ++ ?rest) _ _ _ = _ =>
        pose (pre := a ++ b ++ c ++ d ++ e ++ f ++ g ++ t);
        replace (a ++ b ++ c ++ d ++ e ++ f ++ g ++ t ++ rest)
          with (pre ++ rest)
          by (subst pre; now rewrite <- !app_assoc)
    end.
    assert (Hpre : 28 + n * 8 = len pre).
    { subst pre. rewrite !len_app, Hlo, <- Hko.
      unfold len at 1 2 3 4 5 6 7. cbn [List.length]. unfold n. lia. }
    rewrite Hpre. now apply read_table_loop_packed.
  - apply Forall_app. split.
    + apply (Forall2_placed_aligned Hpl1').
    + apply (Forall2_placed_aligned Hpl2).
  - apply (Forall2_placed_lengths Hpl1').
  - apply (Forall2_placed_lengths Hpl2).
  - subst out.
    match goal with
    | |- raw_pairs_of (?a ++ ?b ++ ?c ++ ?d ++ ?e ++ ?f ++ ?g ++ ?t ++ ?u
                       ++ ?rest) _ _ = _ =>
        replace (a ++ b ++ c ++ d ++ e ++ f ++ g ++ t ++ u ++ rest)
          with ((a ++ b ++ c ++ d ++ e ++ f ++ g ++ t ++ u) ++ rest)
          by (now rewrite <- !app_assoc)
    end.
    apply (@raw_pairs_placed P); [|assumption|assumption].
    rewrite !len_app, Hlo, Hlt, <- Hko, <- Hvt, Hvn.
    unfold len at 1 2 3 4 5 6 7. cbn [List.length]. unfold P, n. lia.
Qed.

Local Open Scope Z_scope.

(** * Writing an MO file: the sorted keys *)

Lemma bytes_eqb_eq a b : bytes_eqb a b = true <-> a = b.
Proof.
  revert b. induction a as [|x a IH]; destruct b as [|y b]; cbn;
    try (split; discriminate); [tauto|].
  rewrite andb_true_iff, IH. split.
  - intros [Hxy ->]. apply Byte.byte_dec_bl in Hxy. now subst.
  - intros [= -> ->]. split; [now apply Byte.byte_dec_lb|reflexivity].
Qed.

Lemma bytes_leb_refl a : bytes_leb a a = true.
Proof.
  induction a as [|x a IH]; cbn; [reflexivity|].
  rewrite Z.ltb_irrefl, Z.eqb_refl. assumption.
Qed.

Lemma bytes_leb_total a b : bytes_leb a b = true \/ bytes_leb b a = true.
Proof.
  revert b. induction a as [|x a IH]; destruct b as [|y b]; cbn; auto.
  destruct (Z.ltb_spec (byte_val x) (byte_val y)); [now left|].
  destruct (Z.ltb_spec (byte_val y) (byte_val x)); [now right|].
  assert (E : byte_val x = byte_val y) by lia.
  rewrite E, Z.eqb_refl. apply IH.
Qed.

Lemma bytes_leb_trans a b c :
  bytes_leb a b = true -> bytes_leb b c = true -> bytes_leb a c = true.
Proof.
  revert b c. induction a as [|x a IH]; intros [|y b] [|z c]; cbn; auto;
    try discriminate.
  destruct (Z.ltb_spec (byte_val x) (byte_val y)) as [Hxy|Hxy];
    destruct (Z.ltb_spec (byte_val y) (byte_val z)) as [Hyz|Hyz];
    destruct (Z.ltb_spec (byte_val x) (byte_val z)) as [Hxz|Hxz];
    try reflexivity; try lia.
  - destruct (Z.eqb_spec (byte_val y) (byte_val z)); [lia|discriminate].
  - destruct (Z.eqb_spec (byte_val x) (byte_val y)); [lia|discriminate].
  - destruct (Z.eqb_spec (byte_val x) (byte_val y)) as [E1|]; [|discriminate].
    destruct (Z.eqb_spec (byte_val y) (byte_val z)) as [E2|]; [|discriminate].
    rewrite E1, E2, Z.eqb_refl. apply IH.
Qed.

Lemma bytes_leb_antisym a b :
  bytes_leb a b = true -> bytes_leb b a = true -> a = b.
Proof.
  revert b. induction a as [|x a IH]; intros [|y b]; cbn; auto;
    try discriminate.
  destruct (Z.ltb_spec (byte_val x) (byte_val y)) as [Hxy|Hxy];
    destruct (Z.ltb_spec (byte_val y) (byte_val x)) as [Hyx|Hyx]; try lia.
  - destruct (Z.eqb_spec (byte_val y) (byte_val x)); [lia|discriminate].
  - destruct (Z.eqb_spec (byte_val x) (byte_val y)); [lia|discriminate].
  - destruct (Z.eqb_spec (byte_val x) (byte_val y)) as [E|]; [|discriminate].
    rewrite E, Z.eqb_refl. intros H1 H2.
    apply byte_val_inj in E. subst y. f_equal. now apply IH.
Qed.

Lemma insert_sorted_perm k l : Permutation (k :: l) (insert_sorted k l).
Proof.
  induction l as [|x l IH]; cbn; [reflexivity|].
  destruct (bytes_leb k x); [reflexivity|].
  rewrite perm_swap. now constructor.
Qed.

Lemma sorted_perm l : Permutation l (sorted l).
Proof.
  induction l as [|x l IH]; cbn; [constructor|].
  rewrite <- insert_sorted_perm. now constructor.
Qed.

Lemma insert_sorted_sorted k l :
  StronglySorted bytes_le l -> StronglySorted bytes_le (insert_sorted k l).
Proof.
  induction 1 as [|x l Hs IH Hx]; cbn.
  - repeat constructor.
  - destruct (bytes_leb k x) eqn:E.
    + constructor; [now constructor|]. constructor; [exact E|].
      eapply Forall_impl; [|exact Hx]. intros y Hy.
      eapply bytes_leb_trans; eassumption.
    + constructor; [assumption|].
      assert (Hxk : bytes_le x k).
      { destruct (bytes_leb_total k x) as [H|H]; [congruence|exact H]. }
      rewrite <- insert_sorted_perm. now constructor.
Qed.

Lemma sorted_sorted l : StronglySorted bytes_le (sorted l).
Proof.
  induction l as [|x l IH]; cbn; [constructor|].
  now apply insert_sorted_sorted.
Qed.

(** A sorted list without repetition is strictly increasing. *)
Lemma sorted_strict l :
  NoDup l -> StronglySorted bytes_le l -> StronglySorted bytes_lt l.
Proof.
  induction 2 as [|x l Hs IH Hx]; [constructor|].
  inversion H as [|? ? Hnin Hnd]; subst.
  constructor; [now apply IH|].
  rewrite Forall_forall in *. intros y Hy. split; [now apply Hx|].
  intros ->. contradiction.
Qed.

(** The keys of a dictionary are pairwise distinct. *)
Lemma dict_set_keys_NoDup (k v : bytes) d :
  NoDup (dict_keys d) -> NoDup (dict_keys (dict_set bytes_eqb k v d)).
Proof.
  unfold dict_keys.
  assert (Hin : forall d x, In x (map fst (dict_set bytes_eqb k v d)) ->
                            x = k \/ In x (map (@fst bytes bytes) d)).
  { clear d. induction d as [|[k' v'] d IH]; cbn; intros x Hx.
    - destruct Hx as [->|[]]. now left.
    - destruct (bytes_eqb k k') eqn:E; cbn in Hx.
      + apply bytes_eqb_eq in E; subst k'. destruct Hx; auto.
      + destruct Hx as [Hx|Hx]; [auto|].
        destruct (IH _ Hx); auto. }
  induction d as [|[k' v'] d IH]; cbn; intros Hnd.
  - repeat constructor. intros [].
  - inversion Hnd as [|? ? Hnin Hnd']; subst.
    destruct (bytes_eqb k k') eqn:E; cbn.
    + apply bytes_eqb_eq in E; subst k'. now constructor.
    + constructor; [|now apply IH].
      intros Hk. destruct (Hin _ _ Hk) as [->|Hk']; [|contradiction].
      rewrite (proj2 (bytes_eqb_eq k k) eq_refl) in E. discriminate.
Qed.

Section WriteMoSorted.
Context {CD : Codecs}.

Lemma fill_by_key_NoDup charset entries : forall d by_key,
  NoDup (dict_keys d) ->
  fill_by_key charset entries d = Ok by_key ->
  NoDup (dict_keys by_key).
Proof.
  induction entries as [|e entries IH]; intros d by_key Hd; cbn [fill_by_key].
  - now intros [= <-].
  - destruct (enc charset (key_string e)) as [k|]; cbn [bind]; [|discriminate].
    destruct (enc charset (val_string e)) as [v|]; cbn [bind]; [|discriminate].
    apply IH. now apply dict_set_keys_NoDup.
Qed.

Lemma combine_map_fst {A B} (f : A -> B) l :
  map fst (combine l (map f l)) = l.
Proof. induction l as [|x l IH]; cbn; [reflexivity|]. now rewrite IH. Qed.

(** C6: in every output of [write_mo], the original strings that the
    original-string table locates are in strictly increasing
    byte-lexicographic order: non-decreasing and pairwise distinct. *)
Theorem write_mo_keys_sorted (entries : list (PoEntry str)) (charset : str)
  (out : bytes) :
  write_mo entries charset = Ok out ->
  exists raw_pairs,
    read_raw_pairs out = Ok raw_pairs
    /\ StronglySorted bytes_lt (map fst raw_pairs)
    /\ StronglySorted bytes_le (map fst raw_pairs).
Proof.
  unfold write_mo.
  destruct (fill_by_key charset (with_header entries) []) as [by_key|] eqn:Ef;
    cbn [bind]; [|discriminate].
  intros Hw.
  destruct (write_mo_bytes_read_back _ Hw)
    as (offs_o & offs_t & Hh & Ho & Ht & _ & _ & _ & Hraw).
  exists (combine (sorted (dict_keys by_key))
                  (map (by_key_get by_key) (sorted (dict_keys by_key)))).
  split; [|rewrite combine_map_fst; split].
  - unfold read_raw_pairs. rewrite Hh. cbn [bind]. rewrite Ho. cbn [bind].
    rewrite Ht. cbn [bind]. now rewrite Hraw.
  - apply sorted_strict; [|apply sorted_sorted].
    eapply Permutation_NoDup; [apply sorted_perm|].
    eapply fill_by_key_NoDup; [|exact Ef]. constructor.
  - apply sorted_sorted.
Qed.

(** C7: in every output of [write_mo], each [(length, offset)] pair
    of the original-string table and of the translated-string table
    has an offset divisible by 4. *)
Theorem write_mo_offsets_aligned (entries : list (PoEntry str))
  (charset : str) (out : bytes) :
  write_mo entries charset = Ok out ->
  exists e n off_orig off_trans orig_table trans_table,
    read_header out = Ok (e, n, off_orig, off_trans)
    /\ read_table e out n off_orig = Ok orig_table
    /\ read_table e out n off_trans = Ok trans_table
    /\ Forall (fun lo : Z * Z => snd lo mod 4 = 0)
              (orig_table ++ trans_table).
Proof.
  unfold write_mo.
  destruct (fill_by_key charset (with_header entries) []) as [by_key|] eqn:Ef;
    cbn [bind]; [|discriminate].
  intros Hw.
  destruct (write_mo_bytes_read_back _ Hw)
    as (offs_o & offs_t & Hh & Ho & Ht & Hal & _).
  do 6 eexists. repeat split; eassumption.
Qed.

End WriteMoSorted.

Local Open Scope N_scope.

(** * Writing and reading an MO file: the round trip *)

Lemma mem_In c l : mem c l = true <-> In c l.
Proof.
  unfold mem. rewrite existsb_exists. split.
  - intros [x [Hx E]]. apply N.eqb_eq in E. now subst.
  - intros H. exists c. split; [assumption|apply N.eqb_refl].
Qed.

Lemma mem_not_In c l : ~ In c l -> mem c l = false.
Proof.
  intros H. destruct (mem c l) eqn:E; [|reflexivity].
  apply mem_In in E. contradiction.
Qed.

Lemma split1_none sep s : ~ In sep s -> split1 sep s = None.
Proof.
  induction s as [|c s IH]; cbn; [reflexivity|]. intros H.
  destruct (N.eqb_spec c sep) as [->|Hne]; [exfalso; apply H; now left|].
  rewrite IH; [reflexivity|]. intros Hin. apply H. now right.
Qed.

Lemma split1_app sep a b :
  ~ In sep a -> split1 sep (a ++ sep :: b) = Some (a, b).
Proof.
  induction a as [|c a IH]; cbn; intros H.
  - now rewrite N.eqb_refl.
  - destruct (N.eqb_spec c sep) as [->|Hne]; [exfalso; apply H; now left|].
    rewrite IH; [reflexivity|]. intros Hin. apply H. now right.
Qed.

Lemma split_no_sep sep s : ~ In sep s -> split sep s = [s].
Proof.
  induction s as [|c s IH]; cbn; [reflexivity|]. intros H.
  destruct (N.eqb_spec c sep) as [->|Hne]; [exfalso; apply H; now left|].
  rewrite IH; [reflexivity|]. intros Hin. apply H. now right.
Qed.

Lemma split_app sep a b :
  ~ In sep a -> split sep (a ++ sep :: b) = a :: split sep b.
Proof.
  induction a as [|c a IH]; cbn; intros H.
  - now rewrite N.eqb_refl.
  - destruct (N.eqb_spec c sep) as [->|Hne]; [exfalso; apply H; now left|].
    rewrite IH; [reflexivity|]. intros Hin. apply H. now right.
Qed.

Lemma split_join sep l :
  l <> [] -> Forall (fun s => ~ In sep s) l -> split sep (join [sep] l) = l.
Proof.
  intros Hne Hall. induction Hall as [|s l Hs Hall IH]; [contradiction|].
  destruct l as [|s' l].
  - cbn [join]. now apply split_no_sep.
  - cbn [join]. cbn [app]. rewrite split_app by assumption.
    f_equal. apply IH. discriminate.
Qed.

(** The record is read back from its key and value strings. *)
Lemma entry_of_key_val (e : PoEntry str) :
  wf_entry e -> entry_of_strings (key_string e) (val_string e) = e.
Proof.
  destruct e as [ctx id pl ms]. unfold wf_entry, entry_of_strings,
    key_string, val_string. cbn [msgctxt msgid msgid_plural msgstr].
  intros (Hctx & Hid & Hms & Hcount).
  assert (Hparts : forall val, val = match pl with
                                     | Some _ => join [NUL] ms
                                     | None => hd [] ms
                                     end ->
            (if mem NUL val then split NUL val else [val]) = ms).
  { intros val ->. destruct pl as [p|].
    - destruct (mem NUL (join [NUL] ms)) eqn:E.
      + now apply split_join.
      + rewrite <- (split_join NUL Hcount Hms) at 2.
        symmetry. apply split_no_sep. intros Hin.
        apply mem_In in Hin. congruence.
    - destruct Hcount as [s ->]. cbn [hd].
      inversion Hms as [|? ? Hs _]; subst. now rewrite mem_not_In. }
  destruct ctx as [c|].
  - destruct pl as [p|].
    + rewrite <- app_assoc. cbn [app]. rewrite split1_app by assumption.
      rewrite split1_app by assumption. now rewrite Hparts.
    + cbn [app]. rewrite split1_app by assumption.
      rewrite split1_none by assumption. now rewrite Hparts.
  - destruct Hctx as [Hi Hp]. destruct pl as [p|].
    + rewrite split1_none.
      2:{ intros Hin. apply in_app_or in Hin as [Hin|Hin]; [contradiction|].
          cbn in Hin. destruct Hin as [Hin|Hin]; [discriminate|contradiction]. }
      cbn [app]. rewrite split1_app by assumption. now rewrite Hparts.
    + rewrite split1_none by assumption.
      rewrite split1_none by assumption. now rewrite Hparts.
Qed.

Lemma entry_key_of_strings_indep ks v1 v2 :
  _entry_key (entry_of_strings ks v1) = _entry_key (entry_of_strings ks v2).
Proof.
  unfold entry_of_strings.
  destruct (split1 EOT ks) as [[c i]|];
    [destruct (split1 NUL i) as [[i' p]|]|destruct (split1 NUL ks) as [[i' p]|]];
    reflexivity.
Qed.

Lemma key_string_inj (e1 e2 : PoEntry str) :
  wf_entry e1 -> wf_entry e2 -> key_string e1 = key_string e2 ->
  _entry_key e1 = _entry_key e2.
Proof.
  intros H1 H2 E.
  rewrite <- (entry_of_key_val H1), <- (entry_of_key_val H2), E.
  apply entry_key_of_strings_indep.
Qed.

Section MoRoundTrip.
Context {CD : Codecs}.

Lemma dict_set_fresh (k v : bytes) d :
  ~ In k (dict_keys d) -> dict_set bytes_eqb k v d = d ++ [(k, v)].
Proof.
  unfold dict_keys. induction d as [|[k' v'] d IH]; cbn; intros H;
    [reflexivity|].
  destruct (bytes_eqb k k') eqn:E.
  - apply bytes_eqb_eq in E. subst. exfalso. apply H. now left.
  - rewrite IH; [reflexivity|]. intros Hin. apply H. now right.
Qed.

Lemma dict_get_In_NoDup (k v : bytes) d :
  NoDup (dict_keys d) -> In (k, v) d -> dict_get bytes_eqb k d = Some v.
Proof.
  unfold dict_keys. induction d as [|[k' v'] d IH]; cbn; intros Hnd Hin;
    [destruct Hin|].
  inversion Hnd as [|? ? Hnin Hnd']; subst.
  destruct Hin as [[= -> ->]|Hin].
  - now rewrite (proj2 (bytes_eqb_eq k k) eq_refl).
  - destruct (bytes_eqb k k') eqn:E; [|now apply IH].
    apply bytes_eqb_eq in E. subst k'. exfalso. apply Hnin.
    apply (in_map fst) in Hin. exact Hin.
Qed.

(** When the keys encode to pairwise distinct bytes, the dictionary is
    the list of the encoded entries, in order. *)
Lemma fill_by_key_distinct charset hc entries : forall d by_key,
  fill_by_key charset entries d = Ok by_key ->
  NoDup (map key_string entries) ->
  Forall (fun e => codec_roundtrip charset hc (key_string e)) entries ->
  (forall e k, In e entries -> enc charset (key_string e) = Ok k ->
               ~ In k (dict_keys d)) ->
  exists added, by_key = d ++ added /\ Forall2 (encodes charset) entries added.
Proof.
  induction entries as [|e entries IH]; intros d by_key Hf Hnd Hrt Hfresh;
    cbn [fill_by_key] in Hf.
  - inversion Hf; subst. exists []. split; [now rewrite app_nil_r|constructor].
  - destruct (enc charset (key_string e)) as [k|] eqn:Ek; cbn [bind] in Hf;
      [|discriminate].
    destruct (enc charset (val_string e)) as [v|] eqn:Ev; cbn [bind] in Hf;
      [|discriminate].
    inversion Hnd as [|? ? Hnin Hnd']; subst.
    inversion Hrt as [|? ? Hrt1 Hrt']; subst.
    rewrite dict_set_fresh in Hf by (apply (Hfresh e); [now left|assumption]).
    destruct (IH _ _ Hf Hnd' Hrt') as [added [-> Hadd]].
    + intros e' k' Hin' Ek' Hk'. unfold dict_keys in Hk'.
      rewrite map_app in Hk'. apply in_app_or in Hk' as [Hk'|Hk'].
      * apply (Hfresh e' k'); [now right|assumption|exact Hk'].
      * cbn in Hk'. destruct Hk' as [<-|[]].
        apply Hnin. apply in_map_iff. exists e'. split; [|assumption].
        rewrite <- (Hrt1 _ Ek). rewrite Forall_forall in Hrt'.
        now rewrite <- (Hrt' _ Hin' _ Ek').
    + exists ((k, v) :: added). split; [now rewrite <- app_assoc|].
      constructor; [now split|assumption].
Qed.

Lemma find_header_combine (f : bytes -> bytes) keys :
  find_header (combine keys (map f keys))
  = if existsb (fun k => bytes_eqb k []) keys then Some (f []) else None.
Proof.
  induction keys as [|k keys IH]; cbn; [reflexivity|].
  destruct k; cbn; [reflexivity|]. exact IH.
Qed.

Lemma existsb_nil_In keys :
  existsb (fun k => bytes_eqb k []) keys = true <-> In [] keys.
Proof.
  rewrite existsb_exists. split.
  - intros [k [Hk E]]. apply bytes_eqb_eq in E. now subst.
  - intros H. exists []. now split.
Qed.

Lemma find_header_sorted by_key :
  match find_header
          (combine (sorted (dict_keys by_key))
                   (map (by_key_get by_key) (sorted (dict_keys by_key)))) with
  | Some header_msgstr_bytes =>
      _detect_charset_from_header (decode_utf8_replace header_msgstr_bytes)
  | None => str_of "utf-8"
  end = declared_charset by_key.
Proof.
  rewrite find_header_combine. unfold declared_charset, by_key_get.
  destruct (existsb (fun k => bytes_eqb k []) (sorted (dict_keys by_key)))
    eqn:E.
  - apply existsb_nil_In in E.
    apply (Permutation_in _ (Permutation_sym (sorted_perm _))) in E.
    apply (dict_get_keys _ bytes_eqb_eq) in E as [v Hv]. now rewrite Hv.
  - destruct (dict_get bytes_eqb [] by_key) as [v|] eqn:Hv; [|reflexivity].
    assert (Hin : In [] (sorted (dict_keys by_key))).
    { apply (Permutation_in _ (sorted_perm _)).
      apply (dict_get_keys _ bytes_eqb_eq). eauto. }
    apply existsb_nil_In in Hin. congruence.
Qed.

Lemma combine_map_r {A B} (f : A -> B) l :
  combine l (map f l) = map (fun x => (x, f x)) l.
Proof. induction l as [|x l IH]; cbn; [reflexivity|]. now rewrite IH. Qed.

Lemma with_header_wf entries :
  Forall wf_entry entries -> Forall wf_entry (with_header entries).
Proof.
  intros H. unfold with_header. destruct (has_header entries); [assumption|].
  constructor; [|assumption].
  unfold wf_entry, synthetic_header. cbn.
  repeat split; try (intros []).
  - constructor; [|constructor]. intros Hin. apply mem_In in Hin.
    vm_compute in Hin. discriminate.
  - eauto.
Qed.

Lemma with_header_keys_NoDup entries :
  NoDup (map _entry_key entries) ->
  NoDup (map _entry_key (with_header entries)).
Proof.
  intros H. unfold with_header. destruct (has_header entries) eqn:E;
    [assumption|].
  cbn [map]. constructor; [|assumption].
  intros Hin. apply in_map_iff in Hin as [e [He Hin]].
  assert (Hx : has_header entries = true).
  { unfold has_header. apply existsb_exists. exists e. split; [assumption|].
    unfold _entry_key, synthetic_header in He. cbn in He.
    inversion He as [[Hc Hi Hp]]. now rewrite Hi. }
  congruence.
Qed.

Lemma key_strings_NoDup (entries : list (PoEntry str)) :
  Forall wf_entry entries -> NoDup (map _entry_key entries) ->
  NoDup (map key_string entries).
Proof.
  induction 1 as [|e entries He Hall IH]; cbn [map]; intros Hnd;
    [constructor|].
  inversion Hnd as [|? ? Hnin Hnd']; subst.
  constructor; [|now apply IH].
  intros Hin. apply in_map_iff in Hin as [e' [Hk Hin]].
  apply Hnin. apply in_map_iff. exists e'. split; [|assumption].
  rewrite Forall_forall in Hall. now apply key_string_inj; auto.
Qed.

Lemma decode_encoded charset hc (get : bytes -> bytes) es kvs :
  Forall2 (encodes charset) es kvs ->
  Forall (fun e => codec_roundtrip charset hc (key_string e)
                   /\ codec_roundtrip charset hc (val_string e)) es ->
  Forall wf_entry es ->
  (forall kv, In kv kvs -> get (fst kv) = snd kv) ->
  map (fun kv => entry_of_strings (decode hc (fst kv))
                                  (decode hc (get (fst kv)))) kvs = es.
Proof.
  induction 1 as [|e kv es kvs [Hk Hv] Hadd IH]; intros Hrt Hwf Hall;
    [reflexivity|].
  inversion Hrt as [|? ? [Hr1 Hr2] Hrt']; subst.
  inversion Hwf as [|? ? Hw1 Hwf']; subst.
  cbn [map]. f_equal.
  - rewrite (Hall kv (or_introl eq_refl)).
    rewrite (Hr1 _ Hk), (Hr2 _ Hv). now apply entry_of_key_val.
  - apply IH; try assumption. intros kv' Hin. apply Hall. now right.
Qed.

(** C2, as amended: let the entries of the catalog be determined by
    their key and value strings ([wf_entry]), their keys be pairwise
    distinct, and every key and value string that [write_mo] encodes
    decode back under the charset [read_mo] resolves.  Then decoding
    the output of [write_mo] returns the charset that the Charset
    Resolver reads in the stored header translation, which need not be
    the charset argument, and an entry sequence that is a permutation
    of the catalog (with the synthesized header entry, when the catalog
    has no entry with an empty id): every entry of the catalog is found
    in it, with its translations. *)
Theorem mo_roundtrip (entries : list (PoEntry str)) (charset : str)
  (out : bytes) :
  write_mo entries charset = Ok out ->
  Forall wf_entry entries ->
  NoDup (map _entry_key entries) ->
  Forall (fun e =>
            codec_roundtrip charset (header_charset_of charset entries)
                            (key_string e)
            /\ codec_roundtrip charset (header_charset_of charset entries)
                               (val_string e))
         (with_header entries) ->
  exists decoded,
    read_mo out = Ok (header_charset_of charset entries, decoded)
    /\ Permutation (with_header entries) decoded
    /\ (forall e, In e entries -> In e decoded).
Proof.
  intros Hw Hwf Hnd Hrt. unfold write_mo in Hw. unfold header_charset_of in *.
  destruct (fill_by_key charset (with_header entries) []) as [by_key|] eqn:Ef;
    cbn [bind] in Hw; [|discriminate].
  set (hc := declared_charset by_key) in *.
  destruct (write_mo_bytes_read_back _ Hw)
    as (offs_o & offs_t & Hh & Ho & Ht & _ & _ & _ & Hraw).
  set (keys := sorted (dict_keys by_key)) in *.
  pose proof (with_header_wf Hwf) as Hwf'.
  pose proof (key_strings_NoDup Hwf' (with_header_keys_NoDup _ Hnd)) as Hks.
  destruct (@fill_by_key_distinct charset hc (with_header entries) [] by_key Ef Hks)
    as [added [Hby Hadd]].
  { eapply Forall_impl; [|exact Hrt]. now intros e [H _]. }
  { intros e k _ _ []. }
  cbn [app] in Hby. subst added.
  assert (Hkd : NoDup (dict_keys by_key)).
  { eapply fill_by_key_NoDup; [|exact Ef]. constructor. }
  set (h := fun k => entry_of_strings (decode hc k)
                                      (decode hc (by_key_get by_key k))).
  exists (map h keys).
  assert (Hmap : map h (dict_keys by_key) = with_header entries).
  { unfold dict_keys. rewrite map_map.
    assert (Hall : forall kv, In kv by_key ->
                              by_key_get by_key (fst kv) = snd kv).
    { intros [k v] Hin. unfold by_key_get. cbn [fst snd].
      now rewrite (@dict_get_In_NoDup k v by_key Hkd Hin). }
    unfold h. now apply (@decode_encoded charset hc). }
  split; [|split].
  - unfold read_mo, read_raw_pairs. rewrite Hh. cbn [bind].
    rewrite Ho. cbn [bind]. rewrite Ht. cbn [bind]. rewrite Hraw.
    unfold entries_of_raw_pairs. fold keys.
    pose proof (find_header_sorted by_key) as Hfh. fold keys in Hfh.
    rewrite Hfh. fold hc. f_equal. f_equal.
    rewrite combine_map_r, map_map. reflexivity.
  - rewrite <- Hmap. apply Permutation_map. apply sorted_perm.
  - intros e He.
    assert (Hin : In e (with_header entries)).
    { unfold with_header. destruct (has_header entries); [assumption|].
      now right. }
    rewrite <- Hmap in Hin. apply in_map_iff in Hin as [k [Hk Hin]].
    apply in_map_iff. exists k. split; [assumption|].
    apply (Permutation_in _ (sorted_perm _)). exact Hin.
Qed.

End MoRoundTrip.

Local Open Scope N_scope.

(** * Writing and reading a PO file: the round trip *)

(** ** Lines *)

Lemma splitlines_from_line acc l rest :
  no_break l ->
  splitlines_from acc (l ++ LF :: rest)
  = (rev acc ++ l) :: splitlines_from [] rest.
Proof.
  intros H. revert acc. induction H as [|c l Hc Hl IH]; intros acc.
  - cbn [app splitlines_from]. change (LF =? CR) with false.
    change (is_linebreak LF) with true. cbv iota. now rewrite app_nil_r.
  - cbn [app splitlines_from].
    destruct (N.eqb_spec c CR) as [->|Hne]; [discriminate Hc|].
    rewrite Hc, IH. cbn [rev]. now rewrite <- app_assoc.
Qed.

Lemma join_cons_app (sep : str) x l last :
  join sep (x :: l ++ [last]) = x ++ sep ++ join sep (l ++ [last]).
Proof. destruct l; reflexivity. Qed.

(** The text of lines that end with an empty line splits back into the
    lines before it. *)
Lemma splitlines_join L :
  Forall no_break L -> splitlines (join [LF] (L ++ [[]])) = L.
Proof.
  unfold splitlines. induction 1 as [|l L Hl HL IH]; [reflexivity|].
  cbn [app]. rewrite join_cons_app. cbn [app].
  rewrite splitlines_from_line by assumption. cbn [rev app]. f_equal. exact IH.
Qed.

Lemma no_break_app a b : no_break a -> no_break b -> no_break (a ++ b).
Proof. intros Ha Hb. apply Forall_app. now split. Qed.

Lemma po_char_no_break c :
  po_char c = true -> c <> LF -> c <> CR -> is_linebreak c = false.
Proof.
  unfold po_char, is_linebreak, mem. cbn [existsb]. intros H Hlf Hcr.
  apply andb_true_iff in H as [_ H]. apply negb_true_iff in H.
  destruct (N.eqb_spec c 10) as [->|?]; [contradiction|].
  destruct (N.eqb_spec c 13) as [->|?]; [contradiction|].
  repeat match type of H with
         | (?a || ?b) = false => apply orb_false_iff in H as [? H]
         end.
  repeat match goal with E : (c =? _) = false |- _ => rewrite E; clear E end.
  reflexivity.
Qed.

Lemma _po_escape_no_break s : po_str s -> no_break (_po_escape s).
Proof.
  induction 1 as [|c s Hc Hs IH]; [constructor|].
  rewrite _po_escape_cons. apply no_break_app; [|assumption].
  unfold escape_char.
  destruct (N.eqb_spec c BSL); [repeat constructor|].
  destruct (N.eqb_spec c DQ); [repeat constructor|].
  destruct (N.eqb_spec c TAB); [repeat constructor|].
  destruct (N.eqb_spec c CR); [repeat constructor|].
  destruct (N.eqb_spec c LF); [repeat constructor|].
  constructor; [|constructor]. now apply po_char_no_break.
Qed.

Lemma po_str_app a b : po_str a -> po_str b -> po_str (a ++ b).
Proof. intros Ha Hb. apply Forall_app. now split. Qed.

Lemma po_str_clean s : po_str s -> clean s.
Proof.
  apply Forall_impl. intros c H. unfold po_char in H.
  now apply andb_true_iff in H as [H _].
Qed.

Lemma quoted_no_break b : no_break b -> no_break (quoted b).
Proof.
  intros H. unfold quoted. constructor; [reflexivity|].
  apply no_break_app; [assumption|]. repeat constructor.
Qed.

(** The parts of [s.split(LF)]: they join back to [s], and hold no
    newline. *)
Lemma join_split sep s : join [sep] (split sep s) = s.
Proof.
  induction s as [|c s IH]; [reflexivity|]. cbn [split].
  destruct (c =? sep) eqn:E.
  - apply N.eqb_eq in E. subst c.
    destruct (split sep s) as [|p ps] eqn:Es; [destruct s; discriminate|].
    cbn [join app] in *. now rewrite IH.
  - destruct (split sep s) as [|p ps] eqn:Es.
    + destruct s as [|d s]; [discriminate|]. cbn in Es.
      destruct (d =? sep); [discriminate|].
      destruct (split sep s); discriminate.
    + destruct ps; cbn [join app] in *; now rewrite <- IH.
Qed.

Lemma split_parts sep s (P : N -> Prop) :
  Forall P s -> Forall (Forall P) (split sep s).
Proof.
  induction 1 as [|c s Hc Hs IH]; [repeat constructor|]. cbn [split].
  destruct (c =? sep).
  - constructor; [constructor|assumption].
  - destruct (split sep s) as [|p ps]; [repeat constructor; assumption|].
    inversion IH; subst. constructor; [now constructor|assumption].
Qed.

Lemma split_nonempty sep s : split sep s <> [].
Proof.
  destruct s as [|c s]; cbn; [discriminate|].
  destruct (c =? sep); [discriminate|]. destruct (split sep s); discriminate.
Qed.

(** ** One line of [read_po] *)

Lemma strip_space_quoted b : strip (32 :: quoted b) = quoted b.
Proof.
  unfold strip, strip_by. cbn [lstrip_by]. change (isspace 32) with true.
  cbv iota. unfold quoted. rewrite lstrip_by_keep by reflexivity.
  change (DQ :: b ++ [DQ]) with ((DQ :: b) ++ [DQ]).
  now apply rstrip_by_keep.
Qed.

(** A line that starts with a letter and ends with a quoted string is
    not changed by [strip]. *)
Lemma strip_directive kw b :
  match kw with
  | c :: _ => isspace c = false
  | [] => False
  end ->
  strip (kw ++ quoted b) = kw ++ quoted b.
Proof.
  destruct kw as [|c kw]; [intros []|]. intros Hc. unfold quoted.
  replace ((c :: kw) ++ DQ :: b ++ [DQ]) with (c :: (kw ++ DQ :: b) ++ [DQ])
    by (cbn [app]; now rewrite <- app_assoc).
  now apply strip_by_keep.
Qed.

Section ReadPoLines.
Context {LE : LiteralEval} {UD : UnicodeDigits}.

Lemma po_line_msgctxt st b :
  po_line st (str_of "msgctxt " ++ quoted b)
  = Ok (with_cur st
          (mkPoEntry (Some (_parse_po_string_literal (quoted b)))
                     (msgid (cur_or_new st)) (msgid_plural (cur_or_new st))
                     (msgstr (cur_or_new st)))
          A_msgctxt).
Proof.
  unfold po_line.
  change (str_of "msgctxt ") with [109; 115; 103; 99; 116; 120; 116; 32].
  rewrite strip_directive by reflexivity. cbn [app].
  eval_startswith. cbv iota. cbn [skipn]. now rewrite strip_space_quoted.
Qed.


Lemma po_line_msgid_plural st b :
  po_line st (str_of "msgid_plural " ++ quoted b)
  = Ok (with_cur st
          (mkPoEntry (msgctxt (cur_or_new st)) (msgid (cur_or_new st))
                     (Some (_parse_po_string_literal (quoted b)))
                     (msgstr (cur_or_new st)))
          A_msgid_plural).
Proof.
  unfold po_line.
  change (str_of "msgid_plural ")
    with [109; 115; 103; 105; 100; 95; 112; 108; 117; 114; 97; 108; 32].
  rewrite strip_directive by reflexivity. cbn [app].
  eval_startswith. cbv iota. cbn [skipn]. now rewrite strip_space_quoted.
Qed.

Lemma po_line_msgid st b :
  po_line st (str_of "msgid " ++ quoted b)
  = Ok (with_cur st
          (mkPoEntry (msgctxt (cur_or_new st))
                     (_parse_po_string_literal (quoted b))
                     (msgid_plural (cur_or_new st)) (msgstr (cur_or_new st)))
          A_msgid).
Proof.
  unfold po_line.
  change (str_of "msgid ") with [109; 115; 103; 105; 100; 32].
  rewrite strip_directive by reflexivity. cbn [app].
  eval_startswith. cbv iota. cbn [skipn]. now rewrite strip_space_quoted.
Qed.

Lemma po_line_msgstr st b :
  po_line st (str_of "msgstr " ++ quoted b)
  = Ok (with_cur st
          (mkPoEntry (msgctxt (cur_or_new st)) (msgid (cur_or_new st))
                     (msgid_plural (cur_or_new st))
                     (match msgstr (cur_or_new st) with
                      | _ :: l => _parse_po_string_literal (quoted b) :: l
                      | [] => [_parse_po_string_literal (quoted b)]
                      end))
          (A_msgstr 0)).
Proof.
  unfold po_line, match_msgstr_index.
  change (str_of "msgstr ") with [109; 115; 103; 115; 116; 114; 32].
  rewrite strip_directive by reflexivity. cbn [app].
  eval_startswith. cbv iota. cbn [skipn]. now rewrite strip_space_quoted.
Qed.

(** A continuation line. *)
Lemma po_line_quoted st b :
  po_line st (quoted b)
  = match active_key st, cur st with
    | Some k, Some c =>
        c' <- continuation c k (_parse_po_string_literal (quoted b)) ;;
        Ok (mkPoState (entries st) (Some c') (active_key st)
                      (nonlocal_header st))
    | _, _ => Ok st
    end.
Proof.
  unfold po_line, match_msgstr_index. rewrite strip_quoted.
  unfold quoted at 1 2 3 4 5 6 7 8. eval_startswith. cbv iota.
  reflexivity.
Qed.

(** The empty line that ends an entry. *)
Lemma po_line_blank st :
  po_line st []
  = (st' <- flush st ;;
     Ok (mkPoState (entries st') (cur st') None (nonlocal_header st'))).
Proof. reflexivity. Qed.

(** *** The index of a [msgstr[N]] line *)

Lemma digits_of_uint_span d rest :
  span_digits (digits_of_uint d ++ 93 :: rest)
  = (map (fun c => c - 48) (digits_of_uint d), 93 :: rest).
Proof.
  assert (H93 : decimal_value 93 = None).
  { now rewrite decimal_value_ascii by reflexivity. }
  induction d; cbn [digits_of_uint app span_digits map];
    try (rewrite decimal_value_ascii by reflexivity; cbn [andb N.leb];
         cbv iota; rewrite IHd; reflexivity).
  now rewrite H93.
Qed.

Lemma int_of_digits_uint d : forall a,
  fold_left (fun a d => 10 * a + d)
            (map (fun c => c - 48) (digits_of_uint d)) a
  = N.of_nat (Nat.of_uint_acc d (N.to_nat a)).
Proof.
  induction d; intros a; cbn [digits_of_uint map fold_left Nat.of_uint_acc];
    try (rewrite IHd; f_equal; f_equal; rewrite Nat.tail_mul_spec; lia).
  lia.
Qed.

Lemma int_of_decimal i :
  N.to_nat (int_of_digits (map (fun c => c - 48) (decimal i))) = i.
Proof.
  unfold int_of_digits, decimal. rewrite int_of_digits_uint.
  change (Nat.of_uint_acc (Nat.to_uint i) (N.to_nat 0))
    with (Nat.of_uint (Nat.to_uint i)).
  rewrite DecimalNat.Unsigned.of_to. lia.
Qed.

Lemma decimal_nonempty i : decimal i <> [].
Proof.
  unfold decimal. intros H.
  pose proof (DecimalNat.Unsigned.to_of (Nat.to_uint i)) as Hi.
  rewrite DecimalNat.Unsigned.of_to in Hi.
  destruct (Nat.to_uint i) eqn:E; discriminate.
Qed.

Lemma po_line_msgstr_index st i b :
  po_line st (str_of "msgstr[" ++ decimal i ++ str_of "] " ++ quoted b)
  = Ok (with_cur st
          (mkPoEntry (msgctxt (cur_or_new st)) (msgid (cur_or_new st))
                     (msgid_plural (cur_or_new st))
                     (list_set i (_parse_po_string_literal (quoted b))
                               (pad_to i (msgstr (cur_or_new st)))))
          (A_msgstr i)).
Proof.
  unfold po_line, match_msgstr_index.
  replace (str_of "msgstr[" ++ decimal i ++ str_of "] " ++ quoted b)
    with ((str_of "msgstr[" ++ decimal i ++ str_of "] ") ++ quoted b)
    by now rewrite <- !app_assoc.
  rewrite strip_directive by reflexivity.
  rewrite <- !app_assoc.
  change (str_of "msgstr[") with [109; 115; 103; 115; 116; 114; 91].
  change (str_of "] ") with [93; 32].
  cbn [app]. eval_startswith. cbv iota. cbn [skipn].
  unfold decimal. rewrite digits_of_uint_span.
  fold (decimal i).
  destruct (map (fun c => c - 48) (decimal i)) as [|d ds] eqn:E.
  { apply map_eq_nil in E. now apply decimal_nonempty in E. }
  change (93 =? 93) with true. cbv iota.
  rewrite <- E, int_of_decimal. now rewrite strip_space_quoted.
Qed.

End ReadPoLines.

(** ** The lines of one field *)

Lemma quote_parts_pieces parts : quote_parts parts = map lit (pieces parts).
Proof.
  induction parts as [|p [|q parts] IH]; [reflexivity|reflexivity|].
  change (quote_parts (p :: q :: parts))
    with (quoted (_po_escape (p ++ [LF])) :: quote_parts (q :: parts)).
  change (pieces (p :: q :: parts)) with ((p ++ [LF]) :: pieces (q :: parts)).
  cbn [map]. now rewrite IH.
Qed.

Lemma _po_quote_pieces s : _po_quote s = map lit (po_pieces s).
Proof.
  destruct s as [|c s]; [reflexivity|].
  unfold _po_quote, po_pieces. apply quote_parts_pieces.
Qed.

Lemma concat_pieces parts : concat (pieces parts) = join [LF] parts.
Proof.
  induction parts as [|p [|q parts] IH]; [reflexivity|apply app_nil_r|].
  change (pieces (p :: q :: parts)) with ((p ++ [LF]) :: pieces (q :: parts)).
  change (join [LF] (p :: q :: parts))
    with (p ++ [LF] ++ join [LF] (q :: parts)).
  cbn [concat]. rewrite IH. now rewrite <- app_assoc.
Qed.

Lemma concat_po_pieces s : concat (po_pieces s) = s.
Proof.
  destruct s as [|c s]; [reflexivity|].
  unfold po_pieces. rewrite concat_pieces. apply join_split.
Qed.

Lemma po_pieces_nonempty s : po_pieces s <> [].
Proof.
  destruct s as [|c s]; [discriminate|]. unfold po_pieces.
  pose proof (@split_nonempty LF (c :: s)) as H.
  destruct (split LF (c :: s)) as [|p [|q ps]]; [contradiction| |];
    discriminate.
Qed.

Lemma pieces_po_str parts : Forall po_str parts -> Forall po_str (pieces parts).
Proof.
  induction 1 as [|p parts Hp Hparts IH]; [constructor|].
  destruct parts as [|q parts]; [now repeat constructor|].
  change (pieces (p :: q :: parts)) with ((p ++ [LF]) :: pieces (q :: parts)).
  constructor; [|assumption]. apply po_str_app; [assumption|].
  now repeat constructor.
Qed.

Lemma po_pieces_po_str s : po_str s -> Forall po_str (po_pieces s).
Proof.
  intros H. destruct s as [|c s]; [repeat constructor|].
  unfold po_pieces. apply pieces_po_str. now apply split_parts.
Qed.

Lemma lit_no_break p : po_str p -> no_break (lit p).
Proof.
  intros H. apply quoted_no_break. now apply _po_escape_no_break.
Qed.

(** *** The field a directive assigns *)

Lemma list_set_length {A} idx (v : A) l :
  List.length (list_set idx v l) = List.length l.
Proof.
  revert idx. induction l as [|x l IH]; intros [|i]; cbn; auto.
Qed.

Lemma list_set_nth_error {A} idx (v : A) l :
  (idx < List.length l)%nat -> nth_error (list_set idx v l) idx = Some v.
Proof.
  revert idx. induction l as [|x l IH]; intros [|i]; cbn; intros H;
    try lia; [reflexivity|]. apply IH. lia.
Qed.

Lemma list_set_twice {A} idx (v w : A) l :
  list_set idx w (list_set idx v l) = list_set idx w l.
Proof.
  revert idx. induction l as [|x l IH]; intros [|i]; cbn; auto.
  now rewrite IH.
Qed.

Lemma pad_to_length idx l : (idx < List.length (pad_to idx l))%nat.
Proof. unfold pad_to. rewrite length_app, repeat_length. lia. Qed.

Lemma pad_to_enough idx l : (idx < List.length l)%nat -> pad_to idx l = l.
Proof.
  intros H. unfold pad_to.
  replace (S idx - List.length l)%nat with 0%nat by lia. apply app_nil_r.
Qed.

Section ReadPoFields.
Context {LE : LiteralEval} {UD : UnicodeDigits}.

Lemma po_line_directive k kw st b :
  kw_for k kw ->
  po_line st (kw ++ quoted b)
  = Ok (with_cur st (assign k (_parse_po_string_literal (quoted b))
                            (cur_or_new st)) k).
Proof.
  intros [| | | |i].
  - apply po_line_msgctxt.
  - apply po_line_msgid.
  - apply po_line_msgid_plural.
  - rewrite po_line_msgstr. unfold assign, pad_to.
    destruct (msgstr (cur_or_new st)) as [|x l]; [reflexivity|].
    cbn [List.length Nat.sub repeat]. now rewrite app_nil_r.
  - rewrite <- !app_assoc. apply po_line_msgstr_index.
Qed.

(** A continuation line appends to the field [assign] has set. *)
Lemma continuation_assign k (x f : str) c :
  continuation (assign k (VStr x) c) k (VStr f)
  = Ok (assign k (VStr (x ++ f)) c).
Proof.
  destruct k as [| | |idx]; cbn [assign continuation msgctxt msgid
                                 msgid_plural msgstr or_empty].
  - destruct x; reflexivity.
  - reflexivity.
  - destruct x; reflexivity.
  - rewrite pad_to_enough
      by (rewrite list_set_length; apply pad_to_length).
    rewrite (nth_error_nth _ _ _ (list_set_nth_error _ _ (pad_to_length idx _))).
    cbn [py_add bind]. now rewrite list_set_twice.
Qed.

Lemma po_lines_app st a b :
  po_lines st (a ++ b) = (st' <- po_lines st a ;; po_lines st' b).
Proof.
  revert st. induction a as [|l a IH]; intros st; [reflexivity|].
  cbn [app po_lines]. destruct (po_line st l); [apply IH|reflexivity].
Qed.

Lemma parse_lit p : clean p -> _parse_po_string_literal (lit p) = VStr p.
Proof.
  intros H. apply parse_quoted. now apply short_string_value_escape.
Qed.

Lemma po_lines_continuations k ps : forall entries0 h c x,
  Forall clean ps ->
  po_lines (mkPoState entries0 (Some (assign k (VStr x) c)) (Some k) h)
           (map lit ps)
  = Ok (mkPoState entries0 (Some (assign k (VStr (x ++ concat ps)) c))
                  (Some k) h).
Proof.
  induction ps as [|p ps IH]; intros entries0 h c x Hps.
  - cbn. now rewrite app_nil_r.
  - inversion Hps as [|? ? Hp Hps']; subst.
    cbn [map po_lines]. unfold lit at 1. rewrite po_line_quoted.
    cbn [active_key cur entries nonlocal_header].
    fold (lit p). rewrite (parse_lit Hp), continuation_assign.
    cbn [bind]. rewrite IH by assumption. cbn [concat].
    now rewrite app_assoc.
Qed.

(** The lines [write_po] writes for one field set the field to the
    string, whatever [cur] was. *)
Lemma po_lines_field k kw st s :
  kw_for k kw -> po_str s ->
  po_lines st (emit kw (_po_quote s))
  = Ok (with_cur st (assign k (VStr s) (cur_or_new st)) k).
Proof.
  intros Hk Hs. rewrite _po_quote_pieces.
  pose proof (po_pieces_po_str Hs) as Hps.
  pose proof (concat_po_pieces s) as Hcat.
  destruct (po_pieces s) as [|p ps] eqn:E;
    [now apply po_pieces_nonempty in E|].
  inversion Hps as [|? ? Hp Hps']; subst.
  unfold emit. cbn [map hd tl po_lines].
  unfold lit at 1. rewrite (po_line_directive st _ Hk).
  fold (lit p). rewrite (parse_lit (po_str_clean Hp)). cbn [bind].
  unfold with_cur. rewrite po_lines_continuations.
  - reflexivity.
  - eapply Forall_impl; [|exact Hps']. apply po_str_clean.
Qed.

End ReadPoFields.

(** ** The lines of one entry, and of a catalog *)

Lemma list_set_app_last {A} (v x : A) l :
  list_set (List.length l) v (l ++ [x]) = l ++ [v].
Proof. induction l as [|y l IH]; cbn; [reflexivity|]. now rewrite IH. Qed.

Lemma pad_to_next l : pad_to (List.length l) l = l ++ [VStr []].
Proof.
  unfold pad_to.
  now replace (S (List.length l) - List.length l)%nat with 1%nat by lia.
Qed.

Section ReadPoEntries.
Context {LE : LiteralEval} {UD : UnicodeDigits}.

(** The loop over the translations of a plural entry appends them to
    [cur.msgstr]. *)
Lemma po_lines_msgstr_lines ss : forall entries0 c k h,
  Forall po_str ss ->
  exists k',
    po_lines (mkPoState entries0 (Some c) k h)
             (msgstr_lines (List.length (msgstr c)) ss)
    = Ok (mkPoState entries0
            (Some (mkPoEntry (msgctxt c) (msgid c) (msgid_plural c)
                             (msgstr c ++ map VStr ss)))
            k' h).
Proof.
  induction ss as [|s ss IH]; intros entries0 c k h Hss.
  - exists k. cbn. rewrite app_nil_r. now destruct c.
  - inversion Hss as [|? ? Hs Hss']; subst.
    cbn [msgstr_lines]. rewrite po_lines_app.
    rewrite (po_lines_field _ (kw_msgstr_index _) Hs). cbn [bind].
    unfold with_cur, assign.
    cbn [cur_or_new cur entries nonlocal_header].
    rewrite pad_to_next, list_set_app_last.
    set (c' := mkPoEntry (msgctxt c) (msgid c) (msgid_plural c)
                         (msgstr c ++ [VStr s])).
    replace (S (List.length (msgstr c))) with (List.length (msgstr c'))
      by (unfold c'; cbn [msgstr]; rewrite length_app; cbn; lia).
    destruct (IH entries0 c' (Some (A_msgstr (List.length (msgstr c)))) h Hss')
      as [k' Hk'].
    exists k'. rewrite Hk'. unfold c'. cbn [msgctxt msgid msgid_plural msgstr].
    cbn [map]. now rewrite <- app_assoc.
Qed.

(** The lines of one entry add it to [entries]. *)
Lemma po_lines_entry entries0 h (e : PoEntry str) :
  po_wf e ->
  exists h',
    po_lines (mkPoState entries0 None None h) (entry_lines e)
    = Ok (mkPoState (entries0 ++ [entry_map VStr e]) None None h').
Proof.
  destruct e as [ctx id pl ms]. unfold po_wf, entry_lines, entry_map.
  cbn [msgctxt msgid msgid_plural msgstr].
  intros (Hctx & Hid & Hpl & Hms).
  (* msgctxt *)
  rewrite po_lines_app.
  assert (H1 : exists k1 cur1,
    po_lines (mkPoState entries0 None None h)
      match ctx with
      | Some c => emit (str_of "msgctxt ") (_po_quote c)
      | None => []
      end = Ok (mkPoState entries0 cur1 k1 h)
    /\ cur_or_new (mkPoState entries0 cur1 k1 h)
       = mkPoEntry (option_map VStr ctx) (VStr []) None []).
  { destruct ctx as [c|].
    - rewrite (po_lines_field _ kw_msgctxt Hctx). now eexists _, _.
    - now exists None, None. }
  destruct H1 as (k1 & cur1 & -> & Hc1). cbn [bind].
  (* msgid *)
  rewrite po_lines_app, (po_lines_field _ kw_msgid Hid). cbn [bind].
  rewrite Hc1. unfold with_cur, assign.
  cbn [msgctxt msgid msgid_plural msgstr entries nonlocal_header].
  (* msgid_plural and the translations *)
  rewrite po_lines_app.
  assert (H3 : exists k3,
    po_lines
      (mkPoState entries0
         (Some (mkPoEntry (option_map VStr ctx) (VStr id) None []))
         (Some A_msgid) h)
      match pl with
      | Some p => emit (str_of "msgid_plural ") (_po_quote p)
                  ++ msgstr_lines 0 ms
      | None => emit (str_of "msgstr ") (_po_quote (hd [] ms))
      end
    = Ok (mkPoState entries0
            (Some (mkPoEntry (option_map VStr ctx) (VStr id)
                             (option_map VStr pl) (map VStr ms)))
            k3 h)).
  { destruct pl as [p|].
    - rewrite po_lines_app, (po_lines_field _ kw_msgid_plural Hpl).
      cbn [bind]. unfold with_cur, assign.
      cbn [cur_or_new cur msgctxt msgid msgid_plural msgstr entries
           nonlocal_header].
      destruct (po_lines_msgstr_lines entries0
                  (mkPoEntry (option_map VStr ctx) (VStr id)
                             (Some (VStr p)) [])
                  (Some A_msgid_plural) h Hms) as [k' Hk'].
      exists k'. exact Hk'.
    - destruct Hpl as [s ->]. inversion Hms as [|? ? Hs _]; subst.
      cbn [hd]. rewrite (po_lines_field _ kw_msgstr Hs).
      eexists. reflexivity. }
  destruct H3 as [k3 ->]. cbn [bind].
  (* the empty line *)
  cbn [po_lines]. rewrite po_line_blank. unfold flush.
  cbn [cur msgstr msgid entries nonlocal_header active_key].
  assert (H4 : exists h',
    match map VStr ms with
    | first :: _ =>
        if is_empty_str (VStr id) then detect_charset_dyn first else Ok h
    | [] => Ok h
    end = Ok h').
  { destruct ms as [|s ms']; cbn [map]; [now exists h|].
    destruct (is_empty_str (VStr id)); cbn; eauto. }
  destruct H4 as [h' ->]. cbn [bind]. now exists h'.
Qed.

Lemma po_lines_catalog (C : list (PoEntry str)) : forall entries0 h,
  Forall po_wf C ->
  exists h',
    po_lines (mkPoState entries0 None None h) (flat_map entry_lines C)
    = Ok (mkPoState (entries0 ++ map (entry_map VStr) C) None None h').
Proof.
  induction C as [|e C IH]; intros entries0 h HC.
  - exists h. cbn. now rewrite app_nil_r.
  - inversion HC as [|? ? He HC']; subst.
    cbn [flat_map]. rewrite po_lines_app.
    destruct (po_lines_entry entries0 h He) as [h1 ->]. cbn [bind].
    destruct (IH (entries0 ++ [entry_map VStr e]) h1 HC') as [h' ->].
    exists h'. cbn [map]. now rewrite <- app_assoc.
Qed.

End ReadPoEntries.

(** ** The text [write_po] writes *)

Lemma digits_of_uint_no_break d : no_break (digits_of_uint d).
Proof. induction d; cbn; constructor; auto. Qed.

Lemma kw_for_no_break k kw : kw_for k kw -> no_break kw.
Proof.
  intros [| | | |i]; [repeat constructor..|].
  apply no_break_app; [repeat constructor|].
  apply no_break_app; [apply digits_of_uint_no_break|repeat constructor].
Qed.

Lemma emit_no_break k kw s :
  kw_for k kw -> po_str s -> Forall no_break (emit kw (_po_quote s)).
Proof.
  intros Hk Hs. rewrite _po_quote_pieces.
  pose proof (po_pieces_po_str Hs) as Hps.
  destruct (po_pieces s) as [|p ps] eqn:E;
    [now apply po_pieces_nonempty in E|].
  inversion Hps as [|? ? Hp Hps']; subst.
  unfold emit. cbn [map hd tl]. constructor.
  - apply no_break_app; [now apply (kw_for_no_break Hk)|now apply lit_no_break].
  - apply Forall_map. eapply Forall_impl; [|exact Hps'].
    intros q. apply lit_no_break.
Qed.

Lemma msgstr_lines_no_break ss : forall i,
  Forall po_str ss -> Forall no_break (msgstr_lines i ss).
Proof.
  induction ss as [|s ss IH]; intros i Hss; [constructor|].
  inversion Hss; subst. cbn [msgstr_lines]. apply Forall_app. split.
  - now apply (emit_no_break (kw_msgstr_index i)).
  - now apply IH.
Qed.

Lemma entry_lines_no_break (e : PoEntry str) :
  po_wf e -> Forall no_break (entry_lines e).
Proof.
  destruct e as [ctx id pl ms]. unfold po_wf, entry_lines.
  cbn [msgctxt msgid msgid_plural msgstr].
  intros (Hctx & Hid & Hpl & Hms).
  apply Forall_app. split.
  { destruct ctx; [now apply (emit_no_break kw_msgctxt)|constructor]. }
  apply Forall_app. split; [now apply (emit_no_break kw_msgid)|].
  apply Forall_app. split; [|repeat constructor].
  destruct pl as [p|].
  - apply Forall_app. split; [now apply (emit_no_break kw_msgid_plural)|].
    now apply msgstr_lines_no_break.
  - destruct Hpl as [s ->]. inversion Hms; subst.
    now apply (emit_no_break kw_msgstr).
Qed.

Lemma entry_lines_last (e : PoEntry str) :
  exists L, entry_lines e = L ++ [[]].
Proof. unfold entry_lines. eexists. now rewrite !app_assoc. Qed.

Lemma catalog_lines_last (C : list (PoEntry str)) :
  C <> [] -> exists L, flat_map entry_lines C = L ++ [[]].
Proof.
  induction C as [|e C IH]; [contradiction|]. intros _. cbn [flat_map].
  destruct C as [|e' C].
  - destruct (entry_lines_last e) as [L ->]. exists L. now rewrite app_nil_r.
  - destruct IH as [L HL]; [discriminate|]. rewrite HL.
    exists (entry_lines e ++ L). now rewrite app_assoc.
Qed.

Section PoRoundTrip.
Context {LE : LiteralEval} {UD : UnicodeDigits}.

(** C1, as amended: for every catalog whose strings hold no NUL, no
    surrogate and no line boundary other than newline and carriage
    return, and whose singular entries have exactly one translation,
    reading back the text [write_po] writes gives the entries of the
    catalog, field for field and in the same order. *)
Theorem po_roundtrip (C : list (PoEntry str)) :
  Forall po_wf C ->
  exists charset,
    read_po (write_po C) = Ok (charset, map (entry_map VStr) C).
Proof.
  intros HC. unfold read_po, write_po.
  assert (Hlines : splitlines (join [LF] (flat_map entry_lines C)) ++ [[]]
                   = match C with
                     | [] => [[]]
                     | _ => flat_map entry_lines C
                     end).
  { destruct C as [|e C]; [reflexivity|].
    destruct (@catalog_lines_last (e :: C)) as [L HL]; [discriminate|].
    rewrite HL. rewrite splitlines_join; [reflexivity|].
    assert (Hall : Forall no_break (flat_map entry_lines (e :: C))).
    { apply Forall_flat_map. eapply Forall_impl; [|exact HC].
      apply entry_lines_no_break. }
    rewrite HL in Hall. now apply Forall_app in Hall as [Hall _]. }
  rewrite Hlines.
  destruct C as [|e C].
  - exists (str_of "utf-8"). reflexivity.
  - destruct (po_lines_catalog [] (str_of "utf-8") HC) as [h' ->].
    exists h'. reflexivity.
Qed.

End PoRoundTrip.

Local Open Scope N_scope.

(** * Reading a PO file: where it can fail *)

Lemma startswith_app_false s p q :
  startswith s p = false -> startswith s (p ++ q) = false.
Proof.
  revert s. induction p as [|a p IH]; intros s; cbn; [discriminate|].
  destruct s as [|b s]; [reflexivity|].
  destruct (a =? b); cbn; [apply IH|reflexivity].
Qed.

Lemma write_po_no_CR_line l : no_break l -> ~ In CR l.
Proof.
  intros H Hin. unfold no_break in H. rewrite Forall_forall in H.
  specialize (H _ Hin). discriminate.
Qed.

Lemma join_LF_In c L :
  In c (join [LF] L) -> c = LF \/ exists l, In l L /\ In c l.
Proof.
  induction L as [|l [|l' L] IH]; cbn [join]; intros H.
  - destruct H.
  - right. exists l. split; [now left|assumption].
  - apply in_app_or in H as [H|H]; [right; exists l; split; [now left|assumption]|].
    cbn [app] in H. destruct H as [<-|H]; [now left|].
    destruct (IH H) as [->|[x [Hx Hc]]]; [now left|].
    right. exists x. split; [now right|assumption].
Qed.

(** The text [write_po] writes holds no carriage return, so the text
    mode of [read_text], which turns carriage returns into newlines,
    hands it to [read_po] as it was written. *)
Lemma write_po_no_CR (C : list (PoEntry str)) :
  Forall po_wf C -> ~ In CR (write_po C).
Proof.
  intros HC Hin. unfold write_po in Hin.
  apply join_LF_In in Hin as [Hin|[l [Hl Hc]]]; [discriminate|].
  assert (Hall : Forall no_break (flat_map entry_lines C)).
  { apply Forall_flat_map. eapply Forall_impl; [|exact HC].
    apply entry_lines_no_break. }
  rewrite Forall_forall in Hall. now apply (write_po_no_CR_line (Hall _ Hl)).
Qed.

Section ReadPoTotal.
Context {LE : LiteralEval} {UD : UnicodeDigits}.

(** A literal that does not start with a double quote, or that the
    evaluator rejects, gives the empty string. *)
Lemma parse_unquoted s :
  startswith (strip s) [DQ] = false -> _parse_po_string_literal s = VStr [].
Proof. intros H. unfold _parse_po_string_literal. now rewrite H. Qed.

Lemma parse_rejected s :
  literal_eval (strip s) = None -> _parse_po_string_literal s = VStr [].
Proof.
  intros H. unfold _parse_po_string_literal. rewrite H.
  now destruct (negb (startswith (strip s) [DQ])).
Qed.

(** A comment line, and a line that is neither a directive nor a
    continuation line, leave the state as it is. *)
Lemma po_line_comment st raw :
  startswith (strip raw) (str_of "#") = true -> po_line st raw = Ok st.
Proof.
  intros H. unfold po_line. rewrite H.
  destruct (strip raw); [discriminate H|reflexivity].
Qed.

Lemma po_line_ignored st raw :
  strip raw <> [] ->
  startswith (strip raw) (str_of "msgctxt") = false ->
  startswith (strip raw) (str_of "msgid") = false ->
  startswith (strip raw) (str_of "msgstr") = false ->
  startswith (strip raw) [DQ] = false ->
  po_line st raw = Ok st.
Proof.
  intros Hne Hc Hi Hs Hq. unfold po_line, match_msgstr_index.
  destruct (strip raw) as [|c l] eqn:E; [contradiction|].
  rewrite Hc, Hq.
  change (str_of "msgid_plural") with (str_of "msgid" ++ str_of "_plural").
  rewrite (startswith_app_false _ _ _ Hi), Hi.
  change (str_of "msgstr[") with (str_of "msgstr" ++ [91]).
  rewrite (startswith_app_false _ _ _ Hs), Hs.
  now destruct (startswith (c :: l) (str_of "#")).
Qed.

(** A literal that evaluates to a tuple is stored as it is, and a
    continuation line then adds a [str] to a tuple: [read_po] raises
    [TypeError], whatever else the evaluator does. *)
Lemma read_po_raises_when_literal_is_tuple (body c : str) elts :
  literal_eval (quoted body) = Some (VTuple elts) ->
  no_break body -> po_str c ->
  read_po (str_of "msgid " ++ quoted body ++ [LF] ++ lit c ++ [LF])
  = Raise TypeError.
Proof.
  intros Htuple Hbody Hc. unfold read_po.
  replace (str_of "msgid " ++ quoted body ++ [LF] ++ lit c ++ [LF])
    with (join [LF] ([str_of "msgid " ++ quoted body; lit c] ++ [[]])).
  2:{ cbn [app join]. now rewrite <- !app_assoc. }
  rewrite splitlines_join.
  2:{ constructor; [|constructor; [now apply lit_no_break|constructor]].
      apply no_break_app; [repeat constructor|now apply quoted_no_break]. }
  cbn [app po_lines]. rewrite po_line_msgid. cbn [bind].
  assert (Hp : _parse_po_string_literal (quoted body) = VTuple elts).
  { unfold _parse_po_string_literal. rewrite strip_quoted, Htuple.
    reflexivity. }
  rewrite Hp. unfold lit. rewrite po_line_quoted.
  cbn [with_cur active_key cur cur_or_new continuation msgid].
  fold (lit c). rewrite (parse_lit (po_str_clean Hc)). reflexivity.
Qed.

(** The evaluator returns a [str] whenever it returns. *)
Hypothesis literal_eval_str :
  forall s v, literal_eval s = Some v -> is_str v.

Lemma parse_is_str s : is_str (_parse_po_string_literal s).
Proof.
  unfold _parse_po_string_literal.
  destruct (negb (startswith (strip s) [DQ])); [now exists []|].
  destruct (literal_eval (strip s)) as [v|] eqn:E; [|now exists []].
  now apply (literal_eval_str _ E).
Qed.

Lemma pad_to_is_str idx l : Forall is_str l -> Forall is_str (pad_to idx l).
Proof.
  intros H. unfold pad_to. apply Forall_app. split; [assumption|].
  apply Forall_forall. intros v Hv. apply repeat_spec in Hv. subst.
  now exists [].
Qed.

Lemma list_set_is_str idx v l :
  is_str v -> Forall is_str l -> Forall is_str (list_set idx v l).
Proof.
  intros Hv H. revert idx. induction H as [|x l Hx Hl IH]; intros [|i]; cbn;
    constructor; auto.
Qed.

Lemma cur_or_new_str st : str_cur st -> str_fields (cur_or_new st).
Proof.
  intros H. unfold cur_or_new. destruct (cur st) as [c|] eqn:E.
  - now apply H.
  - repeat split; cbn; try discriminate; [now exists []|constructor].
Qed.

Lemma or_empty_is_str x :
  (forall v, x = Some v -> is_str v) -> is_str (or_empty x).
Proof.
  intros H. destruct x as [v|]; cbn; [|now exists []].
  destruct (truthy v); [now apply H|now exists []].
Qed.

Lemma py_add_str a b :
  is_str a -> is_str b -> exists v, py_add a b = Ok v /\ is_str v.
Proof.
  intros [x ->] [y ->]. cbn. eexists. split; [reflexivity|]. now eexists.
Qed.

Lemma continuation_total c k frag :
  str_fields c -> is_str frag ->
  exists c', continuation c k frag = Ok c' /\ str_fields c'.
Proof.
  intros (Hc & Hi & Hp & Hm) Hf. destruct k as [| | |idx]; cbn [continuation].
  - destruct (py_add_str (or_empty_is_str Hc) Hf) as [v [-> Hv]].
    cbn [bind]. eexists. split; [reflexivity|].
    repeat split; cbn; try assumption. now intros v' [= <-].
  - destruct (py_add_str Hi Hf) as [v [-> Hv]].
    cbn [bind]. eexists. split; [reflexivity|].
    repeat split; cbn; assumption.
  - destruct (py_add_str (or_empty_is_str Hp) Hf) as [v [-> Hv]].
    cbn [bind]. eexists. split; [reflexivity|].
    repeat split; cbn; try assumption. now intros v' [= <-].
  - assert (Hn : is_str (nth idx (pad_to idx (msgstr c)) (VStr []))).
    { pose proof (pad_to_is_str idx Hm) as Hpad.
      rewrite Forall_forall in Hpad. apply Hpad. apply nth_In.
      apply pad_to_length. }
    destruct (py_add_str Hn Hf) as [v [-> Hv]].
    cbn [bind]. eexists. split; [reflexivity|].
    repeat split; cbn; try assumption.
    apply list_set_is_str; [assumption|]. now apply pad_to_is_str.
Qed.

Lemma flush_total st :
  str_cur st -> exists st', flush st = Ok st' /\ cur st' = None.
Proof.
  intros H. unfold flush. destruct (cur st) as [c|] eqn:E.
  - destruct (H c E) as (_ & _ & _ & Hm).
    destruct (msgstr c) as [|first rest]; cbn [bind].
    + eexists. split; [reflexivity|reflexivity].
    + inversion Hm as [|? ? [s ->] _]; subst.
      destruct (is_empty_str (msgid c)); cbn [detect_charset_dyn bind];
        eexists; split; reflexivity.
  - now exists st.
Qed.

Lemma po_line_total st raw :
  str_cur st -> exists st', po_line st raw = Ok st' /\ str_cur st'.
Proof.
  intros H. pose proof (cur_or_new_str H) as (Hc & Hi & Hp & Hm).
  unfold po_line. destruct (strip raw) as [|ch l] eqn:E.
  { destruct (flush_total H) as [st' [-> Hcur]]. cbn [bind].
    eexists. split; [reflexivity|]. intros c. cbn [cur]. rewrite Hcur.
    discriminate. }
  destruct (startswith (ch :: l) (str_of "#")); [now exists st|].
  destruct (startswith (ch :: l) (str_of "msgctxt")).
  { eexists. split; [reflexivity|]. intros c [= <-].
    repeat split; cbn; try assumption. intros v [= <-]. apply parse_is_str. }
  destruct (startswith (ch :: l) (str_of "msgid_plural")).
  { eexists. split; [reflexivity|]. intros c [= <-].
    repeat split; cbn; try assumption. intros v [= <-]. apply parse_is_str. }
  destruct (startswith (ch :: l) (str_of "msgid")).
  { eexists. split; [reflexivity|]. intros c [= <-].
    repeat split; cbn; try assumption. apply parse_is_str. }
  destruct (match_msgstr_index (ch :: l)) as [[ds rest]|].
  { eexists. split; [reflexivity|]. intros c [= <-].
    repeat split; cbn; try assumption.
    apply list_set_is_str; [apply parse_is_str|now apply pad_to_is_str]. }
  destruct (startswith (ch :: l) (str_of "msgstr")).
  { eexists. split; [reflexivity|]. intros c [= <-].
    repeat split; cbn; try assumption.
    destruct (msgstr (cur_or_new st)) as [|x xs].
    - constructor; [apply parse_is_str|constructor].
    - inversion Hm; subst. constructor; [apply parse_is_str|assumption]. }
  destruct (startswith (ch :: l) [DQ]); [|now exists st].
  destruct (active_key st) as [k|]; [|now exists st].
  destruct (cur st) as [c|] eqn:Ec; [|now exists st].
  destruct (@continuation_total c k (_parse_po_string_literal (ch :: l)))
    as [c' [-> Hc']]; [now apply H|apply parse_is_str|].
  cbn [bind]. eexists. split; [reflexivity|]. now intros c0 [= <-].
Qed.

Lemma po_lines_total lines : forall st,
  str_cur st -> exists st', po_lines st lines = Ok st'.
Proof.
  induction lines as [|raw lines IH]; intros st H; cbn [po_lines].
  - now exists st.
  - destruct (po_line_total raw H) as [st' [-> H']]. cbn [bind].
    now apply IH.
Qed.

(** Apart from a literal that evaluates to something else than a
    [str], nothing makes [read_po] raise: with an evaluator that only
    returns strings it returns for every text. *)
Lemma read_po_total_on_str_literals (text : str) :
  exists charset entries, read_po text = Ok (charset, entries).
Proof.
  unfold read_po.
  destruct (@po_lines_total (splitlines text ++ [[]])
              (mkPoState [] None None (str_of "utf-8"))) as [st' ->].
  { intros c. cbn. discriminate. }
  cbn [bind]. now eexists _, _.
Qed.

End ReadPoTotal.

Local Open Scope N_scope.

(** * The report on the entries that [read_po] returns *)

























Local Open Scope N_scope.

(** * The claims on concrete inputs *)

Lemma not_In_mem c l : mem c l = false -> ~ In c l.
Proof. intros H Hin. apply mem_In in Hin. congruence. Qed.

Lemma Forall_clean_char s :
  forallb clean_char s = true -> clean s.
Proof. intros H. apply Forall_forall. now apply forallb_forall. Qed.

Lemma Forall_po_char s : forallb po_char s = true -> po_str s.
Proof. intros H. apply Forall_forall. now apply forallb_forall. Qed.

Section Examples.
#[local] Existing Instance example_literal_eval.
#[local] Existing Instance example_digits.
#[local] Existing Instance example_codecs.

(** ** The Charset Resolver *)

(** C3: on a header that declares [charset=UTF-8] and goes on with the
    next line, the resolver does not return the value of the parameter:
    the class of the pattern stops at a backslash, an s or a semicolon,
    not at white space, and the match runs into the next line. *)
Theorem detect_charset_runs_past_the_value :
  _detect_charset_from_header standard_header
  = str_of "UTF-8" ++ [LF] ++ str_of "Content-Tran".
Proof. vm_compute. reflexivity. Qed.

(** The same slip cuts a value short at its first s, in either case. *)
Lemma detect_charset_stops_at_s :
  _detect_charset_from_header
    (str_of "Content-Type: text/plain; charset=ISO-8859-1" ++ [LF])
  = str_of "I".
Proof. vm_compute. reflexivity. Qed.

(** The part of the resolver's contract that holds: when no position
    of the header starts with the parameter name, in any case, the
    result is utf-8. *)
Lemma detect_charset_absent s :
  (forall pre post, s = pre ++ post ->
                    ci_prefix (str_of "charset=") post = None) ->
  _detect_charset_from_header s = str_of "utf-8".
Proof.
  intros H. unfold _detect_charset_from_header.
  assert (Hs : charset_search s = None).
  { induction s as [|c s IH]; [reflexivity|].
    cbn [charset_search]. unfold charset_match_here.
    rewrite (H [] (c :: s) eq_refl). apply IH.
    intros pre post ->. now apply (H (c :: pre) post). }
  now rewrite Hs.
Qed.

(** ** Escaping *)

(** C8 fails as stated: a NUL beside the backslash makes the evaluator
    refuse the literal, and the parse gives the empty string. *)
Lemma escape_roundtrip_fails_on_NUL :
  _parse_po_string_literal (quoted (_po_escape [BSL; NUL])) = VStr []
  /\ _parse_po_string_literal (quoted (_po_escape [BSL; NUL]))
     <> VStr [BSL; NUL].
Proof. split; [vm_compute; reflexivity|vm_compute; discriminate]. Qed.

Lemma escape_roundtrip_witness :
  clean [BSL; DQ; TAB; CR; LF; 97]
  /\ _parse_po_string_literal (quoted (_po_escape [BSL; DQ; TAB; CR; LF; 97]))
     = VStr [BSL; DQ; TAB; CR; LF; 97].
Proof.
  split.
  - apply Forall_clean_char. reflexivity.
  - apply (@escape_roundtrip example_literal_eval [BSL; DQ; TAB; CR; LF; 97]).
    apply Forall_clean_char. reflexivity.
Defined.

(** ** Reading a PO file *)

(** C10: [read_po] raises on a text whose literal evaluates to a tuple:
    the tuple is stored in [msgid], and the continuation line adds a
    [str] to it. *)
Theorem read_po_raises_on_tuple_literal :
  read_po tuple_text = Raise TypeError.
Proof. vm_compute. reflexivity. Qed.

(** ** The PO round trip *)

(** C1 fails as stated: [read_po] produces an entry without
    translation from a text with a lone [msgid] line; [write_po] writes
    an empty [msgstr] for it, and it is read back with one. *)
Lemma po_roundtrip_fails_without_msgstr :
  read_po (str_of "msgid " ++ quoted (str_of "a"))
  = Ok (str_of "utf-8", map (entry_map VStr) [entry_without_msgstr])
  /\ read_po (write_po [entry_without_msgstr])
     = Ok (str_of "utf-8",
           [mkPoEntry None (VStr (str_of "a")) None [VStr []]])
  /\ read_po (write_po [entry_without_msgstr])
     <> Ok (str_of "utf-8", map (entry_map VStr) [entry_without_msgstr]).
Proof.
  split; [vm_compute; reflexivity|].
  split; [vm_compute; reflexivity|vm_compute; discriminate].
Qed.

Lemma po_example_wf : Forall po_wf po_example.
Proof.
  repeat constructor; cbn [msgctxt msgid msgid_plural msgstr];
    try (apply Forall_po_char; reflexivity); eauto.
Defined.

Lemma po_roundtrip_witness :
  Forall po_wf po_example
  /\ exists charset,
       read_po (write_po po_example)
       = Ok (charset, map (entry_map VStr) po_example).
Proof.
  split; [exact po_example_wf|].
  exact (@po_roundtrip example_literal_eval example_digits po_example
                       po_example_wf).
Defined.

(** ** Reading an MO file *)

Local Open Scope Z_scope.

(** C4 fails as stated: this file is not too small, its magic matches
    and its revision is zero, and decoding it raises [struct.error]. *)
Lemma read_mo_fails_on_truncated_table :
  ~ too_small header_only_mo
  /\ ~ bad_magic header_only_mo
  /\ ~ revision_nonzero header_only_mo
  /\ read_mo header_only_mo = Raise struct_error.
Proof.
  split; [|split; [|split]].
  - unfold too_small. vm_compute. discriminate.
  - unfold bad_magic. vm_compute. discriminate.
  - intros [e [He Hrev]]. vm_compute in He. inversion He; subst e.
    apply Hrev. vm_compute. reflexivity.
  - vm_compute. reflexivity.
Qed.

Lemma mo_string_extraction_witness :
  read_header out_of_range_mo = Ok (LittleEndian, 1, 28, 36)
  /\ read_table LittleEndian out_of_range_mo 1 28 = Ok [(5, 100)]
  /\ read_table LittleEndian out_of_range_mo 1 36 = Ok [(10, 44)]
  /\ exists (raw_pairs : list (bytes * bytes)) (charset : str),
       read_raw_pairs out_of_range_mo = Ok raw_pairs
       /\ read_mo out_of_range_mo
          = Ok (charset,
                map (fun r : bytes * bytes =>
                       entry_of_strings (decode charset (fst r))
                                        (decode charset (snd r)))
                    raw_pairs)
       /\ List.length [(5, 100)] = Z.to_nat 1
       /\ List.length [(10, 44)] = Z.to_nat 1
       /\ List.length raw_pairs = Z.to_nat 1
       /\ Forall2 (fun (p : (Z * Z) * (Z * Z)) (r : bytes * bytes) =>
                     let '((ol, oo), (tl, to)) := p in
                     r = (firstn (Z.to_nat ol)
                                 (skipn (Z.to_nat oo) out_of_range_mo),
                          firstn (Z.to_nat tl)
                                 (skipn (Z.to_nat to) out_of_range_mo))
                     /\ len (fst r)
                        = Z.max 0 (Z.min ol (len out_of_range_mo - oo))
                     /\ len (snd r)
                        = Z.max 0 (Z.min tl (len out_of_range_mo - to)))
                  (combine [(5, 100)] [(10, 44)]) raw_pairs.
Proof.
  assert (Hh : read_header out_of_range_mo = Ok (LittleEndian, 1, 28, 36))
    by (vm_compute; reflexivity).
  assert (Ho : read_table LittleEndian out_of_range_mo 1 28 = Ok [(5, 100)])
    by (vm_compute; reflexivity).
  assert (Ht : read_table LittleEndian out_of_range_mo 1 36 = Ok [(10, 44)])
    by (vm_compute; reflexivity).
  exact (conj Hh (conj Ho (conj Ht
           (@mo_string_extraction_total example_codecs out_of_range_mo
              LittleEndian 1 28 36 [(5, 100)] [(10, 44)] Hh Ho Ht)))).
Defined.

(** The entry decoded from the out-of-range pairs: an empty original
    string and the clipped translation. *)
Lemma out_of_range_mo_decodes :
  read_mo out_of_range_mo
  = Ok (str_of "utf-8", [mkPoEntry None [] None [str_of "hi"]]).
Proof. vm_compute. reflexivity. Qed.

(** ** Writing an MO file *)

Lemma write_mo_keys_sorted_witness :
  exists out,
    write_mo mo_example (str_of "utf-8") = Ok out
    /\ exists raw_pairs,
         read_raw_pairs out = Ok raw_pairs
         /\ StronglySorted bytes_lt (map fst raw_pairs)
         /\ StronglySorted bytes_le (map fst raw_pairs).
Proof.
  destruct (write_mo mo_example (str_of "utf-8")) as [out|] eqn:E;
    [|vm_compute in E; discriminate].
  exists out. split; [reflexivity|].
  exact (@write_mo_keys_sorted example_codecs mo_example (str_of "utf-8")
                               out E).
Defined.

Lemma write_mo_offsets_aligned_witness :
  exists out,
    write_mo mo_example (str_of "utf-8") = Ok out
    /\ exists e n off_orig off_trans orig_table trans_table,
         read_header out = Ok (e, n, off_orig, off_trans)
         /\ read_table e out n off_orig = Ok orig_table
         /\ read_table e out n off_trans = Ok trans_table
         /\ Forall (fun lo : Z * Z => snd lo mod 4 = 0)
                   (orig_table ++ trans_table).
Proof.
  destruct (write_mo mo_example (str_of "utf-8")) as [out|] eqn:E;
    [|vm_compute in E; discriminate].
  exists out. split; [reflexivity|].
  exact (@write_mo_offsets_aligned example_codecs mo_example (str_of "utf-8")
                                   out E).
Defined.

(** C2 fails as stated: for a catalog without header entry, written
    under the charset ascii, the decoder returns the charset of the
    synthesized header, UTF-8, and an entry more than the catalog
    has. *)
Lemma mo_roundtrip_returns_header_charset :
  (out <- write_mo [mkPoEntry None (str_of "a") None [str_of "b"]]
                   (str_of "ascii") ;;
   read_mo out)
  = Ok (str_of "UTF-8",
        [synthetic_header; mkPoEntry None (str_of "a") None [str_of "b"]])
  /\ str_of "UTF-8" <> str_of "ascii".
Proof. split; [vm_compute; reflexivity|discriminate]. Qed.

Lemma mo_example_wf : Forall wf_entry mo_example.
Proof.
  repeat constructor; cbn [msgctxt msgid msgid_plural msgstr];
    try (apply not_In_mem; reflexivity); try discriminate; eauto.
Defined.

Lemma mo_example_keys : NoDup (map _entry_key mo_example).
Proof.
  repeat constructor; cbn; intuition discriminate.
Defined.

Lemma mo_example_codecs :
  Forall (fun e =>
            codec_roundtrip (str_of "utf-8")
              (header_charset_of (str_of "utf-8") mo_example) (key_string e)
            /\ codec_roundtrip (str_of "utf-8")
                 (header_charset_of (str_of "utf-8") mo_example)
                 (val_string e))
         (with_header mo_example).
Proof.
  repeat constructor; intros b Hb; vm_compute in Hb; inversion Hb;
    vm_compute; reflexivity.
Defined.

Lemma mo_roundtrip_witness :
  exists out,
    write_mo mo_example (str_of "utf-8") = Ok out
    /\ exists decoded,
         read_mo out
         = Ok (header_charset_of (str_of "utf-8") mo_example, decoded)
         /\ Permutation (with_header mo_example) decoded
         /\ (forall e, In e mo_example -> In e decoded).
Proof.
  destruct (write_mo mo_example (str_of "utf-8")) as [out|] eqn:E;
    [|vm_compute in E; discriminate].
  exists out. split; [reflexivity|].
  exact (@mo_roundtrip example_codecs mo_example (str_of "utf-8") out E
                       mo_example_wf mo_example_keys mo_example_codecs).
Defined.

(** ** The report *)



End Examples.

Local Open Scope N_scope.

(** * More on the string functions of mo_convert.py *)

(** ** [_po_escape] *)

Lemma escape_char_cases c :
  (special c = true
   /\ exists x, escape_char c = [BSL; x]
                /\ mem x [BSL; DQ; 116; 114; 110] = true
                /\ (x = BSL -> c = BSL) /\ (x = DQ -> c = DQ)
                /\ (x = 116 -> c = TAB) /\ (x = 114 -> c = CR)
                /\ (x = 110 -> c = LF))
  \/ (special c = false /\ escape_char c = [c]).
Proof.
  unfold escape_char, special, mem. cbn [existsb].
  destruct (N.eqb_spec c BSL) as [->|H1].
  { left. split; [reflexivity|]. exists BSL. repeat split; try discriminate. }
  destruct (N.eqb_spec c DQ) as [->|H2].
  { left. split; [reflexivity|]. exists DQ. repeat split; try discriminate. }
  destruct (N.eqb_spec c TAB) as [->|H3].
  { left. split; [reflexivity|]. exists 116. repeat split; try discriminate. }
  destruct (N.eqb_spec c CR) as [->|H4].
  { left. split; [reflexivity|]. exists 114. repeat split; try discriminate. }
  destruct (N.eqb_spec c LF) as [->|H5].
  { left. split; [reflexivity|]. exists 110. repeat split; try discriminate. }
  right. split; reflexivity.
Qed.

Lemma special_BSL c : special c = false -> c <> BSL.
Proof. intros H ->. discriminate. Qed.

Lemma escape_char_inj c d r r' :
  escape_char c ++ r = escape_char d ++ r' -> c = d /\ r = r'.
Proof.
  destruct (escape_char_cases c) as [[Sc [x [-> [Mx Hx]]]]|[Sc ->]];
    destruct (escape_char_cases d) as [[Sd [y [-> [My Hy]]]]|[Sd ->]];
    cbn [app]; intros H; inversion H; subst.
  - split; [|reflexivity].
    destruct Hx as (X1 & X2 & X3 & X4 & X5).
    destruct Hy as (Y1 & Y2 & Y3 & Y4 & Y5).
    unfold mem in Mx. cbn [existsb] in Mx.
    destruct (N.eqb_spec y BSL) as [E|_]; [now rewrite X1, Y1|].
    destruct (N.eqb_spec y DQ) as [E|_]; [now rewrite X2, Y2|].
    destruct (N.eqb_spec y 116) as [E|_]; [now rewrite X3, Y3|].
    destruct (N.eqb_spec y 114) as [E|_]; [now rewrite X4, Y4|].
    destruct (N.eqb_spec y 110) as [E|_]; [now rewrite X5, Y5|].
    discriminate.
  - now apply special_BSL in Sd.
  - now apply special_BSL in Sc.
  - split; reflexivity.
Qed.

Lemma escape_char_nonempty c : escape_char c <> [].
Proof.
  destruct (escape_char_cases c) as [[_ [x [-> _]]]|[_ ->]]; discriminate.
Qed.

(** Escaping loses nothing: two strings with the same escaped form are
    the same string. *)
Theorem po_escape_injective (a b : str) :
  _po_escape a = _po_escape b -> a = b.
Proof.
  revert b. induction a as [|c a IH]; intros [|d b] H.
  - reflexivity.
  - rewrite _po_escape_cons in H. change (_po_escape []) with (@nil N) in H.
    destruct (escape_char d) eqn:E; [now apply escape_char_nonempty in E|].
    discriminate.
  - rewrite _po_escape_cons in H. change (_po_escape []) with (@nil N) in H.
    destruct (escape_char c) eqn:E; [now apply escape_char_nonempty in E|].
    discriminate.
  - rewrite !_po_escape_cons in H. apply escape_char_inj in H as [-> H].
    f_equal. now apply IH.
Qed.

Lemma _po_escape_Forall (P : N -> Prop) s :
  (forall c, Forall P (escape_char c)) -> Forall P (_po_escape s).
Proof.
  intros H. induction s as [|c s IH]; [constructor|].
  rewrite _po_escape_cons. apply Forall_app. split; [apply H|assumption].
Qed.

Lemma escape_char_no_control c :
  Forall (fun x => x <> TAB /\ x <> CR /\ x <> LF) (escape_char c).
Proof.
  unfold escape_char.
  destruct (N.eqb_spec c BSL); [repeat constructor; discriminate|].
  destruct (N.eqb_spec c DQ); [repeat constructor; discriminate|].
  destruct (N.eqb_spec c TAB); [repeat constructor; discriminate|].
  destruct (N.eqb_spec c CR); [repeat constructor; discriminate|].
  destruct (N.eqb_spec c LF); [repeat constructor; discriminate|].
  repeat constructor; assumption.
Qed.

Lemma po_escape_no_control (s : str) :
  ~ In TAB (_po_escape s) /\ ~ In CR (_po_escape s) /\ ~ In LF (_po_escape s).
Proof.
  pose proof (@_po_escape_Forall _ s escape_char_no_control) as H.
  rewrite Forall_forall in H.
  repeat split; intros Hin; apply H in Hin; tauto.
Qed.

Lemma _po_escape_length s :
  List.length (_po_escape s)
  = (List.length s + List.length (filter special s))%nat.
Proof.
  induction s as [|c s IH]; [reflexivity|].
  rewrite _po_escape_cons, length_app, IH. cbn [filter List.length].
  destruct (escape_char_cases c) as [[-> [x [-> _]]]|[-> ->]];
    cbn [List.length]; lia.
Qed.

(** [_po_escape] lengthens a string by one character for each
    backslash, double quote, tab, carriage return and newline in it, and
    so returns a string unchanged exactly when it holds none of them. *)
Theorem po_escape_growth (s : str) :
  List.length (_po_escape s)
  = (List.length s + List.length (filter special s))%nat
  /\ (_po_escape s = s <-> Forall (fun c => special c = false) s).
Proof.
  split; [apply _po_escape_length|]. split.
  - intros H. pose proof (_po_escape_length s) as L. rewrite H in L.
    assert (E : filter special s = []).
    { destruct (filter special s); [reflexivity|cbn in L; lia]. }
    apply Forall_forall. intros c Hc.
    destruct (special c) eqn:Sc; [|reflexivity].
    assert (Hin : In c (filter special s)) by now apply filter_In.
    rewrite E in Hin. destruct Hin.
  - induction 1 as [|c s Hc Hs IH]; [reflexivity|].
    rewrite _po_escape_cons, IH.
    destruct (escape_char_cases c) as [[Sc _]|[_ ->]]; [congruence|].
    reflexivity.
Qed.

(** ** [_po_quote] *)

Lemma pieces_length parts : List.length (pieces parts) = List.length parts.
Proof.
  induction parts as [|p [|q parts] IH]; [reflexivity|reflexivity|].
  change (pieces (p :: q :: parts)) with ((p ++ [LF]) :: pieces (q :: parts)).
  cbn [List.length] in *. now rewrite IH.
Qed.

Lemma split_length sep s :
  List.length (split sep s) = S (List.length (filter (N.eqb sep) s)).
Proof.
  induction s as [|c s IH]; [reflexivity|].
  cbn [split filter]. rewrite (N.eqb_sym sep c).
  destruct (c =? sep).
  - cbn [List.length]. now rewrite IH.
  - destruct (split sep s) as [|p ps] eqn:E; [cbn in IH; lia|].
    cbn [List.length] in *. exact IH.
Qed.

(** [_po_quote] returns one line more than its argument has newlines:
    never an empty list, so that the index 0 which [write_po] takes of
    it exists. *)
Theorem po_quote_length (s : str) :
  List.length (_po_quote s) = S (List.length (filter (N.eqb LF) s))
  /\ _po_quote s <> [].
Proof.
  assert (H : List.length (_po_quote s)
              = S (List.length (filter (N.eqb LF) s))).
  { rewrite _po_quote_pieces, length_map. unfold po_pieces.
    destruct s as [|c s]; [reflexivity|].
    now rewrite pieces_length, split_length. }
  split; [exact H|]. intros E. rewrite E in H. discriminate.
Qed.

(** Every line [_po_quote] returns is a text between two double quotes
    that holds no tab, no carriage return and no newline. *)
Theorem po_quote_lines (s : str) :
  Forall (fun l => exists body,
            l = quoted body
            /\ ~ In TAB body /\ ~ In CR body /\ ~ In LF body)
         (_po_quote s).
Proof.
  rewrite _po_quote_pieces. apply Forall_forall. intros l Hl.
  apply in_map_iff in Hl as [p [<- _]].
  exists (_po_escape p). split; [reflexivity|apply po_escape_no_control].
Qed.

Lemma clean_app a b : clean a -> clean b -> clean (a ++ b).
Proof. intros Ha Hb. apply Forall_app. now split. Qed.

Lemma pieces_clean parts : Forall clean parts -> Forall clean (pieces parts).
Proof.
  induction 1 as [|p parts Hp Hps IH]; [constructor|].
  destruct parts as [|q parts]; [repeat constructor; assumption|].
  change (pieces (p :: q :: parts)) with ((p ++ [LF]) :: pieces (q :: parts)).
  constructor; [|assumption].
  apply clean_app; [assumption|repeat constructor].
Qed.

Lemma po_pieces_clean s : clean s -> Forall clean (po_pieces s).
Proof.
  intros H. unfold po_pieces. destruct s as [|c s]; [repeat constructor|].
  apply pieces_clean. now apply split_parts.
Qed.

Section QuoteParse.
Context {LE : LiteralEval}.

(** The lines of [_po_quote s], each parsed as a literal, are strings
    whose concatenation is [s], for every [s] without NUL and
    surrogates. *)
Theorem po_quote_parse (s : str) :
  clean s ->
  exists ps,
    map _parse_po_string_literal (_po_quote s) = map VStr ps
    /\ concat ps = s.
Proof.
  intros H. exists (po_pieces s). split; [|apply concat_po_pieces].
  rewrite _po_quote_pieces, map_map.
  pose proof (po_pieces_clean H) as Hp.
  induction Hp as [|p ps Hc Hps IH]; [reflexivity|].
  cbn [map]. rewrite (parse_lit Hc). now f_equal.
Qed.

End QuoteParse.

(** ** [_detect_charset_from_header] *)

Lemma take_while_Forall f s : Forall (fun c => f c = true) (take_while f s).
Proof.
  induction s as [|c s IH]; [constructor|]. cbn.
  destruct (f c) eqn:E; [now constructor|constructor].
Qed.

Lemma charset_search_Forall s g :
  charset_search s = Some g ->
  Forall (fun c => class_not_bsl_s_semi c = true) g.
Proof.
  induction s as [|c s IH]; [discriminate|].
  cbn [charset_search]. unfold charset_match_here.
  destruct (ci_prefix (str_of "charset=") (c :: s)) as [rest|]; [|exact IH].
  pose proof (take_while_Forall class_not_bsl_s_semi rest) as Ht.
  destruct (take_while class_not_bsl_s_semi rest) as [|x g'] eqn:E;
    [exact IH|].
  now intros [= <-].
Qed.

Lemma lstrip_by_Forall f (P : N -> Prop) s :
  Forall P s -> Forall P (lstrip_by f s).
Proof.
  induction 1 as [|c s Hc Hs IH]; [constructor|]. cbn.
  destruct (f c); [assumption|now constructor].
Qed.

Lemma strip_by_Forall f (P : N -> Prop) s :
  Forall P s -> Forall P (strip_by f s).
Proof.
  intros H. unfold strip_by, rstrip_by.
  apply Forall_rev, lstrip_by_Forall, Forall_rev.
  now apply lstrip_by_Forall.
Qed.

(** Whatever the header, the charset the resolver returns holds no
    semicolon, no backslash and no letter s in either case. *)
Theorem detect_charset_result_chars (header_msgstr : str) :
  Forall (fun c => ~ In c [59; 92; 115; 83])
         (_detect_charset_from_header header_msgstr).
Proof.
  assert (H : Forall (fun c => class_not_bsl_s_semi c = true)
                     (_detect_charset_from_header header_msgstr)).
  { unfold _detect_charset_from_header.
    destruct (charset_search header_msgstr) as [g|] eqn:E.
    - unfold strip_chars, strip. apply strip_by_Forall, strip_by_Forall.
      now apply charset_search_Forall with (s := header_msgstr).
    - repeat constructor. }
  eapply Forall_impl; [|exact H].
  intros c Hc Hin. unfold class_not_bsl_s_semi in Hc.
  apply negb_true_iff in Hc.
  assert (Hm : mem c [92; 59; 115; 83; 383] = true).
  { apply mem_In. cbn in Hin |- *. tauto. }
  congruence.
Qed.

Lemma ci_prefix_charset_eq s r :
  ci_prefix (str_of "charset=") s = Some r -> nth 7 s 0 = 61.
Proof.
  destruct s as [|c0 [|c1 [|c2 [|c3 [|c4 [|c5 [|c6 [|c7 s]]]]]]]];
    cbn; repeat match goal with
                | |- context [if ?b then _ else _] => destruct b eqn:?
                end; try discriminate.
  intros _. now apply N.eqb_eq.
Qed.

Lemma ci_prefix_charset_self rest :
  ci_prefix (str_of "charset=") (str_of "charset=" ++ rest) = Some rest.
Proof. reflexivity. Qed.

Lemma charset_match_before (pre tail : str) :
  pre <> [] -> ~ In 61 pre ->
  charset_match_here (pre ++ str_of "charset=" ++ tail) = None.
Proof.
  intros Hne Hno. unfold charset_match_here.
  destruct (ci_prefix (str_of "charset=") (pre ++ str_of "charset=" ++ tail))
    as [r|] eqn:E; [|reflexivity].
  apply ci_prefix_charset_eq in E. exfalso.
  destruct pre as [|c0 [|c1 [|c2 [|c3 [|c4 [|c5 [|c6 [|c7 pre]]]]]]]];
    cbn in E; try discriminate; try (now apply Hne).
  apply Hno. subst c7. cbn. tauto.
Qed.

Lemma take_while_stop f v rest :
  Forall (fun c => f c = true) v ->
  match rest with
  | [] => True
  | c :: _ => f c = false
  end ->
  take_while f (v ++ rest) = v.
Proof.
  intros Hv Hr. induction Hv as [|c v Hc Hv IH]; cbn [app].
  - destruct rest as [|c r]; [reflexivity|]. cbn. now rewrite Hr.
  - cbn. now rewrite Hc, IH.
Qed.

(** When no equals sign comes before the parameter, the value the
    resolver returns is the text after [charset=] up to the first
    semicolon, backslash or letter s (or the end of the header), with
    white space and then double quotes removed at both ends: a value
    that holds none of these characters and is closed by a semicolon is
    returned as it is written. *)
Theorem detect_charset_value (pre v rest : str) :
  ~ In 61 pre ->
  v <> [] ->
  Forall (fun c => class_not_bsl_s_semi c = true) v ->
  match rest with
  | [] => True
  | c :: _ => class_not_bsl_s_semi c = false
  end ->
  _detect_charset_from_header (pre ++ str_of "charset=" ++ v ++ rest)
  = strip_chars [DQ] (strip v).
Proof.
  intros Hno Hne Hv Hr. unfold _detect_charset_from_header.
  assert (Hs : charset_search (pre ++ str_of "charset=" ++ v ++ rest)
               = Some v).
  { induction pre as [|c pre IH].
    - cbn [app]. change (str_of "charset=" ++ v ++ rest)
        with (99 :: skipn 1 (str_of "charset=") ++ v ++ rest).
      cbn [charset_search]. unfold charset_match_here.
      change (99 :: skipn 1 (str_of "charset=") ++ v ++ rest)
        with (str_of "charset=" ++ v ++ rest).
      rewrite ci_prefix_charset_self, (take_while_stop _ _ Hv Hr).
      destruct v; [now elim Hne|reflexivity].
    - cbn [app charset_search].
      change (c :: pre ++ str_of "charset=" ++ v ++ rest)
        with ((c :: pre) ++ str_of "charset=" ++ v ++ rest).
      rewrite charset_match_before; [|discriminate|assumption].
      apply IH. intros Hin. apply Hno. now right. }
  now rewrite Hs.
Qed.

Local Open Scope N_scope.

(** * More on [read_po] and [write_po] *)

(** ** Line ends *)

Lemma splitlines_from_universal s : forall acc,
  splitlines_from acc (universal_newlines s) = splitlines_from acc s.
Proof.
  assert (H : forall n s, (List.length s <= n)%nat -> forall acc,
             splitlines_from acc (universal_newlines s)
             = splitlines_from acc s).
  { clear s. induction n as [|n IH]; intros s Hn acc.
    - destruct s; [reflexivity|cbn in Hn; lia].
    - destruct s as [|c s]; [reflexivity|].
      cbn [universal_newlines]. destruct (N.eqb_spec c CR) as [->|Hc].
      + cbn [splitlines_from]. change (LF =? CR) with false.
        change (is_linebreak LF) with true. change (CR =? CR) with true.
        cbv iota. f_equal.
        destruct s as [|d s]; [reflexivity|].
        destruct (d =? LF); apply IH; cbn in Hn |- *; lia.
      + cbn [splitlines_from]. apply N.eqb_neq in Hc. rewrite Hc.
        destruct (is_linebreak c); [f_equal|]; apply IH; cbn in Hn; lia. }
  intros acc. now apply (H (List.length s)).
Qed.

Section Newlines.
Context {LE : LiteralEval} {UD : UnicodeDigits}.

(** The newline translation of text mode changes nothing for
    [read_po]: a text with CR LF or lone CR line ends reads as the same
    text with newlines. *)
Theorem read_po_universal_newlines (text : str) :
  read_po (universal_newlines text) = read_po text.
Proof.
  unfold read_po, splitlines. now rewrite splitlines_from_universal.
Qed.

(** ** Lines that do not count *)

Lemma po_line_passed_over st raw : passed_over raw -> po_line st raw = Ok st.
Proof.
  intros [H|(H0 & H1 & H2 & H3 & H4)].
  - now apply po_line_comment.
  - now apply po_line_ignored.
Qed.

(** Taking a comment line or an unrecognised line out of a text does
    not change what [read_po] returns, wherever the line stands: also
    between a keyword line and its continuation lines. *)
Theorem read_po_passes_over (text text' : str) (before after : list str)
  (raw : str) :
  splitlines text = before ++ raw :: after ->
  splitlines text' = before ++ after ->
  passed_over raw ->
  read_po text = read_po text'.
Proof.
  intros H1 H2 Hraw. unfold read_po. rewrite H1, H2.
  rewrite <- !app_assoc, !po_lines_app. cbn [app po_lines].
  destruct (po_lines (mkPoState [] None None (str_of "utf-8")) before)
    as [st|e]; [|reflexivity].
  cbn [bind]. now rewrite (po_line_passed_over st Hraw).
Qed.

End Newlines.

(** ** The charset and the entries *)

Section ReadPoFrame.
Context {LE : LiteralEval} {UD : UnicodeDigits}.

(** What a run adds does not depend on the entries and the charset it
    starts from. *)
Lemma flush_frame e1 h1 e2 h2 c k st1' :
  flush (mkPoState e1 c k h1) = Ok st1' ->
  exists new,
    entries st1' = e1 ++ new
    /\ nonlocal_header st1' = fold_left header_step new h1
    /\ cur st1' = None
    /\ flush (mkPoState e2 c k h2)
       = Ok (mkPoState (e2 ++ new) None k (fold_left header_step new h2))
    /\ active_key st1' = k.
Proof.
  unfold flush. cbn [cur msgstr entries active_key nonlocal_header].
  destruct c as [c|].
  - unfold header_step.
    destruct (msgstr c) as [|first rest] eqn:Em.
    + cbn [bind]. intros [= <-]. exists [c]. cbn. rewrite Em.
      repeat split; reflexivity.
    + destruct (is_empty_str (msgid c)) eqn:Ei.
      * destruct first as [s|elts]; cbn [detect_charset_dyn bind];
          [|discriminate].
        intros [= <-]. exists [c]. cbn. rewrite Em, Ei.
        repeat split; reflexivity.
      * cbn [bind]. intros [= <-]. exists [c]. cbn. rewrite Em, Ei.
        destruct first; repeat split; reflexivity.
  - intros [= <-]. exists []. cbn. rewrite !app_nil_r.
    repeat split; reflexivity.
Qed.

Lemma po_line_frame e1 h1 e2 h2 c k raw st1' :
  po_line (mkPoState e1 c k h1) raw = Ok st1' ->
  exists new,
    entries st1' = e1 ++ new
    /\ nonlocal_header st1' = fold_left header_step new h1
    /\ po_line (mkPoState e2 c k h2) raw
       = Ok (mkPoState (e2 ++ new) (cur st1') (active_key st1')
                       (fold_left header_step new h2)).
Proof.
  unfold po_line. destruct (strip raw) as [|ch l] eqn:E.
  { destruct (flush (mkPoState e1 c k h1)) as [st|err] eqn:Ef;
      [|discriminate].
    cbn [bind]. intros [= <-].
    destruct (@flush_frame _ _ e2 h2 _ _ _ Ef)
      as (new & H1 & H2 & H3 & H4 & H5).
    exists new. rewrite H4. cbn. rewrite H3. repeat split; assumption. }
  assert (Hsame : forall st : po_state,
            Ok st = Ok st1' -> entries st = e1 -> nonlocal_header st = h1 ->
            forall st2 : po_state,
              st2 = mkPoState e2 (cur st) (active_key st) h2 ->
              exists new,
                entries st1' = e1 ++ new
                /\ nonlocal_header st1' = fold_left header_step new h1
                /\ Ok st2
                   = Ok (mkPoState (e2 ++ new) (cur st1') (active_key st1')
                                   (fold_left header_step new h2))).
  { intros st [= <-] He Hh st2 ->. exists []. cbn. rewrite !app_nil_r.
    repeat split; auto. }
  unfold with_cur, cur_or_new.
  cbn [cur active_key entries nonlocal_header].
  destruct (startswith (ch :: l) (str_of "#")).
  { intros H. now apply (Hsame _ H). }
  destruct (startswith (ch :: l) (str_of "msgctxt")).
  { intros H. now apply (Hsame _ H). }
  destruct (startswith (ch :: l) (str_of "msgid_plural")).
  { intros H. now apply (Hsame _ H). }
  destruct (startswith (ch :: l) (str_of "msgid")).
  { intros H. now apply (Hsame _ H). }
  destruct (match_msgstr_index (ch :: l)) as [[ds rest]|].
  { intros H. now apply (Hsame _ H). }
  destruct (startswith (ch :: l) (str_of "msgstr")).
  { intros H. now apply (Hsame _ H). }
  destruct (startswith (ch :: l) [DQ]).
  2:{ intros H. now apply (Hsame _ H). }
  destruct k as [k|]; [|intros H; now apply (Hsame _ H)].
  destruct c as [c|]; [|intros H; now apply (Hsame _ H)].
  destruct (continuation c k (_parse_po_string_literal (ch :: l)))
    as [c'|err]; [|discriminate].
  cbn [bind]. intros H. now apply (Hsame _ H).
Qed.

Lemma po_lines_frame lines : forall e1 h1 e2 h2 c k st1',
  po_lines (mkPoState e1 c k h1) lines = Ok st1' ->
  exists new,
    entries st1' = e1 ++ new
    /\ nonlocal_header st1' = fold_left header_step new h1
    /\ po_lines (mkPoState e2 c k h2) lines
       = Ok (mkPoState (e2 ++ new) (cur st1') (active_key st1')
                       (fold_left header_step new h2)).
Proof.
  induction lines as [|raw lines IH]; intros e1 h1 e2 h2 c k st1'.
  - cbn [po_lines]. intros [= <-]. exists []. cbn. rewrite !app_nil_r.
    repeat split; reflexivity.
  - cbn [po_lines].
    destruct (po_line (mkPoState e1 c k h1) raw) as [st|err] eqn:El;
      [|discriminate].
    cbn [bind]. intros Hrest.
    destruct (@po_line_frame _ _ e2 h2 _ _ _ _ El) as (new1 & A1 & A2 & A3).
    rewrite A3. cbn [bind].
    destruct st as [es cs ks hs]. cbn [entries nonlocal_header cur active_key]
      in *. subst es hs.
    destruct (IH _ _ (e2 ++ new1) (fold_left header_step new1 h2) _ _ _
                 Hrest) as (new2 & B1 & B2 & B3).
    exists (new1 ++ new2). rewrite B1, B2, B3, !app_assoc, !fold_left_app.
    repeat split; reflexivity.
Qed.

Lemma read_po_charset_of_entries (text charset : str)
  (es : list (PoEntry pyval)) :
  read_po text = Ok (charset, es) -> charset = po_charset es.
Proof.
  unfold read_po.
  destruct (po_lines (mkPoState [] None None (str_of "utf-8"))
                     (splitlines text ++ [[]])) as [st|err] eqn:E;
    [|discriminate].
  cbn [bind]. intros [= <- <-].
  destruct (@po_lines_frame _ _ _ [] (str_of "utf-8") _ _ _ E)
    as (new & H1 & H2 & _).
  cbn [app] in H1. now rewrite H1, H2.
Qed.

(** The charset [read_po] returns is determined by the entries it
    returns: it is the charset the resolver reads in the first
    translation of the last entry whose [msgid] is empty and that has a
    translation, and utf-8 when no entry is such. *)
Theorem read_po_charset (text charset : str) (es : list (PoEntry pyval)) :
  read_po text = Ok (charset, es) -> charset = po_charset es.
Proof. apply read_po_charset_of_entries. Qed.

Lemma po_lines_blank_end lines st st' :
  po_lines st (lines ++ [[]]) = Ok st' ->
  cur st' = None /\ active_key st' = None.
Proof.
  rewrite po_lines_app.
  destruct (po_lines st lines) as [st1|err]; [|discriminate].
  cbn [bind po_lines]. rewrite po_line_blank.
  destruct st1 as [e c k h].
  destruct (flush (mkPoState e c k h)) as [st2|err] eqn:Ef; [|discriminate].
  cbn [bind]. intros [= <-]. cbn.
  destruct (@flush_frame _ _ [] [] _ _ _ Ef) as (new & _ & _ & H3 & _).
  now split.
Qed.

End ReadPoFrame.

(** ** Texts put one after the other *)

Lemma splitlines_from_two_newlines t2 : forall t1 acc,
  exists b,
    (b = [[]] \/ b = [[]; []])
    /\ splitlines_from acc (t1 ++ LF :: LF :: t2)
       = splitlines_from acc t1 ++ b ++ splitlines_from [] t2.
Proof.
  assert (H : forall n t1, (List.length t1 <= n)%nat -> forall acc,
    exists b,
      (b = [[]] \/ b = [[]; []])
      /\ splitlines_from acc (t1 ++ LF :: LF :: t2)
         = splitlines_from acc t1 ++ b ++ splitlines_from [] t2).
  { induction n as [|n IH]; intros t1 Hn acc.
    - destruct t1; [|cbn in Hn; lia]. cbn [app splitlines_from].
      change (LF =? CR) with false. change (is_linebreak LF) with true.
      cbv iota. destruct acc as [|a acc].
      + exists [[]; []]. split; [now right|reflexivity].
      + exists [[]]. split; [now left|reflexivity].
    - destruct t1 as [|c t1].
      { apply (IH []); cbn; lia. }
      cbn [app splitlines_from]. destruct (N.eqb_spec c CR) as [->|Hc].
      + destruct t1 as [|d t1].
        * cbn [app]. change (LF =? LF) with true. cbv iota.
          cbn [splitlines_from]. change (LF =? CR) with false.
          change (is_linebreak LF) with true. cbv iota.
          exists [[]]. split; [now left|reflexivity].
        * cbn [app]. destruct (d =? LF).
          -- destruct (IH t1 ltac:(cbn in Hn; lia) []) as (b & Hb & ->).
             exists b. split; [assumption|reflexivity].
          -- change (d :: t1 ++ LF :: LF :: t2)
               with ((d :: t1) ++ LF :: LF :: t2).
             destruct (IH (d :: t1) ltac:(cbn in Hn |- *; lia) [])
               as (b & Hb & ->).
             exists b. split; [assumption|reflexivity].
      + destruct (is_linebreak c).
        * destruct (IH t1 ltac:(cbn in Hn; lia) []) as (b & Hb & ->).
          exists b. split; [assumption|reflexivity].
        * destruct (IH t1 ltac:(cbn in Hn; lia) (c :: acc)) as (b & Hb & ->).
          exists b. split; [assumption|reflexivity]. }
  intros t1 acc. now apply (H (List.length t1)).
Qed.

Section ReadPoConcat.
Context {LE : LiteralEval} {UD : UnicodeDigits}.

(** Reading two texts joined by an empty line gives the entries of the
    first followed by those of the second, and the charset of the
    whole sequence. *)
Theorem read_po_concat (text1 text2 charset1 charset2 : str)
  (es1 es2 : list (PoEntry pyval)) :
  read_po text1 = Ok (charset1, es1) ->
  read_po text2 = Ok (charset2, es2) ->
  read_po (text1 ++ [LF; LF] ++ text2)
  = Ok (po_charset (es1 ++ es2), es1 ++ es2).
Proof.
  intros H1 H2. pose proof (read_po_charset_of_entries _ H1) as Hc1.
  unfold read_po in *.
  destruct (po_lines (mkPoState [] None None (str_of "utf-8"))
                     (splitlines text1 ++ [[]])) as [st1|err] eqn:E1;
    [|discriminate].
  destruct (po_lines (mkPoState [] None None (str_of "utf-8"))
                     (splitlines text2 ++ [[]])) as [st2|err] eqn:E2;
    [|discriminate].
  cbn [bind] in H1, H2. injection H1 as <- <-. injection H2 as <- <-.
  destruct (po_lines_blank_end _ _ E1) as [Hcur Hact].
  destruct st1 as [e1 c1 k1 h1]. cbn [cur active_key entries nonlocal_header]
    in *. subst c1 k1.
  destruct (@po_lines_frame _ _ _ _ _ e1 h1 _ _ _ E2) as (new & N1 & N2 & N3).
  cbn [app] in N1.
  destruct (po_lines_blank_end _ _ E2) as [Hcur2 Hact2].
  rewrite Hcur2, Hact2, <- N1 in N3.
  assert (Hrun : forall b, b = [[]] \/ b = [[]; []] ->
            po_lines (mkPoState [] None None (str_of "utf-8"))
                     ((splitlines text1 ++ b ++ splitlines text2) ++ [[]])
            = Ok (mkPoState (e1 ++ entries st2) None None
                            (fold_left header_step (entries st2) h1))).
  { intros b [->| ->].
    - replace ((splitlines text1 ++ [[]] ++ splitlines text2) ++ [[]])
        with ((splitlines text1 ++ [[]]) ++ (splitlines text2 ++ [[]]))
        by now rewrite <- !app_assoc.
      rewrite po_lines_app, E1. cbn [bind]. exact N3.
    - replace ((splitlines text1 ++ [[]; []] ++ splitlines text2) ++ [[]])
        with ((splitlines text1 ++ [[]]) ++ [] :: (splitlines text2 ++ [[]]))
        by now rewrite <- !app_assoc.
      rewrite po_lines_app, E1. cbn [bind po_lines].
      rewrite po_line_blank. cbn [flush cur bind entries nonlocal_header].
      exact N3. }
  unfold splitlines.
  change (text1 ++ [LF; LF] ++ text2) with (text1 ++ LF :: LF :: text2).
  destruct (splitlines_from_two_newlines text2 text1 []) as (b & Hb & ->).
  fold (splitlines text1). fold (splitlines text2).
  rewrite (Hrun b Hb). cbn [bind nonlocal_header entries].
  unfold po_charset. rewrite fold_left_app. fold (po_charset e1).
  now rewrite <- Hc1.
Qed.

End ReadPoConcat.

(** ** What [write_po] writes *)

Lemma entry_lines_written e : entry_lines (written_entry e) = entry_lines e.
Proof.
  unfold written_entry.
  destruct (msgid_plural e) eqn:E; [reflexivity|].
  unfold entry_lines. cbn [msgctxt msgid msgid_plural msgstr hd].
  now rewrite E.
Qed.

Lemma written_entry_wf e : po_strs e -> po_wf (written_entry e).
Proof.
  intros (Hc & Hi & Hp & Hm). unfold written_entry, po_wf.
  destruct (msgid_plural e) as [p|] eqn:E.
  - rewrite E. repeat split; assumption.
  - cbn. repeat split; try assumption; [now eexists|].
    constructor; [|constructor].
    destruct (msgstr e) as [|s l]; [constructor|]. now inversion Hm.
Qed.

Lemma flat_map_entry_lines_written C :
  flat_map entry_lines (map written_entry C) = flat_map entry_lines C.
Proof.
  induction C as [|e C IH]; [reflexivity|].
  cbn [map flat_map]. now rewrite entry_lines_written, IH.
Qed.

Section WriteRead.
Context {LE : LiteralEval} {UD : UnicodeDigits}.

Lemma read_po_written (C : list (PoEntry str)) :
  Forall po_strs C ->
  let es := map (entry_map VStr) (map written_entry C) in
  read_po (write_po C) = Ok (po_charset es, es).
Proof.
  intros HC es.
  assert (Hwf : Forall po_wf (map written_entry C)).
  { apply Forall_map. eapply Forall_impl; [|exact HC].
    apply written_entry_wf. }
  assert (Hex : exists h, read_po (write_po C) = Ok (h, es)).
  { unfold read_po, write_po.
    rewrite <- flat_map_entry_lines_written.
    set (C' := map written_entry C) in *.
    assert (Hlines : splitlines (join [LF] (flat_map entry_lines C')) ++ [[]]
                     = match C' with
                       | [] => [[]]
                       | _ => flat_map entry_lines C'
                       end).
    { destruct C' as [|e C'']; [reflexivity|].
      destruct (@catalog_lines_last (e :: C'')) as [L HL]; [discriminate|].
      rewrite HL. rewrite splitlines_join; [reflexivity|].
      assert (Hall : Forall no_break (flat_map entry_lines (e :: C''))).
      { apply Forall_flat_map. eapply Forall_impl; [|exact Hwf].
        apply entry_lines_no_break. }
      rewrite HL in Hall. now apply Forall_app in Hall as [Hall _]. }
    rewrite Hlines. subst es. fold C'.
    destruct C' as [|e C''] eqn:EC.
    - exists (str_of "utf-8"). reflexivity.
    - destruct (po_lines_catalog [] (str_of "utf-8") Hwf) as [h' ->].
      exists h'. reflexivity. }
  destruct Hex as [h Hh]. rewrite Hh.
  now rewrite (read_po_charset_of_entries _ Hh).
Qed.

(** Reading back what [write_po] writes, for any catalog whose strings
    hold no NUL, no surrogate and no line boundary beside newline and
    carriage return: the entries come back in order, those with
    [msgid_plural] as they are, the others with exactly one
    translation, their first or the empty string; the charset is that
    of the entries read. *)
Theorem read_po_write_po (C : list (PoEntry str)) :
  Forall po_strs C ->
  let es := map (entry_map VStr) (map written_entry C) in
  read_po (write_po C) = Ok (po_charset es, es).
Proof. apply read_po_written. Qed.

End WriteRead.

Lemma join_app (sep : str) (a b : list str) :
  a <> [] -> b <> [] -> join sep (a ++ b) = join sep a ++ sep ++ join sep b.
Proof.
  intros Ha Hb. induction a as [|x a IH]; [contradiction|].
  destruct a as [|y a].
  - cbn [app]. destruct b as [|z b]; [contradiction|]. reflexivity.
  - change (join sep ((x :: y :: a) ++ b))
      with (x ++ sep ++ join sep ((y :: a) ++ b)).
    rewrite IH by discriminate.
    change (join sep (x :: y :: a)) with (x ++ sep ++ join sep (y :: a)).
    now rewrite <- !app_assoc.
Qed.

Lemma catalog_lines_nonempty (C : list (PoEntry str)) :
  C <> [] -> flat_map entry_lines C <> [].
Proof.
  intros H. destruct (catalog_lines_last H) as [L ->].
  now destruct L.
Qed.

(** The text of two catalogs put together is the text of the first, a
    newline, and the text of the second. *)
Theorem write_po_app (C1 C2 : list (PoEntry str)) :
  C1 <> [] -> C2 <> [] ->
  write_po (C1 ++ C2) = write_po C1 ++ [LF] ++ write_po C2.
Proof.
  intros H1 H2. unfold write_po. rewrite flat_map_app.
  apply join_app; now apply catalog_lines_nonempty.
Qed.

(** ** No tab and no carriage return *)

Lemma no_tab_cr_app a b : no_tab_cr a -> no_tab_cr b -> no_tab_cr (a ++ b).
Proof. intros Ha Hb. apply Forall_app. now split. Qed.

Lemma _po_quote_no_tab_cr s : Forall no_tab_cr (_po_quote s).
Proof.
  rewrite _po_quote_pieces. apply Forall_forall. intros l Hl.
  apply in_map_iff in Hl as [p [<- _]]. unfold lit, quoted.
  constructor; [split; discriminate|].
  apply no_tab_cr_app; [|repeat constructor; discriminate].
  apply _po_escape_Forall. intros c.
  eapply Forall_impl; [|apply escape_char_no_control]. cbn. tauto.
Qed.

Lemma emit_no_tab_cr kw s :
  no_tab_cr kw -> Forall no_tab_cr (emit kw (_po_quote s)).
Proof.
  intros Hkw. pose proof (_po_quote_no_tab_cr s) as H. unfold emit.
  destruct (_po_quote s) as [|q qs]; cbn [hd tl].
  - constructor; [|constructor]. now rewrite app_nil_r.
  - inversion H; subst. constructor; [|assumption].
    now apply no_tab_cr_app.
Qed.

Lemma digits_of_uint_no_tab_cr d : no_tab_cr (digits_of_uint d).
Proof.
  induction d; cbn; constructor; try assumption; split; discriminate.
Qed.

Lemma msgstr_lines_no_tab_cr ss : forall i,
  Forall no_tab_cr (msgstr_lines i ss).
Proof.
  induction ss as [|s ss IH]; intros i; [constructor|].
  cbn [msgstr_lines]. apply Forall_app. split; [|apply IH].
  apply emit_no_tab_cr.
  apply no_tab_cr_app; [repeat constructor; discriminate|].
  apply no_tab_cr_app; [apply digits_of_uint_no_tab_cr|].
  repeat constructor; discriminate.
Qed.

Lemma entry_lines_no_tab_cr (e : PoEntry str) :
  Forall no_tab_cr (entry_lines e).
Proof.
  assert (Hkw : forall kw : string, no_tab_cr (str_of kw) ->
                forall s, Forall no_tab_cr (emit (str_of kw) (_po_quote s))).
  { intros kw Hk s. now apply emit_no_tab_cr. }
  unfold entry_lines.
  apply Forall_app. split.
  { destruct (msgctxt e); [|constructor].
    apply Hkw. repeat constructor; discriminate. }
  apply Forall_app. split.
  { apply Hkw. repeat constructor; discriminate. }
  apply Forall_app. split; [|repeat constructor].
  destruct (msgid_plural e).
  - apply Forall_app. split; [|apply msgstr_lines_no_tab_cr].
    apply Hkw. repeat constructor; discriminate.
  - apply Hkw. repeat constructor; discriminate.
Qed.

Lemma join_LF_no_tab_cr L : Forall no_tab_cr L -> no_tab_cr (join [LF] L).
Proof.
  induction 1 as [|l L Hl HL IH]; [constructor|].
  destruct L as [|l' L]; [exact Hl|].
  change (join [LF] (l :: l' :: L)) with (l ++ [LF] ++ join [LF] (l' :: L)).
  apply no_tab_cr_app; [assumption|].
  apply no_tab_cr_app; [repeat constructor; discriminate|assumption].
Qed.

Lemma universal_newlines_no_CR s : ~ In CR s -> universal_newlines s = s.
Proof.
  induction s as [|c s IH]; [reflexivity|]. intros H.
  cbn [universal_newlines]. destruct (N.eqb_spec c CR) as [->|Hc].
  - exfalso. apply H. now left.
  - rewrite IH; [reflexivity|]. intros Hin. apply H. now right.
Qed.

Lemma write_po_no_tab_cr (C : list (PoEntry str)) : no_tab_cr (write_po C).
Proof.
  unfold write_po. apply join_LF_no_tab_cr, Forall_flat_map.
  apply Forall_forall. intros e _. apply entry_lines_no_tab_cr.
Qed.

Lemma write_po_universal (C : list (PoEntry str)) :
  universal_newlines (write_po C) = write_po C.
Proof.
  apply universal_newlines_no_CR. intros Hin.
  pose proof (write_po_no_tab_cr C) as H. unfold no_tab_cr in H.
  rewrite Forall_forall in H. apply H in Hin. tauto.
Qed.

(** Whatever the catalog, the text [write_po] writes holds no tab and
    no carriage return, so that reading the file in text mode gives the
    text as it was written. *)
Theorem write_po_plain_newlines (C : list (PoEntry str)) :
  ~ In TAB (write_po C) /\ ~ In CR (write_po C)
  /\ universal_newlines (write_po C) = write_po C.
Proof.
  pose proof (write_po_no_tab_cr C) as H. unfold no_tab_cr in H.
  rewrite Forall_forall in H.
  split; [|split; [|apply write_po_universal]];
    intros Hin; apply H in Hin; tauto.
Qed.

Local Open Scope Z_scope.

(** * More on the file [write_mo] writes *)

(** ** The terminator of each string *)

Lemma slice_one_inside {A} (data : list A) x (b : A) :
  0 <= x -> slice data x (x + 1) = [b] -> x + 1 <= len data.
Proof.
  intros Hx H. pose proof (@slice_length _ data x (x + 1) Hx) as L.
  rewrite H in L. unfold len at 1 in L. cbn [List.length] in L. lia.
Qed.

Lemma terminated_app P pool ext lo :
  terminated P pool lo -> terminated P (pool ++ ext) lo.
Proof.
  intros (H0 & HP & Hs). split; [assumption|]. split; [assumption|].
  rewrite slice_app_l; [assumption|lia|].
  apply slice_one_inside with (b := x00); [lia|assumption].
Qed.

Lemma place_terminated P st k :
  pool_inv P st -> P <= cur_off st ->
  terminated P (pool (place P st k)) (len k, align4 (cur_off st)).
Proof.
  intros Hinv HP. unfold pool_inv in Hinv. unfold place.
  pose proof (align4_bounds (cur_off st)) as Hb.
  pose proof (len_nonneg k) as Hk.
  set (c := align4 (cur_off st)) in *.
  set (padded :=
         if len (pool st) <? c - P
         then pool st ++ repeat x00 (Z.to_nat (c - P - len (pool st)))
         else pool st).
  assert (Hplen : len padded = c - P).
  { subst padded. destruct (len (pool st) <? c - P) eqn:E.
    - apply Z.ltb_lt in E. rewrite len_app, repeat_len. lia.
    - apply Z.ltb_ge in E. lia. }
  cbn [pool]. unfold terminated. cbn [fst snd].
  split; [assumption|]. split; [lia|].
  replace (padded ++ k ++ [x00]) with ((padded ++ k) ++ [x00] ++ [])
    by (now rewrite <- app_assoc).
  apply slice_middle.
  - rewrite len_app. lia.
  - rewrite len_app. change (len [x00]) with 1. lia.
Qed.

Lemma fold_place_terminated P ks : forall st,
  pool_inv P st -> P <= cur_off st ->
  Forall (terminated P (pool st)) (offsets st) ->
  Forall (terminated P (pool (fold_left (place P) ks st)))
         (offsets (fold_left (place P) ks st)).
Proof.
  induction ks as [|k ks IH]; intros st Hinv HP Hall; cbn [fold_left];
    [assumption|].
  destruct (place_spec k Hinv) as (Hinv1 & Hc1 & [ext1 Hp1] & Ho1 & _).
  apply IH; [assumption|lia|].
  rewrite Ho1. apply Forall_app. split.
  - rewrite Hp1. eapply Forall_impl; [|exact Hall].
    intros lo. apply terminated_app.
  - constructor; [|constructor]. now apply place_terminated.
Qed.

(** ** The parts of the file *)

Lemma write_mo_bytes_layout (by_key : list (bytes * bytes)) (out : bytes) :
  write_mo_bytes by_key = Ok out ->
  let keys := sorted (dict_keys by_key) in
  let values := map (by_key_get by_key) keys in
  let n := len keys in
  let P := 28 + n * 8 + n * 8 in
  let st_o := fold_left (place P) keys (mkLayout [] P []) in
  let st_t := fold_left (place P) values
                        (mkLayout (pool st_o) (cur_off st_o) []) in
  exists hdr,
    out = hdr ++ pool st_t
    /\ len hdr = P
    /\ read_header out = Ok (LittleEndian, n, 28, 28 + n * 8)
    /\ read_table LittleEndian out n 28 = Ok (offsets st_o)
    /\ read_table LittleEndian out n (28 + n * 8) = Ok (offsets st_t)
    /\ word_at LittleEndian out 20 = 0
    /\ word_at LittleEndian out 24 = 0.
Proof.
  intros Hw keys values n P st_o st_t. unfold write_mo_bytes in Hw.
  fold keys in Hw. fold values in Hw. fold n in Hw. fold P in Hw.
  fold st_o in Hw. fold st_t in Hw.
  assert (Hn0 : 0 <= n) by apply len_nonneg.
  assert (Hinv0 : pool_inv P (mkLayout [] P [])).
  { unfold pool_inv. cbn [pool cur_off]. unfold len. cbn. lia. }
  destruct (@fold_place_spec P keys _ Hinv0 ltac:(cbn; lia))
    as (Hinv1 & Hc1 & _ & offs_o & Ho1 & Hpl1).
  fold st_o in Hinv1, Hc1, Ho1, Hpl1.
  assert (Hinv1' : pool_inv P (mkLayout (pool st_o) (cur_off st_o) [])).
  { exact Hinv1. }
  destruct (@fold_place_spec P values _ Hinv1' ltac:(cbn in *; lia))
    as (_ & _ & _ & offs_t & Ho2 & Hpl2).
  fold st_t in Ho2, Hpl2.
  cbn [pool cur_off offsets app] in Ho1, Ho2, Hc1.
  destruct (pack_I 2500072158) as [h0|] eqn:E0; cbn [bind] in Hw;
    [|discriminate].
  destruct (pack_I 0) as [h1|] eqn:E1; cbn [bind] in Hw; [|discriminate].
  destruct (pack_I n) as [h2|] eqn:E2; cbn [bind] in Hw; [|discriminate].
  destruct (pack_I 28) as [h3|] eqn:E3; cbn [bind] in Hw; [|discriminate].
  destruct (pack_I (28 + n * 8)) as [h4|] eqn:E4; cbn [bind] in Hw;
    [|discriminate].
  destruct (pack_table (offsets st_o)) as [table_o|] eqn:Eo; cbn [bind] in Hw;
    [|discriminate].
  destruct (pack_table (offsets st_t)) as [table_t|] eqn:Et; cbn [bind] in Hw;
    [|discriminate].
  inversion Hw as [Hout]. clear Hw.
  apply pack_I_ok in E0 as [_ ->]. apply pack_I_ok in E1 as [_ ->].
  apply pack_I_ok in E2 as [Hn ->]. apply pack_I_ok in E3 as [_ ->].
  apply pack_I_ok in E4 as [Hn4 ->].
  pose proof (pack_table_len _ Eo) as Hlo.
  pose proof (pack_table_len _ Et) as Hlt.
  pose proof (Forall2_length_len Hpl1) as Hko.
  pose proof (Forall2_length_len Hpl2) as Hvt.
  rewrite <- Ho1 in Hko. rewrite <- Ho2 in Hvt.
  assert (Hvn : len values = n).
  { unfold values, len. now rewrite length_map. }
  fold n in Hko.
  match type of Hout with
  | ?a ++ ?b ++ ?c ++ ?d ++ ?e ++ ?f ++ ?g ++ ?t ++ ?u ++ ?rest = _ =>
      exists (a ++ b ++ c ++ d ++ e ++ f ++ g ++ t ++ u)
  end.
  split; [now rewrite <- !app_assoc|].
  split.
  { rewrite !len_app, Hlo, Hlt, <- Hko, <- Hvt, Hvn.
    unfold len at 1 2 3 4 5 6 7. cbn [List.length]. unfold P. lia. }
  split; [|split; [|split; [|split]]].
  - rewrite read_header_fields. cbn [app].
    match goal with
    | |- context [len ?l <? 28] =>
        assert (Hlen : (len l <? 28) = false)
    end.
    { apply Z.ltb_ge. rewrite !len_cons.
      match goal with |- context [len ?r] => pose proof (len_nonneg r) end.
      lia. }
    rewrite Hlen. clear Hlen.
    unfold mo_endian, word_at. cbn [nth Nat.add].
    rewrite (@word_of_pack 2500072158) by lia. cbn [Z.eqb Pos.eqb].
    rewrite (@word_of_pack 0) by lia. cbn [Z.eqb negb].
    rewrite (@word_of_pack n) by lia. rewrite (@word_of_pack 28) by lia.
    rewrite (@word_of_pack (28 + n * 8)) by lia. reflexivity.
  - unfold read_table.
    replace (Z.to_nat n) with (List.length (offsets st_o)).
    2:{ clear - Hko. unfold len in *. lia. }
    match goal with
    | |- read_table_loop _ (?a ++ ?b ++ ?c ++ ?d ++ ?e ++ ?f ++ ?g ++ ?rest)
                         _ _ _ = _ =>
        replace (a ++ b ++ c ++ d ++ e ++ f ++ g ++ rest)
          with ((a ++ b ++ c ++ d ++ e ++ f ++ g) ++ rest)
          by (now rewrite <- !app_assoc);
        change 28 with (len (a ++ b ++ c ++ d ++ e ++ f ++ g)) at 1
    end.
    now apply read_table_loop_packed.
  - unfold read_table.
    replace (Z.to_nat n) with (List.length (offsets st_t)).
    2:{ clear - Hvt Hvn. unfold len in *. lia. }
    match goal with
    | |- read_table_loop _ (?a ++ ?b ++ ?c ++ ?d ++ ?e ++ ?f ++ ?g ++ ?t
                            ++ ?rest) _ _ _ = _ =>
        pose (pre := a ++ b ++ c ++ d ++ e ++ f ++ g ++ t);
        replace (a ++ b ++ c ++ d ++ e ++ f ++ g ++ t ++ rest)
          with (pre ++ rest)
          by (subst pre; now rewrite <- !app_assoc)
    end.
    assert (Hpre : 28 + n * 8 = len pre).
    { subst pre. rewrite !len_app, Hlo, <- Hko.
      unfold len at 1 2 3 4 5 6 7. cbn [List.length]. lia. }
    rewrite Hpre. now apply read_table_loop_packed.
  - unfold word_at. cbn [app nth Nat.add].
    now rewrite (@word_of_pack 0) by lia.
  - unfold word_at. cbn [app nth Nat.add].
    now rewrite (@word_of_pack 0) by lia.
Qed.

Section WriteMoFile.
Context {CD : Codecs}.

(** The file [write_mo] writes is little-endian with revision 0; the
    table of the originals starts right after the 28-byte header, the
    table of the translations right after it, and the file declares no
    hash table. *)
Theorem write_mo_header (entries : list (PoEntry str)) (charset : str)
  (out : bytes) :
  write_mo entries charset = Ok out ->
  28 <= len out
  /\ word_at LittleEndian out 0 = 2500072158
  /\ word_at LittleEndian out 4 = 0
  /\ word_at LittleEndian out 12 = 28
  /\ word_at LittleEndian out 16 = 28 + 8 * word_at LittleEndian out 8
  /\ word_at LittleEndian out 20 = 0
  /\ word_at LittleEndian out 24 = 0.
Proof.
  unfold write_mo.
  destruct (fill_by_key charset (with_header entries) []) as [by_key|] eqn:Ef;
    cbn [bind]; [|discriminate].
  intros Hw.
  destruct (write_mo_bytes_layout _ Hw)
    as (hdr & _ & _ & Hh & _ & _ & H20 & H24).
  rewrite read_header_fields in Hh.
  destruct (len out <? 28) eqn:El; [discriminate|]. apply Z.ltb_ge in El.
  unfold mo_endian in Hh.
  destruct (word_at LittleEndian out 0 =? 2500072158) eqn:Em.
  - apply Z.eqb_eq in Em.
    destruct (word_at LittleEndian out 4 =? 0) eqn:Er;
      cbn [negb] in Hh; [|discriminate].
    apply Z.eqb_eq in Er.
    assert (Heq : (LittleEndian, word_at LittleEndian out 8,
                   word_at LittleEndian out 12, word_at LittleEndian out 16)
                  = (LittleEndian, len (sorted (dict_keys by_key)), 28,
                     28 + len (sorted (dict_keys by_key)) * 8))
      by congruence.
    apply pair_equal_spec in Heq as [Heq H16].
    apply pair_equal_spec in Heq as [Heq H12].
    apply pair_equal_spec in Heq as [_ Hn].
    split; [assumption|]. split; [assumption|]. split; [assumption|].
    split; [assumption|]. split; [rewrite H16, Hn; lia|].
    split; assumption.
  - destruct (word_at BigEndian out 0 =? 2500072158); [|discriminate].
    destruct (negb (word_at BigEndian out 4 =? 0)); discriminate.
Qed.

(** Every string of the file [write_mo] writes lies inside the file and
    is followed by a zero byte. *)
Theorem write_mo_strings_terminated (entries : list (PoEntry str))
  (charset : str) (out : bytes) :
  write_mo entries charset = Ok out ->
  exists e n off_orig off_trans orig_table trans_table,
    read_header out = Ok (e, n, off_orig, off_trans)
    /\ read_table e out n off_orig = Ok orig_table
    /\ read_table e out n off_trans = Ok trans_table
    /\ Forall (fun lo : Z * Z =>
                 0 <= fst lo /\ 0 <= snd lo
                 /\ snd lo + fst lo < len out
                 /\ slice out (snd lo + fst lo) (snd lo + fst lo + 1) = [x00])
              (orig_table ++ trans_table).
Proof.
  unfold write_mo.
  destruct (fill_by_key charset (with_header entries) []) as [by_key|] eqn:Ef;
    cbn [bind]; [|discriminate].
  intros Hw.
  destruct (write_mo_bytes_layout _ Hw)
    as (hdr & Hout & Hlen & Hh & Ho & Ht & _).
  set (keys := sorted (dict_keys by_key)) in *.
  set (values := map (by_key_get by_key) keys) in *.
  set (n := len keys) in *.
  set (P := 28 + n * 8 + n * 8) in *.
  set (st_o := fold_left (place P) keys (mkLayout [] P [])) in *.
  set (st_t := fold_left (place P) values
                         (mkLayout (pool st_o) (cur_off st_o) [])) in *.
  assert (Hn0 : 0 <= n) by apply len_nonneg.
  assert (Hinv0 : pool_inv P (mkLayout [] P [])).
  { unfold pool_inv. cbn [pool cur_off]. unfold len. cbn. lia. }
  destruct (@fold_place_spec P keys _ Hinv0 ltac:(cbn; lia))
    as (Hinv1 & Hc1 & _).
  fold st_o in Hinv1, Hc1. cbn [cur_off] in Hc1.
  assert (Hinv1' : pool_inv P (mkLayout (pool st_o) (cur_off st_o) [])).
  { exact Hinv1. }
  destruct (@fold_place_spec P values _ Hinv1' ltac:(cbn in *; lia))
    as (_ & _ & [ext Hext] & _).
  fold st_t in Hext. cbn [pool] in Hext.
  assert (Hto : Forall (terminated P (pool st_t)) (offsets st_o)).
  { rewrite Hext.
    eapply Forall_impl; [intros lo; apply terminated_app|].
    apply (@fold_place_terminated P keys _ Hinv0); [cbn; lia|constructor]. }
  assert (Htt : Forall (terminated P (pool st_t)) (offsets st_t)).
  { apply (@fold_place_terminated P values _ Hinv1'); [cbn; lia|constructor]. }
  exists LittleEndian, n, 28, (28 + n * 8), (offsets st_o), (offsets st_t).
  split; [assumption|]. split; [assumption|]. split; [assumption|].
  assert (HP : 0 <= P) by (unfold P; lia).
  eapply Forall_impl; [|apply Forall_app; split; [exact Hto|exact Htt]].
  intros [l o] (H0 & H1 & Hs). cbn [fst snd] in *.
  assert (Hin : o - P + l + 1 <= len (pool st_t)).
  { apply slice_one_inside with (b := x00); [lia|assumption]. }
  split; [assumption|]. split; [lia|]. split.
  - rewrite Hout, len_app, Hlen. lia.
  - rewrite Hout. rewrite <- Hs.
    replace (o + l) with (len hdr + (o - P + l)) by lia.
    replace (len hdr + (o - P + l) + 1) with (len hdr + (o - P + l + 1))
      by lia.
    apply slice_app_r. lia.
Qed.

End WriteMoFile.

Local Open Scope N_scope.

(** * The entries of an MO file *)

(** ** What [read_mo] returns *)

Lemma split1_some sep s a b :
  split1 sep s = Some (a, b) -> s = a ++ sep :: b /\ ~ In sep a.
Proof.
  revert a b. induction s as [|c s IH]; intros a b; cbn [split1];
    [discriminate|].
  destruct (N.eqb_spec c sep) as [->|Hc].
  - intros [= <- <-]. split; [reflexivity|intros []].
  - destruct (split1 sep s) as [[a' b']|]; [|discriminate].
    intros [= <- <-]. destruct (IH a' b' eq_refl) as [-> Hn].
    split; [reflexivity|]. intros [H|H]; [now apply Hc|now apply Hn].
Qed.

Lemma split1_none_inv sep s : split1 sep s = None -> ~ In sep s.
Proof.
  induction s as [|c s IH]; cbn [split1]; [intros _ []|].
  destruct (N.eqb_spec c sep) as [->|Hc]; [discriminate|].
  destruct (split1 sep s) as [[a' b']|]; [discriminate|].
  intros _ [H|H]; [now apply Hc|now apply IH].
Qed.

Lemma split_parts_no_sep sep s : Forall (fun p => ~ In sep p) (split sep s).
Proof.
  induction s as [|c s IH]; cbn [split]; [repeat constructor; intros []|].
  destruct (N.eqb_spec c sep) as [->|Hc].
  - constructor; [intros []|assumption].
  - destruct (split sep s) as [|p ps]; [repeat constructor|].
    + intros [H|[]]. now apply Hc.
    + inversion IH; subst. constructor; [|assumption].
      intros [H|H]; [now apply Hc|contradiction].
Qed.

Lemma not_In_app_l {A} (x : A) a b : ~ In x (a ++ b) -> ~ In x a.
Proof. intros H Hin. apply H, in_or_app. now left. Qed.

Lemma not_In_app_r {A} (x : A) a b : ~ In x (a ++ b) -> ~ In x b.
Proof. intros H Hin. apply H, in_or_app. now right. Qed.

Lemma entry_of_strings_shaped msgid_raw msgstr_raw :
  mo_shaped (entry_of_strings msgid_raw msgstr_raw).
Proof.
  unfold entry_of_strings, mo_shaped.
  assert (Hm : (if mem NUL msgstr_raw then split NUL msgstr_raw
                else [msgstr_raw]) <> []
               /\ Forall (fun s => ~ In NUL s)
                         (if mem NUL msgstr_raw then split NUL msgstr_raw
                          else [msgstr_raw])).
  { destruct (mem NUL msgstr_raw) eqn:E.
    - split; [apply split_nonempty|apply split_parts_no_sep].
    - split; [discriminate|]. constructor; [|constructor].
      intros H. apply mem_In in H. congruence. }
  destruct Hm as [Hm1 Hm2].
  destruct (split1 EOT msgid_raw) as [[c i]|] eqn:E1.
  - apply split1_some in E1 as [-> Hc].
    destruct (split1 NUL i) as [[i' p]|] eqn:E2; cbn.
    + apply split1_some in E2 as [-> Hi]. repeat split; assumption.
    + apply split1_none_inv in E2. repeat split; assumption.
  - apply split1_none_inv in E1.
    destruct (split1 NUL msgid_raw) as [[i' p]|] eqn:E2; cbn.
    + apply split1_some in E2 as [-> Hi].
      repeat split; try assumption.
      * now apply not_In_app_l in E1.
      * apply not_In_app_r in E1. intros H. apply E1. now right.
    + apply split1_none_inv in E2. repeat split; assumption.
Qed.

Lemma key_string_of_strings msgid_raw msgstr_raw :
  key_string (entry_of_strings msgid_raw msgstr_raw) = msgid_raw.
Proof.
  unfold entry_of_strings, key_string.
  destruct (split1 EOT msgid_raw) as [[c i]|] eqn:E1.
  - apply split1_some in E1 as [-> _].
    destruct (split1 NUL i) as [[i' p]|] eqn:E2; cbn.
    + apply split1_some in E2 as [-> _]. now rewrite <- !app_assoc.
    + reflexivity.
  - destruct (split1 NUL msgid_raw) as [[i' p]|] eqn:E2; cbn.
    + now apply split1_some in E2 as [-> _].
    + reflexivity.
Qed.

Lemma hd_split sep s :
  hd [] (split sep s) = take_while (fun c => negb (c =? sep)) s.
Proof.
  induction s as [|c s IH]; [reflexivity|]. cbn [split take_while].
  destruct (c =? sep); [reflexivity|]. cbn [negb].
  destruct (split sep s) as [|p ps] eqn:E.
  - now apply split_nonempty in E.
  - cbn [hd] in *. now rewrite IH.
Qed.

Lemma take_while_all f s :
  Forall (fun c => f c = true) s -> take_while f s = s.
Proof.
  induction 1 as [|c s Hc Hs IH]; [reflexivity|]. cbn. now rewrite Hc, IH.
Qed.

Lemma val_string_of_strings msgid_raw msgstr_raw :
  val_string (entry_of_strings msgid_raw msgstr_raw)
  = match msgid_plural (entry_of_strings msgid_raw msgstr_raw) with
    | Some _ => msgstr_raw
    | None => before_NUL msgstr_raw
    end.
Proof.
  assert (Hj : join [NUL] (if mem NUL msgstr_raw then split NUL msgstr_raw
                           else [msgstr_raw]) = msgstr_raw).
  { destruct (mem NUL msgstr_raw); [apply join_split|reflexivity]. }
  assert (Hh : hd [] (if mem NUL msgstr_raw then split NUL msgstr_raw
                      else [msgstr_raw]) = before_NUL msgstr_raw).
  { unfold before_NUL. destruct (mem NUL msgstr_raw) eqn:E.
    - apply hd_split.
    - cbn [hd]. symmetry. apply take_while_all. apply Forall_forall.
      intros c Hc. apply negb_true_iff. apply N.eqb_neq. intros ->.
      apply mem_In in Hc. congruence. }
  unfold entry_of_strings, val_string.
  destruct (split1 EOT msgid_raw) as [[c i]|];
    [destruct (split1 NUL i) as [[i' p]|]
    |destruct (split1 NUL msgid_raw) as [[i' p]|]];
    cbn [msgid_plural msgstr]; assumption.
Qed.

Section ReadMoEntries.
Context {CD : Codecs}.

(** Every entry [read_mo] returns has at least one translation; no
    translation and no [msgid] of it holds U+0000; its context holds no
    U+0004, and when it has no context neither its [msgid] nor its
    [msgid_plural] holds one. *)
Theorem read_mo_entries_shaped (data : bytes) (charset : str)
  (es : list (PoEntry str)) :
  read_mo data = Ok (charset, es) -> Forall mo_shaped es.
Proof.
  unfold read_mo. destruct (read_raw_pairs data) as [rp|]; [|discriminate].
  cbn [bind]. unfold entries_of_raw_pairs. intros [= _ <-].
  apply Forall_map. apply Forall_forall. intros p _.
  apply entry_of_strings_shaped.
Qed.

(** The strings [write_mo] makes of an entry that [read_mo] returned
    are the decoded strings of the file: the key string is the decoded
    original, and the value string the decoded translation, cut at its
    first U+0000 when the entry has no [msgid_plural]. *)
Theorem read_mo_key_val_strings (data : bytes) (charset : str)
  (es : list (PoEntry str)) :
  read_mo data = Ok (charset, es) ->
  exists raw_pairs,
    read_raw_pairs data = Ok raw_pairs
    /\ Forall2
         (fun (e : PoEntry str) (p : bytes * bytes) =>
            key_string e = decode charset (fst p)
            /\ val_string e
               = match msgid_plural e with
                 | Some _ => decode charset (snd p)
                 | None => before_NUL (decode charset (snd p))
                 end)
         es raw_pairs.
Proof.
  unfold read_mo. destruct (read_raw_pairs data) as [rp|]; [|discriminate].
  cbn [bind]. unfold entries_of_raw_pairs. intros [= <- <-].
  exists rp. split; [reflexivity|].
  generalize (match find_header rp with
              | Some header_msgstr_bytes =>
                  _detect_charset_from_header
                    (decode_utf8_replace header_msgstr_bytes)
              | None => str_of "utf-8"
              end).
  intros hc. induction rp as [|p rp IH]; cbn [map]; constructor.
  - split; [apply key_string_of_strings|apply val_string_of_strings].
  - exact IH.
Qed.

End ReadMoEntries.

(** ** What [write_mo] stores *)

Section WriteMoStores.
Context {CD : Codecs}.

Lemma fill_by_key_get charset es : forall d by_key,
  fill_by_key charset es d = Ok by_key ->
  forall k v,
    dict_get bytes_eqb k by_key = Some v
    <-> last_with_key charset es k v
        \/ (dict_get bytes_eqb k d = Some v
            /\ Forall (other_key charset k) es).
Proof.
  induction es as [|e es IH]; intros d by_key; cbn [fill_by_key].
  - intros [= <-] k v. split.
    + intros H. right. split; [assumption|constructor].
    + intros [(l1 & e & l2 & H & _)|[H _]]; [|assumption].
      now destruct l1.
  - destruct (enc charset (key_string e)) as [k0|] eqn:Ek; [|discriminate].
    destruct (enc charset (val_string e)) as [v0|] eqn:Ev; [|discriminate].
    cbn [bind]. intros Hf k v. rewrite (IH _ _ Hf k v). split.
    + intros [(l1 & e' & l2 & -> & Hk & Hv & Hl2)|[Hd Hes]].
      * left. exists (e :: l1), e', l2. repeat split; assumption.
      * destruct (bytes_eqb k k0) eqn:E.
        -- apply bytes_eqb_eq in E. subst k0.
           rewrite (dict_get_set_same _ bytes_eqb_eq) in Hd.
           injection Hd as <-. left. exists [], e, es.
           repeat split; assumption.
        -- assert (Hne : k <> k0).
           { intros ->. rewrite (eqb_refl_true _ bytes_eqb_eq) in E.
             discriminate. }
           rewrite (dict_get_set_other _ bytes_eqb_eq) in Hd by assumption.
           right. split; [assumption|]. constructor; [|assumption].
           unfold other_key. rewrite Ek. congruence.
    + intros [(l1 & e' & l2 & Hsplit & Hk & Hv & Hl2)|[Hd Hes]].
      * destruct l1 as [|x l1]; cbn [app] in Hsplit;
          injection Hsplit as <- ->.
        -- right. split; [|assumption].
           rewrite Ek in Hk. rewrite Ev in Hv.
           injection Hk as <-. injection Hv as <-.
           apply (dict_get_set_same _ bytes_eqb_eq).
        -- left. exists l1, e', l2. repeat split; assumption.
      * inversion Hes as [|? ? Hoe Hrest]; subst. right.
        split; [|assumption].
        rewrite (dict_get_set_other _ bytes_eqb_eq); [assumption|].
        intros ->. now apply Hoe.
Qed.

(** The file [write_mo] writes holds each encoded key once, with the
    encoded value of the last entry that has the key: of two entries
    with the same key the later one is stored. *)
Theorem write_mo_stores (entries : list (PoEntry str)) (charset : str)
  (out : bytes) :
  write_mo entries charset = Ok out ->
  exists raw_pairs,
    read_raw_pairs out = Ok raw_pairs
    /\ NoDup (map fst raw_pairs)
    /\ forall k v,
         In (k, v) raw_pairs
         <-> last_with_key charset (with_header entries) k v.
Proof.
  unfold write_mo.
  destruct (fill_by_key charset (with_header entries) []) as [by_key|] eqn:Ef;
    cbn [bind]; [|discriminate].
  intros Hw.
  destruct (write_mo_bytes_read_back _ Hw)
    as (offs_o & offs_t & Hh & Ho & Ht & _ & _ & _ & Hraw).
  set (keys := sorted (dict_keys by_key)) in *.
  exists (combine keys (map (by_key_get by_key) keys)).
  assert (Hnd : NoDup (dict_keys by_key)).
  { eapply fill_by_key_NoDup; [|exact Ef]. constructor. }
  split; [|split].
  - unfold read_raw_pairs. rewrite Hh. cbn [bind]. rewrite Ho. cbn [bind].
    rewrite Ht. cbn [bind]. now rewrite Hraw.
  - rewrite combine_map_fst.
    eapply Permutation_NoDup; [apply sorted_perm|assumption].
  - intros k v. rewrite combine_map_r, in_map_iff. split.
    + intros (k' & Heq & Hin). injection Heq as -> <-.
      apply (Permutation_in _ (Permutation_sym (sorted_perm _))) in Hin.
      apply (dict_get_keys _ bytes_eqb_eq) in Hin as [v Hv].
      unfold by_key_get. rewrite Hv.
      apply (@fill_by_key_get _ _ _ _ Ef k v) in Hv as [Hv|[Hv _]];
        [assumption|discriminate].
    + intros Hl.
      assert (Hv : dict_get bytes_eqb k by_key = Some v).
      { apply (@fill_by_key_get _ _ _ _ Ef k v). now left. }
      exists k. split.
      * unfold by_key_get. now rewrite Hv.
      * apply (Permutation_in _ (sorted_perm _)).
        apply (dict_get_keys _ bytes_eqb_eq). eauto.
Qed.

End WriteMoStores.

Local Open Scope N_scope.

(** * More on the report *)

(** ** The pairs reported *)

Lemma str_eqb_false_ne (a : str) : str_eqb a [] = false -> a <> [].
Proof. intros E Hm. rewrite Hm in E. discriminate. Qed.

Lemma en_by_key_no_header (ens : list (PoEntry str)) k en :
  dict_get entry_key_eqb k (en_by_key ens) = Some en -> msgid en <> [].
Proof.
  unfold en_by_key.
  assert (H : forall (l : list (PoEntry str)) d0,
    (forall k v, dict_get entry_key_eqb k d0 = Some v -> msgid v <> []) ->
    forall k v,
      dict_get entry_key_eqb k
        (fold_left (fun d (e : PoEntry str) =>
                      if str_eqb (msgid e) [] then d
                      else dict_set entry_key_eqb (_entry_key e) e d)
                   l d0) = Some v ->
      msgid v <> []).
  { induction l as [|e l IH]; intros d0 Hd k0 v Hget; cbn in Hget.
    - now apply (Hd k0).
    - eapply IH; [|exact Hget].
      intros k1 v1 H1. destruct (str_eqb (msgid e) []) eqn:E.
      + now apply (Hd k1).
      + destruct (entry_key_eqb k1 (_entry_key e)) eqn:Ek.
        * apply entry_key_eqb_eq in Ek; subst k1.
          rewrite (dict_get_set_same _ entry_key_eqb_eq) in H1.
          injection H1 as H1. subst v1. exact (str_eqb_false_ne E).
        * rewrite (dict_get_set_other _ entry_key_eqb_eq) in H1.
          2:{ intros ->. rewrite (eqb_refl_true _ entry_key_eqb_eq) in Ek.
              discriminate. }
          now apply (Hd k1). }
  apply (H ens []). intros k0 v0 H0. discriminate.
Qed.

(** The report follows the target catalog: the target entries of the
    pairs reported are, in order, the entries of the target that the
    loop selects.  A pair is only made of a target entry that is not a
    header and a reference entry, not a header either, with the same
    key, which [_is_missing_translation] accepts. *)
Theorem missing_pairs_sound (en_entries pt_entries : list (PoEntry str)) :
  map snd (missing_pairs en_entries pt_entries)
  = filter (reported en_entries) pt_entries
  /\ forall en_entry pt_entry,
       In (en_entry, pt_entry) (missing_pairs en_entries pt_entries) ->
       In pt_entry pt_entries /\ In en_entry en_entries
       /\ msgid pt_entry <> [] /\ msgid en_entry <> []
       /\ _entry_key en_entry = _entry_key pt_entry
       /\ _is_missing_translation en_entry pt_entry = true.
Proof.
  split.
  - unfold missing_pairs. induction pt_entries as [|pt pts IH];
      [reflexivity|].
    cbn [flat_map filter]. rewrite map_app, IH. unfold reported, is_header.
    destruct (str_eqb (msgid pt) []); [reflexivity|]. cbn [negb andb].
    destruct (dict_get entry_key_eqb (_entry_key pt) (en_by_key en_entries))
      as [en|]; [|reflexivity].
    destruct (_is_missing_translation en pt); reflexivity.
  - intros en pt Hin. unfold missing_pairs in Hin.
    apply in_flat_map in Hin as [pt' [Hpt Hp]].
    destruct (str_eqb (msgid pt') []) eqn:E; [destruct Hp|].
    destruct (dict_get entry_key_eqb (_entry_key pt') (en_by_key en_entries))
      as [en'|] eqn:Eg; [|destruct Hp].
    destruct (_is_missing_translation en' pt') eqn:Em; [|destruct Hp].
    destruct Hp as [[= -> ->]|[]].
    destruct (en_by_key_get_In _ _ Eg) as [Hen Hk].
    repeat split; try assumption.
    + exact (str_eqb_false_ne E).
    + now apply en_by_key_no_header in Eg.
Qed.

Lemma NoDup_map_inj {A B} (f : A -> B) l a b :
  NoDup (map f l) -> In a l -> In b l -> f a = f b -> a = b.
Proof.
  induction l as [|x l IH]; cbn [map]; [intros _ []|].
  intros Hnd [->|Ha] [->|Hb] Hf.
  - reflexivity.
  - inversion Hnd as [|? ? Hx _]; subst. exfalso. apply Hx.
    rewrite Hf. now apply in_map.
  - inversion Hnd as [|? ? Hx _]; subst. exfalso. apply Hx.
    rewrite <- Hf. now apply in_map.
  - inversion Hnd; subst. now apply IH.
Qed.

Lemma _is_missing_translation_refl (e : PoEntry str) :
  msgid e <> [] -> _is_missing_translation e e = true.
Proof.
  intros H. apply (_is_missing_translation_spec e e H). now right.
Qed.

(** A catalog compared with itself: when the entries that are not
    headers have distinct keys, every one of them is reported, in
    order, paired with itself. *)
Theorem missing_pairs_of_copy (C : list (PoEntry str)) :
  NoDup (map _entry_key (filter (fun e => negb (is_header e)) C)) ->
  missing_pairs C C
  = map (fun e => (e, e)) (filter (fun e => negb (is_header e)) C).
Proof.
  intros Hnd. unfold missing_pairs.
  assert (H : forall l, incl l C ->
    flat_map
      (fun pt_entry : PoEntry str =>
         if str_eqb (msgid pt_entry) [] then []
         else match dict_get entry_key_eqb (_entry_key pt_entry)
                             (en_by_key C) with
              | None => []
              | Some en_entry =>
                  if _is_missing_translation en_entry pt_entry
                  then [(en_entry, pt_entry)] else []
              end) l
    = map (fun e => (e, e)) (filter (fun e => negb (is_header e)) l)).
  { induction l as [|pt l IH]; intros Hincl; [reflexivity|].
    cbn [flat_map filter]. unfold is_header at 1.
    assert (Hpt : In pt C) by (apply Hincl; now left).
    rewrite IH by (intros x Hx; apply Hincl; now right).
    destruct (str_eqb (msgid pt) []) eqn:E; [reflexivity|]. cbn [negb map].
    assert (Hne : msgid pt <> []) by exact (str_eqb_false_ne E).
    destruct (en_by_key_get_some _ _ Hpt Hne) as [en Hget].
    rewrite Hget.
    destruct (en_by_key_get_In _ _ Hget) as [Hen Hk].
    pose proof (en_by_key_no_header _ _ Hget) as Hen_ne.
    assert (Heq : en = pt).
    { apply (NoDup_map_inj _ _ _ _ Hnd); [| |assumption];
        apply filter_In; (split; [assumption|]); unfold is_header.
      - destruct (str_eqb (msgid en) []) eqn:E'; [|reflexivity].
        apply str_eqb_eq in E'. contradiction.
      - now rewrite E. }
    subst en. now rewrite (@_is_missing_translation_refl pt Hne). }
  apply H. apply incl_refl.
Qed.

(** ** Trailing empty translations *)

Lemma pad_more n m l :
  (List.length l <= n)%nat -> (n <= m)%nat ->
  pad m l = pad n l ++ repeat [] (m - n).
Proof.
  intros Hl Hn. unfold pad. rewrite <- app_assoc, <- repeat_app.
  do 2 f_equal. lia.
Qed.

Lemma pad_eq_more n m (a b : list str) :
  (List.length a <= n)%nat -> (List.length b <= n)%nat -> (n <= m)%nat ->
  pad m a = pad m b <-> pad n a = pad n b.
Proof.
  intros Ha Hb Hn. rewrite (@pad_more n m a Ha Hn), (@pad_more n m b Hb Hn).
  split.
  - apply app_inv_tail.
  - now intros ->.
Qed.

Lemma pad_snoc m (l : list str) :
  (List.length l < m)%nat -> pad m (l ++ [[]]) = pad m l.
Proof.
  intros H. unfold pad. rewrite <- app_assoc, length_app. cbn [List.length].
  f_equal. change ([[]] ++ repeat [] (m - (List.length l + 1)))
    with (repeat (@nil N) 1 ++ repeat [] (m - (List.length l + 1))).
  rewrite <- repeat_app. f_equal. lia.
Qed.

Lemma blank_snoc (l : list str) : Forall blank (l ++ [[]]) <-> Forall blank l.
Proof.
  rewrite Forall_app. split; [tauto|]. intros H. split; [assumption|].
  constructor; [reflexivity|constructor].
Qed.

Lemma bool_eq_iff (a b : bool) : (a = true <-> b = true) -> a = b.
Proof.
  destruct a, b; intros [H1 H2]; try reflexivity;
    [symmetry; now apply H1|now apply H2].
Qed.

(** A trailing empty translation, in the reference entry or in the
    target entry, never changes the verdict of
    [_is_missing_translation]. *)
Theorem is_missing_trailing_empty (en_entry pt_entry : PoEntry str) :
  _is_missing_translation (with_empty_translation en_entry) pt_entry
  = _is_missing_translation en_entry pt_entry
  /\ _is_missing_translation en_entry (with_empty_translation pt_entry)
     = _is_missing_translation en_entry pt_entry.
Proof.
  destruct (str_eqb (msgid pt_entry) []) eqn:E.
  { unfold _is_missing_translation, with_empty_translation. cbn [msgid].
    rewrite E. split; reflexivity. }
  assert (Hne : msgid pt_entry <> []) by exact (str_eqb_false_ne E).
  set (a := msgstr en_entry). set (b := msgstr pt_entry).
  set (n := Nat.max (List.length a) (List.length b)).
  split; apply bool_eq_iff.
  - rewrite (_is_missing_translation_spec (with_empty_translation en_entry)
                                          pt_entry Hne).
    rewrite (_is_missing_translation_spec en_entry pt_entry Hne).
    cbn [with_empty_translation msgstr]. fold a b.
    rewrite length_app. cbn [List.length]. fold n.
    set (m := Nat.max (List.length a + 1) (List.length b)).
    rewrite (@pad_snoc m a) by (unfold m; lia).
    rewrite (@pad_eq_more n m b a) by (unfold n, m; lia).
    reflexivity.
  - assert (Hne' : msgid (with_empty_translation pt_entry) <> []) by exact Hne.
    rewrite (_is_missing_translation_spec en_entry
               (with_empty_translation pt_entry) Hne').
    rewrite (_is_missing_translation_spec en_entry pt_entry Hne).
    cbn [with_empty_translation msgstr]. fold a b.
    rewrite length_app. cbn [List.length]. fold n.
    set (m := Nat.max (List.length a) (List.length b + 1)).
    rewrite (@pad_snoc m b) by (unfold m; lia).
    rewrite (@pad_eq_more n m b a) by (unfold n, m; lia).
    now rewrite blank_snoc.
Qed.

(** ** The text of the report *)

Lemma join_first (sep x : str) l : exists t, join sep (x :: l) = x ++ t.
Proof.
  destruct l as [|y l]; [exists []; cbn; now rewrite app_nil_r|].
  now exists (sep ++ join sep (y :: l)).
Qed.

Lemma _format_missing_start (en pt : PoEntry str) :
  exists t, _format_missing en pt = str_of "msgid: " ++ msgid en ++ t.
Proof.
  unfold _format_missing.
  match goal with
  | |- exists t, join _ ?L = _ =>
      assert (H : exists l, L = (str_of "msgid: " ++ msgid en) :: l)
  end.
  { destruct (msgctxt en), (msgid_plural en); cbn [app]; eauto. }
  destruct H as [l ->].
  destruct (join_first [LF] (str_of "msgid: " ++ msgid en) l) as [t Ht].
  exists t. etransitivity; [exact Ht|]. now rewrite <- app_assoc.
Qed.

(** The text written is empty exactly when [missing_count] is 0;
    otherwise it starts with the [msgid] line of the first pair
    reported and ends with a newline.  [missing_count] is the number of
    pairs reported. *)
Theorem report_text (en_entries pt_entries : list (PoEntry str)) :
  let '(text, missing_count) := report en_entries pt_entries in
  missing_count = List.length (missing_pairs en_entries pt_entries)
  /\ (text = [] <-> missing_count = 0%nat)
  /\ forall en_entry pt_entry rest,
       missing_pairs en_entries pt_entries = (en_entry, pt_entry) :: rest ->
       exists t, text = str_of "msgid: " ++ msgid en_entry ++ t ++ [LF].
Proof.
  unfold report. split; [reflexivity|].
  destruct (missing_pairs en_entries pt_entries) as [|[en pt] rest].
  - cbn. split; [tauto|]. intros ? ? ? H. discriminate.
  - cbn [map fst snd List.length].
    destruct (_format_missing_start en pt) as [t Ht].
    destruct (join_first [LF; LF] (_format_missing en pt)
                (map (fun p : PoEntry str * PoEntry str =>
                        _format_missing (fst p) (snd p)) rest)) as [t' Ht'].
    assert (Htext : join [LF; LF]
                      (_format_missing en pt
                       :: map (fun p : PoEntry str * PoEntry str =>
                                 _format_missing (fst p) (snd p)) rest)
                    ++ [LF]
                    = str_of "msgid: " ++ msgid en ++ (t ++ t') ++ [LF]).
    { etransitivity; [apply (f_equal (fun x => x ++ [LF]) Ht')|].
      rewrite Ht. now rewrite <- !app_assoc. }
    split.
    + split; [|discriminate]. intros H.
      apply (f_equal (@List.length N)) in H. rewrite Htext in H.
      cbn in H. discriminate.
    + intros en0 pt0 rest0 [= <- <- <-]. exists (t ++ t'). exact Htext.
Qed.

Local Open Scope N_scope.

(** * The order of the entries and the commands *)

(** ** [write_mo] and the order of the entries *)

Lemma sorted_unique l : forall l',
  StronglySorted bytes_le l -> StronglySorted bytes_le l' ->
  Permutation l l' -> l = l'.
Proof.
  induction l as [|x l IH]; intros l' Hs Hs' Hp.
  - apply Permutation_nil in Hp. now subst.
  - destruct l' as [|y l'].
    { apply Permutation_sym, Permutation_nil in Hp. discriminate. }
    apply StronglySorted_inv in Hs as [Hs Hx].
    apply StronglySorted_inv in Hs' as [Hs' Hy].
    assert (Hxy : x = y).
    { assert (Hin1 : In x (y :: l')).
      { apply (Permutation_in _ Hp). now left. }
      assert (Hin2 : In y (x :: l)).
      { apply (Permutation_in _ (Permutation_sym Hp)). now left. }
      destruct Hin1 as [->|Hin1]; [reflexivity|].
      destruct Hin2 as [->|Hin2]; [reflexivity|].
      rewrite Forall_forall in Hx, Hy.
      apply bytes_leb_antisym; [now apply Hx|now apply Hy]. }
    subst y. f_equal. apply IH; try assumption.
    now apply Permutation_cons_inv in Hp.
Qed.

Lemma sorted_perm_eq l l' : Permutation l l' -> sorted l = sorted l'.
Proof.
  intros Hp. apply sorted_unique; try apply sorted_sorted.
  eapply Permutation_trans; [apply Permutation_sym, sorted_perm|].
  eapply Permutation_trans; [exact Hp|apply sorted_perm].
Qed.

Lemma has_header_perm (a b : list (PoEntry str)) :
  Permutation a b -> has_header a = has_header b.
Proof.
  intros Hp. unfold has_header.
  destruct (existsb (fun e => str_eqb (msgid e) []) a) eqn:Ea;
    destruct (existsb (fun e => str_eqb (msgid e) []) b) eqn:Eb;
    try reflexivity.
  - apply existsb_exists in Ea as [x [Hx Hm]].
    assert (Hb : existsb (fun e : PoEntry str => str_eqb (msgid e) []) b
                 = true).
    { apply existsb_exists. exists x. split; [|assumption].
      now apply (Permutation_in _ Hp). }
    congruence.
  - apply existsb_exists in Eb as [x [Hx Hm]].
    assert (Ha : existsb (fun e : PoEntry str => str_eqb (msgid e) []) a
                 = true).
    { apply existsb_exists. exists x. split; [|assumption].
      now apply (Permutation_in _ (Permutation_sym Hp)). }
    congruence.
Qed.

Lemma with_header_perm (a b : list (PoEntry str)) :
  Permutation a b -> Permutation (with_header a) (with_header b).
Proof.
  intros Hp. unfold with_header. rewrite (has_header_perm Hp).
  destruct (has_header b); [assumption|now constructor].
Qed.

Section WriteMoOrder.
Context {CD : Codecs}.

Lemma enc_raise charset s e : enc charset s = Raise e -> e = UnicodeEncodeError.
Proof.
  unfold enc. destruct (str_encode charset s); [discriminate|].
  destruct (str_encode (str_of "utf-8") s); [discriminate|].
  now intros [= <-].
Qed.

Lemma fill_by_key_outcome charset es : forall d,
  match fill_by_key charset es d with
  | Ok _ => Forall (encodable charset) es
  | Raise e => e = UnicodeEncodeError /\ ~ Forall (encodable charset) es
  end.
Proof.
  induction es as [|e es IH]; intros d; cbn [fill_by_key]; [constructor|].
  destruct (enc charset (key_string e)) as [k|x] eqn:Ek; cbn [bind].
  2:{ split; [now apply enc_raise in Ek|]. intros H. inversion H as [|? ? He _].
      destruct He as [[k Hk] _]. congruence. }
  destruct (enc charset (val_string e)) as [v|x] eqn:Ev; cbn [bind].
  2:{ split; [now apply enc_raise in Ev|]. intros H. inversion H as [|? ? He _].
      destruct He as [_ [v Hv]]. congruence. }
  specialize (IH (dict_set bytes_eqb k v d)).
  destruct (fill_by_key charset es (dict_set bytes_eqb k v d)).
  - constructor; [|assumption]. split; eauto.
  - destruct IH as [-> Hn]. split; [reflexivity|].
    intros H. inversion H. contradiction.
Qed.

Lemma key_dec charset k (e : PoEntry str) :
  {enc charset (key_string e) = Ok k} + {other_key charset k e}.
Proof.
  unfold other_key. destruct (enc charset (key_string e)) as [k'|x].
  - destruct (bytes_eqb k' k) eqn:E.
    + left. apply bytes_eqb_eq in E. now subst.
    + right. intros [= ->].
      rewrite (proj2 (bytes_eqb_eq k k) eq_refl) in E. discriminate.
  - right. discriminate.
Qed.

Lemma last_split charset k (es : list (PoEntry str)) :
  (exists e, In e es /\ enc charset (key_string e) = Ok k) ->
  exists l1 e l2,
    es = l1 ++ e :: l2 /\ enc charset (key_string e) = Ok k
    /\ Forall (other_key charset k) l2.
Proof.
  induction es as [|x es IH]; intros [e [Hin Hk]]; [destruct Hin|].
  destruct (Exists_dec (fun e => enc charset (key_string e) = Ok k) es)
    as [Hex|Hno].
  { intros y. destruct (key_dec charset k y); [now left|now right]. }
  - apply Exists_exists in Hex.
    destruct (IH Hex) as (l1 & e' & l2 & -> & H1 & H2).
    exists (x :: l1), e', l2. repeat split; assumption.
  - destruct Hin as [->|Hin].
    + exists [], e, es. repeat split; try assumption.
      apply Forall_forall. intros y Hy Hky. apply Hno.
      apply Exists_exists. eauto.
    + exfalso. apply Hno. apply Exists_exists. eauto.
Qed.

(** Two catalogs with the same entries in another order are written as
    the same file, or both are refused, when no two different entries
    have the same encoded key. *)
Theorem write_mo_order_independent (entries entries' : list (PoEntry str))
  (charset : str) :
  Permutation entries entries' ->
  (forall e1 e2 k,
     In e1 (with_header entries) -> In e2 (with_header entries) ->
     enc charset (key_string e1) = Ok k ->
     enc charset (key_string e2) = Ok k -> e1 = e2) ->
  write_mo entries charset = write_mo entries' charset.
Proof.
  intros Hp Huniq. unfold write_mo.
  pose proof (with_header_perm Hp) as HP.
  set (E := with_header entries) in *. set (E' := with_header entries') in *.
  pose proof (fill_by_key_outcome charset E []) as H1.
  pose proof (fill_by_key_outcome charset E' []) as H2.
  destruct (fill_by_key charset E []) as [bk|x] eqn:F1;
    destruct (fill_by_key charset E' []) as [bk'|x'] eqn:F2; cbn [bind].
  - assert (Hget : forall k, dict_get bytes_eqb k bk
                             = dict_get bytes_eqb k bk').
    { assert (Hchar : forall (L : list (PoEntry str)) b,
                Permutation E L -> fill_by_key charset L [] = Ok b ->
                forall k v,
                  dict_get bytes_eqb k b = Some v
                  <-> exists e, In e E /\ enc charset (key_string e) = Ok k
                                /\ enc charset (val_string e) = Ok v).
      { intros L b HL Hf k v.
        rewrite (@fill_by_key_get _ _ _ _ _ Hf k v). split.
        - intros [(l1 & e & l2 & -> & Hk & Hv & _)|[Hd _]]; [|discriminate].
          exists e. split; [|now split].
          apply (Permutation_in _ (Permutation_sym HL)).
          apply in_or_app. right. now left.
        - intros (e & Hin & Hk & Hv). left.
          destruct (@last_split charset k L) as (l1 & e' & l2 & -> & Hk' & Hl2).
          { exists e. split; [|assumption]. now apply (Permutation_in _ HL). }
          exists l1, e', l2. repeat split; try assumption.
          assert (He : e' = e).
          { apply (Huniq e' e k); try assumption.
            apply (Permutation_in _ (Permutation_sym HL)).
            apply in_or_app. right. now left. }
          now subst e'. }
      intros k.
      pose proof (Hchar E bk (Permutation_refl _) F1 k) as A.
      pose proof (Hchar E' bk' HP F2 k) as B.
      destruct (dict_get bytes_eqb k bk) as [v|] eqn:G1;
        destruct (dict_get bytes_eqb k bk') as [v'|] eqn:G2.
      - f_equal. assert (Hv : Some v' = Some v).
        { apply B. apply A. reflexivity. }
        now injection Hv as <-.
      - assert (Hv : None = Some v) by (apply B; apply A; reflexivity).
        discriminate.
      - assert (Hv : None = Some v') by (apply A; apply B; reflexivity).
        discriminate.
      - reflexivity. }
    assert (Hkeys : sorted (dict_keys bk) = sorted (dict_keys bk')).
    { apply sorted_perm_eq. apply NoDup_Permutation.
      - eapply fill_by_key_NoDup; [|exact F1]. constructor.
      - eapply fill_by_key_NoDup; [|exact F2]. constructor.
      - intros k. rewrite !(dict_get_keys _ bytes_eqb_eq).
        now rewrite Hget. }
    unfold write_mo_bytes. rewrite <- Hkeys.
    assert (Hvals : map (by_key_get bk') (sorted (dict_keys bk))
                    = map (by_key_get bk) (sorted (dict_keys bk))).
    { apply map_ext. intros k. unfold by_key_get. now rewrite Hget. }
    now rewrite Hvals.
  - exfalso. destruct H2 as [_ H2]. apply H2.
    apply Forall_forall. intros e He. rewrite Forall_forall in H1.
    apply H1. now apply (Permutation_in _ (Permutation_sym HP)).
  - exfalso. destruct H1 as [_ H1]. apply H1.
    apply Forall_forall. intros e He. rewrite Forall_forall in H2.
    apply H2. now apply (Permutation_in _ HP).
  - destruct H1 as [-> _]. destruct H2 as [-> _]. reflexivity.
Qed.

Lemma pack_I_raise v e : pack_I v = Raise e -> e = struct_error.
Proof.
  unfold pack_I. destruct ((0 <=? v)%Z && (v <? 4294967296)%Z);
    [discriminate|]. now intros [= <-].
Qed.

Lemma pack_II_raise l o e : pack_II l o = Raise e -> e = struct_error.
Proof.
  unfold pack_II. destruct (pack_I l) as [a|x] eqn:Ea; cbn [bind].
  - destruct (pack_I o) as [b|y] eqn:Eb; cbn [bind]; [discriminate|].
    intros [= <-]. now apply pack_I_raise in Eb.
  - intros [= <-]. now apply pack_I_raise in Ea.
Qed.

Lemma pack_table_raise offs e : pack_table offs = Raise e -> e = struct_error.
Proof.
  induction offs as [|[l o] offs IH]; cbn [pack_table]; [discriminate|].
  destruct (pack_II l o) as [b|x] eqn:Eb; cbn [bind].
  - destruct (pack_table offs) as [bs|y]; cbn [bind]; [discriminate|].
    intros [= <-]. now apply IH.
  - intros [= <-]. now apply pack_II_raise in Eb.
Qed.

Lemma write_mo_bytes_raise by_key e :
  write_mo_bytes by_key = Raise e -> e = struct_error.
Proof.
  unfold write_mo_bytes.
  repeat match goal with
         | |- bind (pack_I ?v) _ = _ -> _ =>
             let E := fresh "E" in
             destruct (pack_I v) eqn:E; cbn [bind];
             [|intros [= <-]; now apply pack_I_raise in E]
         | |- bind (pack_table ?v) _ = _ -> _ =>
             let E := fresh "E" in
             destruct (pack_table v) eqn:E; cbn [bind];
             [|intros [= <-]; now apply pack_table_raise in E]
         end.
  discriminate.
Qed.

(** [write_mo] raises nothing but [UnicodeEncodeError] and
    [struct.error], and it raises [UnicodeEncodeError] exactly when a
    key or value string of an entry, the header it adds included, can
    be encoded neither under the charset nor under utf-8. *)
Theorem write_mo_errors (entries : list (PoEntry str)) (charset : str) :
  (write_mo entries charset = Raise UnicodeEncodeError
   <-> ~ Forall (encodable charset) (with_header entries))
  /\ forall e, write_mo entries charset = Raise e ->
               e = UnicodeEncodeError \/ e = struct_error.
Proof.
  unfold write_mo.
  pose proof (fill_by_key_outcome charset (with_header entries) []) as H.
  destruct (fill_by_key charset (with_header entries) []) as [bk|x];
    cbn [bind].
  - split.
    + split.
      * intros Hr. apply write_mo_bytes_raise in Hr. discriminate.
      * intros Hn. now elim Hn.
    + intros e Hr. right. now apply write_mo_bytes_raise in Hr.
  - destruct H as [-> Hn]. split.
    + split; [intros _; exact Hn|reflexivity].
    + intros e [= <-]. now left.
Qed.

End WriteMoOrder.

(** ** The commands *)

Lemma all_as_str_map l : all_as_str (map VStr l) = Some l.
Proof.
  induction l as [|s l IH]; [reflexivity|]. cbn. now rewrite IH.
Qed.

Lemma entry_as_str_map (e : PoEntry str) :
  entry_as_str (entry_map VStr e) = Some e.
Proof.
  destruct e as [c i p m]. unfold entry_as_str, entry_map.
  cbn [msgctxt msgid msgid_plural msgstr]. rewrite all_as_str_map.
  now destruct c, p.
Qed.

Lemma entries_as_str_map (C : list (PoEntry str)) :
  entries_as_str (map (entry_map VStr) C) = Some C.
Proof.
  induction C as [|e C IH]; [reflexivity|].
  cbn [map entries_as_str]. now rewrite entry_as_str_map, IH.
Qed.

Section Commands.
Context {LE : LiteralEval} {UD : UnicodeDigits} {CD : Codecs}.

Lemma main_to_mo_written (po : bytes) (C : list (PoEntry str)) :
  decode_utf8_replace po = write_po C ->
  Forall po_strs C ->
  main_to_mo po
  = Some (write_mo (map written_entry C)
                   (po_charset (map (entry_map VStr) (map written_entry C)))).
Proof.
  intros Hdec Hstr. unfold main_to_mo, read_text.
  rewrite Hdec, write_po_universal.
  pose proof (read_po_written Hstr) as Hpo. cbv zeta in Hpo.
  rewrite Hpo. now rewrite entries_as_str_map.
Qed.

(** [to-po] and then [to-mo]: when [to-po] has written a file, and the
    UTF-8 decoder reads back the text that was encoded into it, then
    [read_mo] returned entries for the first command, and if their
    strings hold no NUL, no surrogate and no line boundary beside
    newline and carriage return, [to-mo] hands to [write_mo] these
    entries, those without [msgid_plural] with their first translation
    only, and the charset the resolver reads in them. *)
Theorem to_po_then_to_mo (input_mo po : bytes) :
  main_to_po input_mo = Ok po ->
  (forall text, write_text text = Ok po -> decode_utf8_replace po = text) ->
  exists charset es,
    read_mo input_mo = Ok (charset, es)
    /\ (Forall po_strs es ->
        main_to_mo po
        = Some (write_mo (map written_entry es)
                         (po_charset (map (entry_map VStr)
                                          (map written_entry es))))).
Proof.
  unfold main_to_po. intros Hw Hdec.
  destruct (read_mo input_mo) as [[charset es]|] eqn:Er; [|discriminate].
  cbn [bind] in Hw. exists charset, es. split; [reflexivity|].
  intros Hstr. apply main_to_mo_written; [|assumption]. now apply Hdec.
Qed.

End Commands.

Local Open Scope N_scope.

(** * When [read_po] returns *)

Section ReadPoReturns.
Context {LE : LiteralEval} {UD : UnicodeDigits}.

Lemma span_digits_skipn s : forall ds r,
  span_digits s = (ds, r) -> exists n, r = skipn n s.
Proof.
  induction s as [|c s IH]; intros ds r; cbn [span_digits].
  - intros [= <- <-]. now exists 0%nat.
  - destruct (decimal_value c) as [d|].
    + destruct (span_digits s) as [ds' r'] eqn:E. intros [= <- <-].
      destruct (IH ds' r' eq_refl) as [n ->]. now exists (S n).
    + intros [= <- <-]. now exists 0%nat.
Qed.

Lemma match_msgstr_index_skipn line ds rest :
  match_msgstr_index line = Some (ds, rest) -> exists n, rest = skipn n line.
Proof.
  unfold match_msgstr_index.
  destruct (startswith line (str_of "msgstr[")); [|discriminate].
  destruct (span_digits (skipn 7 line)) as [[|d ds'] [|c r]] eqn:E;
    try discriminate.
  destruct (c =? 93); [|discriminate]. intros [= <- <-].
  destruct (span_digits_skipn _ E) as [n Hn].
  exists (1 + (n + 7))%nat.
  rewrite <- skipn_skipn, <- skipn_skipn, <- Hn. reflexivity.
Qed.

Lemma flush_str st :
  str_state st ->
  exists st', flush st = Ok st' /\ cur st' = None
              /\ Forall str_fields (entries st').
Proof.
  intros [Hc He]. unfold flush. destruct (cur st) as [c|] eqn:E.
  - pose proof (Hc c E) as Hf. destruct Hf as (_ & _ & _ & Hm).
    assert (Hes : Forall str_fields (entries st ++ [c])).
    { apply Forall_app. split; [assumption|].
      constructor; [now apply Hc|constructor]. }
    destruct (msgstr c) as [|first rest]; cbn [bind].
    + eexists. split; [reflexivity|]. split; [reflexivity|assumption].
    + inversion Hm as [|? ? [s ->] _]; subst.
      destruct (is_empty_str (msgid c)); cbn [detect_charset_dyn bind];
        eexists; (split; [reflexivity|]); split; try reflexivity; assumption.
  - exists st. repeat split; assumption.
Qed.

Lemma po_line_str st raw :
  literals_are_str raw -> str_state st ->
  exists st', po_line st raw = Ok st' /\ str_state st'.
Proof.
  intros Hraw [H He]. pose proof (cur_or_new_str H) as (Hc & Hi & Hp & Hm).
  unfold po_line. destruct (strip raw) as [|ch l] eqn:E.
  { destruct (flush_str (conj H He)) as [st' (-> & Hcur & Hes)]. cbn [bind].
    eexists. split; [reflexivity|]. split; [|exact Hes].
    intros c. cbn [cur]. rewrite Hcur. discriminate. }
  assert (Hskip : forall n,
            is_str (_parse_po_string_literal (strip (skipn n (ch :: l))))).
  { intros n. rewrite <- E. apply Hraw. }
  assert (Hline : is_str (_parse_po_string_literal (ch :: l))).
  { rewrite <- E. apply (Hraw 0%nat). }
  destruct (startswith (ch :: l) (str_of "#")).
  { exists st. split; [reflexivity|now split]. }
  destruct (startswith (ch :: l) (str_of "msgctxt")).
  { eexists. split; [reflexivity|]. split; [|exact He]. intros c [= <-].
    repeat split; cbn [msgctxt msgid msgid_plural msgstr]; try assumption.
    intros v [= <-]. exact (Hskip 7%nat). }
  destruct (startswith (ch :: l) (str_of "msgid_plural")).
  { eexists. split; [reflexivity|]. split; [|exact He]. intros c [= <-].
    repeat split; cbn [msgctxt msgid msgid_plural msgstr]; try assumption.
    intros v [= <-]. exact (Hskip 12%nat). }
  destruct (startswith (ch :: l) (str_of "msgid")).
  { eexists. split; [reflexivity|]. split; [|exact He]. intros c [= <-].
    repeat split; cbn [msgctxt msgid msgid_plural msgstr]; try assumption.
    exact (Hskip 5%nat). }
  destruct (match_msgstr_index (ch :: l)) as [[ds rest]|] eqn:Em.
  { destruct (match_msgstr_index_skipn _ Em) as [n ->].
    eexists. split; [reflexivity|]. split; [|exact He]. intros c [= <-].
    repeat split; cbn [msgctxt msgid msgid_plural msgstr]; try assumption.
    apply list_set_is_str; [apply Hskip|now apply pad_to_is_str]. }
  destruct (startswith (ch :: l) (str_of "msgstr")).
  { eexists. split; [reflexivity|]. split; [|exact He]. intros c [= <-].
    repeat split; cbn [msgctxt msgid msgid_plural msgstr]; try assumption.
    destruct (msgstr (cur_or_new st)) as [|x xs].
    - constructor; [exact (Hskip 6%nat)|constructor].
    - inversion Hm; subst. constructor; [exact (Hskip 6%nat)|assumption]. }
  destruct (startswith (ch :: l) [DQ]);
    [|exists st; split; [reflexivity|now split]].
  destruct (active_key st) as [k|];
    [|exists st; split; [reflexivity|now split]].
  destruct (cur st) as [c|] eqn:Ec;
    [|exists st; split; [reflexivity|now split]].
  destruct (@continuation_total c k (_parse_po_string_literal (ch :: l)))
    as [c' [-> Hc']]; [now apply H|exact Hline|].
  cbn [bind]. eexists. split; [reflexivity|]. split; [|exact He].
  now intros c0 [= <-].
Qed.

Lemma po_lines_str lines : forall st,
  Forall literals_are_str lines -> str_state st ->
  exists st', po_lines st lines = Ok st' /\ str_state st'.
Proof.
  induction lines as [|raw lines IH]; intros st Hl H; cbn [po_lines].
  - now exists st.
  - inversion Hl as [|? ? Hraw Hrest]; subst.
    destruct (po_line_str Hraw H) as [st' [-> H']]. cbn [bind].
    now apply IH.
Qed.

Lemma literals_are_str_blank : literals_are_str [].
Proof.
  intros n. change (strip []) with (@nil N).
  replace (skipn n (@nil N)) with (@nil N) by now destruct n.
  split; now exists [].
Qed.

Lemma is_strb_is_str v : is_strb v = true -> is_str v.
Proof. destruct v as [s|elts]; [now exists s|discriminate]. Qed.

Lemma literals_are_strb_sound raw :
  literals_are_strb raw = true -> literals_are_str raw.
Proof.
  unfold literals_are_strb. rewrite forallb_forall. intros H n.
  assert (Hn : exists m, In m (seq 0 (S (List.length (strip raw))))
                         /\ skipn n (strip raw) = skipn m (strip raw)).
  { destruct (Nat.le_gt_cases n (List.length (strip raw))) as [Hle|Hgt].
    - exists n. split; [apply in_seq; lia|reflexivity].
    - exists (List.length (strip raw)). split; [apply in_seq; lia|].
      rewrite !skipn_all2 by lia. reflexivity. }
  destruct Hn as (m & Hm & ->). apply H in Hm.
  apply andb_true_iff in Hm as [H1 H2].
  split; now apply is_strb_is_str.
Qed.

Lemma Forall_literals_are_strb lines :
  forallb (fun raw => literals_are_strb raw && index_within_limitb raw) lines
  = true ->
  Forall (fun raw => literals_are_str raw /\ index_within_limit raw) lines.
Proof.
  rewrite forallb_forall. intros H. apply Forall_forall. intros raw Hraw.
  apply H in Hraw. apply andb_true_iff in Hraw as [H1 H2]. split.
  - now apply literals_are_strb_sound.
  - unfold index_within_limit, index_within_limitb in *.
    destruct (match_msgstr_index (strip raw)) as [[ds rest]|]; [|exact I].
    now apply Nat.leb_le.
Qed.

(** [read_po] returns for every text in which no line holds a literal
    that evaluates to a tuple and no index is too long for [int], and
    then every field of every entry it returns is a [str]. *)
Theorem read_po_returns (text : str) :
  Forall (fun raw => literals_are_str raw /\ index_within_limit raw)
         (splitlines text) ->
  exists charset entries,
    read_po text = Ok (charset, entries)
    /\ Forall str_fields entries.
Proof.
  intros Hl0.
  assert (Hl : Forall literals_are_str (splitlines text)).
  { eapply Forall_impl; [|exact Hl0]. cbn. tauto. }
  clear Hl0. unfold read_po.
  destruct (@po_lines_str (splitlines text ++ [[]])
              (mkPoState [] None None (str_of "utf-8")))
    as [st' [-> [_ He]]].
  - apply Forall_app. split; [assumption|].
    constructor; [apply literals_are_str_blank|constructor].
  - split; [|constructor]. intros c. cbn. discriminate.
  - cbn [bind]. now eexists _, _.
Qed.

End ReadPoReturns.

Local Open Scope N_scope.

(** * The further properties on concrete inputs *)

Lemma Forall_of_forallb {A} (f : A -> bool) l :
  forallb f l = true -> Forall (fun x => f x = true) l.
Proof. intros H. apply Forall_forall. now apply forallb_forall. Qed.

(** The 7-bit UTF-8 decoder reads back what the 7-bit encoder wrote. *)
Lemma example_write_text_read_back text po :
  @write_text example_codecs text = Ok po ->
  @decode_utf8_replace example_codecs po = text.
Proof.
  unfold write_text. cbn [str_encode example_codecs].
  change (charset_known (str_of "utf-8")) with true. cbv iota.
  unfold ascii_encode.
  destruct (forallb (fun c => c <? 128) text) eqn:F; [|discriminate].
  intros [= <-]. cbn [decode_utf8_replace example_codecs].
  rewrite map_map. rewrite forallb_forall in F.
  induction text as [|c text IH]; [reflexivity|]. cbn [map].
  rewrite IH by (intros x Hx; apply F; now right). f_equal.
  assert (Hc : c < 128) by (apply N.ltb_lt, F; now left).
  assert (Hv : byte_val (byte_of_Z (Z.of_N c)) = Z.of_N c).
  { rewrite byte_val_of_Z. apply Z.mod_small. lia. }
  rewrite Hv. replace (Z.of_N c <? 128)%Z with true
    by (symmetry; apply Z.ltb_lt; lia).
  unfold byte_val in Hv. now apply N2Z.inj in Hv.
Qed.

Section MoreExamples.
#[local] Existing Instance example_literal_eval.
#[local] Existing Instance example_digits.
#[local] Existing Instance example_codecs.

(** ** Escaping and quoting *)

Lemma po_escape_injective_witness :
  _po_escape [BSL; LF; 97] = _po_escape [BSL; LF; 97]
  /\ [BSL; LF; 97] = [BSL; LF; 97].
Proof.
  exact (conj eq_refl
              (@po_escape_injective [BSL; LF; 97] [BSL; LF; 97] eq_refl)).
Defined.

Lemma two_lines_clean : clean two_lines.
Proof. apply Forall_clean_char. reflexivity. Defined.

Lemma po_quote_parse_witness :
  clean two_lines
  /\ exists ps,
       map _parse_po_string_literal (_po_quote two_lines) = map VStr ps
       /\ concat ps = two_lines.
Proof.
  exact (conj two_lines_clean
              (@po_quote_parse example_literal_eval two_lines
                               two_lines_clean)).
Defined.

(** ** The Charset Resolver *)

Lemma detect_charset_value_witness :
  ~ In 61 content_type_prefix
  /\ str_of "UTF-8" <> []
  /\ Forall (fun c => class_not_bsl_s_semi c = true) (str_of "UTF-8")
  /\ class_not_bsl_s_semi 59 = false
  /\ _detect_charset_from_header
       (content_type_prefix ++ str_of "charset=" ++ str_of "UTF-8"
        ++ str_of "; x")
     = strip_chars [DQ] (strip (str_of "UTF-8")).
Proof.
  assert (H1 : ~ In 61 content_type_prefix)
    by (apply not_In_mem; reflexivity).
  assert (H2 : str_of "UTF-8" <> []) by discriminate.
  assert (H3 : Forall (fun c => class_not_bsl_s_semi c = true)
                      (str_of "UTF-8"))
    by (apply Forall_of_forallb; reflexivity).
  assert (H4 : class_not_bsl_s_semi 59 = false) by reflexivity.
  exact (conj H1 (conj H2 (conj H3 (conj H4
           (@detect_charset_value content_type_prefix (str_of "UTF-8")
                                  (str_of "; x") H1 H2 H3 H4))))).
Defined.

Lemma no_charset_in_ab :
  forall pre post, str_of "ab" = pre ++ post ->
                   ci_prefix (str_of "charset=") post = None.
Proof.
  intros pre post E.
  destruct pre as [|a [|b [|c pre]]]; cbn in E; inversion E; subst;
    reflexivity.
Defined.

Lemma detect_charset_absent_witness :
  (forall pre post, str_of "ab" = pre ++ post ->
                    ci_prefix (str_of "charset=") post = None)
  /\ _detect_charset_from_header (str_of "ab") = str_of "utf-8".
Proof.
  exact (conj no_charset_in_ab
              (@detect_charset_absent (str_of "ab") no_charset_in_ab)).
Defined.

(** ** Reading a PO text *)

Lemma read_po_passes_over_witness :
  splitlines commented_text
  = [str_of "msgid " ++ quoted (str_of "a")] ++ str_of "# note"
    :: [quoted (str_of "b")]
  /\ splitlines uncommented_text
     = [str_of "msgid " ++ quoted (str_of "a")] ++ [quoted (str_of "b")]
  /\ passed_over (str_of "# note")
  /\ read_po commented_text = read_po uncommented_text.
Proof.
  assert (H1 : splitlines commented_text
               = [str_of "msgid " ++ quoted (str_of "a")] ++ str_of "# note"
                 :: [quoted (str_of "b")]) by reflexivity.
  assert (H2 : splitlines uncommented_text
               = [str_of "msgid " ++ quoted (str_of "a")]
                 ++ [quoted (str_of "b")]) by reflexivity.
  assert (H3 : passed_over (str_of "# note")) by (left; reflexivity).
  exact (conj H1 (conj H2 (conj H3
           (@read_po_passes_over example_literal_eval example_digits
              commented_text uncommented_text
              [str_of "msgid " ++ quoted (str_of "a")]
              [quoted (str_of "b")] (str_of "# note") H1 H2 H3)))).
Defined.

Lemma read_po_charset_witness :
  exists charset es,
    read_po (write_po po_example) = Ok (charset, es)
    /\ charset = po_charset es.
Proof.
  destruct (read_po (write_po po_example)) as [[charset es]|] eqn:E;
    [|vm_compute in E; discriminate].
  exists charset, es. split; [reflexivity|].
  exact (@read_po_charset example_literal_eval example_digits
                          (write_po po_example) charset es E).
Defined.

Lemma read_po_concat_witness :
  exists charset1 es1 charset2 es2,
    read_po uncommented_text = Ok (charset1, es1)
    /\ read_po (write_po po_example) = Ok (charset2, es2)
    /\ read_po (uncommented_text ++ [LF; LF] ++ write_po po_example)
       = Ok (po_charset (es1 ++ es2), es1 ++ es2).
Proof.
  destruct (read_po uncommented_text) as [[charset1 es1]|] eqn:E1;
    [|vm_compute in E1; discriminate].
  destruct (read_po (write_po po_example)) as [[charset2 es2]|] eqn:E2;
    [|vm_compute in E2; discriminate].
  exists charset1, es1, charset2, es2.
  split; [reflexivity|]. split; [reflexivity|].
  exact (@read_po_concat example_literal_eval example_digits
           uncommented_text (write_po po_example) charset1 charset2 es1 es2
           E1 E2).
Defined.

Lemma uneven_catalog_strs : Forall po_strs uneven_catalog.
Proof.
  repeat constructor; cbn [msgctxt msgid msgid_plural msgstr];
    try (apply Forall_po_char; reflexivity).
Defined.

Lemma read_po_write_po_witness :
  Forall po_strs uneven_catalog
  /\ let es := map (entry_map VStr) (map written_entry uneven_catalog) in
     read_po (write_po uneven_catalog) = Ok (po_charset es, es).
Proof.
  exact (conj uneven_catalog_strs
              (@read_po_write_po example_literal_eval example_digits
                                 uneven_catalog uneven_catalog_strs)).
Defined.

Lemma write_po_app_witness :
  uneven_catalog <> [] /\ po_example <> []
  /\ write_po (uneven_catalog ++ po_example)
     = write_po uneven_catalog ++ [LF] ++ write_po po_example.
Proof.
  assert (H1 : uneven_catalog <> []) by discriminate.
  assert (H2 : po_example <> []) by discriminate.
  exact (conj H1 (conj H2 (@write_po_app uneven_catalog po_example H1 H2))).
Defined.

Lemma commented_text_literals :
  Forall (fun raw => literals_are_str raw /\ index_within_limit raw)
         (splitlines commented_text).
Proof. apply Forall_literals_are_strb. vm_compute. reflexivity. Defined.

Lemma read_po_returns_witness :
  Forall (fun raw => literals_are_str raw /\ index_within_limit raw)
         (splitlines commented_text)
  /\ exists charset entries,
       read_po commented_text = Ok (charset, entries)
       /\ Forall str_fields entries.
Proof.
  exact (conj commented_text_literals
              (@read_po_returns example_literal_eval example_digits
                                commented_text commented_text_literals)).
Defined.

(** ** The MO file *)

Local Open Scope Z_scope.

Lemma write_mo_header_witness :
  exists out,
    write_mo mo_example (str_of "utf-8") = Ok out
    /\ 28 <= len out
    /\ word_at LittleEndian out 0 = 2500072158
    /\ word_at LittleEndian out 4 = 0
    /\ word_at LittleEndian out 12 = 28
    /\ word_at LittleEndian out 16 = 28 + 8 * word_at LittleEndian out 8
    /\ word_at LittleEndian out 20 = 0
    /\ word_at LittleEndian out 24 = 0.
Proof.
  destruct (write_mo mo_example (str_of "utf-8")) as [out|] eqn:E;
    [|vm_compute in E; discriminate].
  exists out. split; [reflexivity|].
  exact (@write_mo_header example_codecs mo_example (str_of "utf-8") out E).
Defined.

Lemma write_mo_strings_terminated_witness :
  exists out,
    write_mo mo_example (str_of "utf-8") = Ok out
    /\ exists e n off_orig off_trans orig_table trans_table,
         read_header out = Ok (e, n, off_orig, off_trans)
         /\ read_table e out n off_orig = Ok orig_table
         /\ read_table e out n off_trans = Ok trans_table
         /\ Forall (fun lo : Z * Z =>
                      0 <= fst lo /\ 0 <= snd lo
                      /\ snd lo + fst lo < len out
                      /\ slice out (snd lo + fst lo) (snd lo + fst lo + 1)
                         = [x00])
                   (orig_table ++ trans_table).
Proof.
  destruct (write_mo mo_example (str_of "utf-8")) as [out|] eqn:E;
    [|vm_compute in E; discriminate].
  exists out. split; [reflexivity|].
  exact (@write_mo_strings_terminated example_codecs mo_example
           (str_of "utf-8") out E).
Defined.

Local Open Scope N_scope.

Lemma write_mo_stores_witness :
  exists out,
    write_mo twice_catalog (str_of "utf-8") = Ok out
    /\ exists raw_pairs,
         read_raw_pairs out = Ok raw_pairs
         /\ NoDup (map fst raw_pairs)
         /\ forall k v,
              In (k, v) raw_pairs
              <-> last_with_key (str_of "utf-8") (with_header twice_catalog)
                                k v.
Proof.
  destruct (write_mo twice_catalog (str_of "utf-8")) as [out|] eqn:E;
    [|vm_compute in E; discriminate].
  exists out. split; [reflexivity|].
  exact (@write_mo_stores example_codecs twice_catalog (str_of "utf-8")
                          out E).
Defined.

Lemma read_mo_entries_shaped_witness :
  exists charset es,
    read_mo out_of_range_mo = Ok (charset, es) /\ Forall mo_shaped es.
Proof.
  destruct (read_mo out_of_range_mo) as [[charset es]|] eqn:E;
    [|vm_compute in E; discriminate].
  exists charset, es. split; [reflexivity|].
  exact (@read_mo_entries_shaped example_codecs out_of_range_mo charset es E).
Defined.

Lemma read_mo_key_val_strings_witness :
  exists charset es,
    read_mo out_of_range_mo = Ok (charset, es)
    /\ exists raw_pairs,
         read_raw_pairs out_of_range_mo = Ok raw_pairs
         /\ Forall2
              (fun (e : PoEntry str) (p : bytes * bytes) =>
                 key_string e = decode charset (fst p)
                 /\ val_string e
                    = match msgid_plural e with
                      | Some _ => decode charset (snd p)
                      | None => before_NUL (decode charset (snd p))
                      end)
              es raw_pairs.
Proof.
  destruct (read_mo out_of_range_mo) as [[charset es]|] eqn:E;
    [|vm_compute in E; discriminate].
  exists charset, es. split; [reflexivity|].
  exact (@read_mo_key_val_strings example_codecs out_of_range_mo charset es
                                  E).
Defined.

Lemma swapped_catalog_keys :
  forall e1 e2 k,
    In e1 (with_header swapped_catalog) ->
    In e2 (with_header swapped_catalog) ->
    enc (str_of "utf-8") (key_string e1) = Ok k ->
    enc (str_of "utf-8") (key_string e2) = Ok k -> e1 = e2.
Proof.
  intros e1 e2 k H1 H2 K1 K2.
  destruct H1 as [<-|[<-|[<-|[]]]]; destruct H2 as [<-|[<-|[<-|[]]]];
    try reflexivity; vm_compute in K1, K2; congruence.
Defined.

Lemma write_mo_order_independent_witness :
  Permutation swapped_catalog straight_catalog
  /\ (forall e1 e2 k,
        In e1 (with_header swapped_catalog) ->
        In e2 (with_header swapped_catalog) ->
        enc (str_of "utf-8") (key_string e1) = Ok k ->
        enc (str_of "utf-8") (key_string e2) = Ok k -> e1 = e2)
  /\ write_mo swapped_catalog (str_of "utf-8")
     = write_mo straight_catalog (str_of "utf-8").
Proof.
  assert (Hp : Permutation swapped_catalog straight_catalog)
    by apply perm_swap.
  exact (conj Hp (conj swapped_catalog_keys
           (@write_mo_order_independent example_codecs swapped_catalog
              straight_catalog (str_of "utf-8") Hp swapped_catalog_keys))).
Defined.

(** ** The commands *)

Lemma to_po_then_to_mo_witness :
  exists po,
    main_to_po out_of_range_mo = Ok po
    /\ (forall text, write_text text = Ok po ->
                     decode_utf8_replace po = text)
    /\ exists charset es,
         read_mo out_of_range_mo = Ok (charset, es)
         /\ (Forall po_strs es ->
             main_to_mo po
             = Some (write_mo (map written_entry es)
                       (po_charset (map (entry_map VStr)
                                        (map written_entry es))))).
Proof.
  destruct (main_to_po out_of_range_mo) as [po|] eqn:E;
    [|vm_compute in E; discriminate].
  exists po.
  assert (H : forall text, write_text text = Ok po ->
                           decode_utf8_replace po = text)
    by (intros text; apply example_write_text_read_back).
  exact (conj eq_refl (conj H
           (@to_po_then_to_mo example_literal_eval example_digits
              example_codecs out_of_range_mo po E H))).
Defined.

(** ** The report *)

Lemma en_example_keys :
  NoDup (map _entry_key (filter (fun e => negb (is_header e)) en_example)).
Proof. repeat constructor; cbn; intuition discriminate. Defined.

Lemma missing_pairs_of_copy_witness :
  NoDup (map _entry_key (filter (fun e => negb (is_header e)) en_example))
  /\ missing_pairs en_example en_example
     = map (fun e => (e, e))
           (filter (fun e => negb (is_header e)) en_example).
Proof.
  exact (conj en_example_keys
              (@missing_pairs_of_copy en_example en_example_keys)).
Defined.

End MoreExamples.
